(** * Pathfinder: shortest-path tracers of [PathfindingVisualizer.jsx]

    A shallow embedding of the algorithmic core of the component (the
    [MinHeap] class, the [dijkstra] and [bellmanFord] tracers, and the
    event handlers that author the graph and start a run), followed by
    the properties established about it.

    Conventions.
    - Node ids are JavaScript strings, modelled as [string].
    - Numbers are JavaScript doubles.  Edge weights are the integers
      produced by [parseInt] and are modelled as [Z]; an integer up to
      2^53 in absolute value is a double, and a sum of two doubles is the
      double nearest to the exact sum, ties going to the even
      significand ([double], used by [jsadd] and [parseInt]).  Overflow
      to an infinity, which takes integers of more than 300 digits, is
      not modelled.
    - A distance is a number or [Infinity] ([dist]).  Reading a key that
      is absent from a plain object gives [undefined]; this is the [None]
      of a [gmap] lookup.  Arithmetic on [undefined] gives [NaN], for
      which every comparison is false; both are the [None] of
      [option dist] ([jsadd], [jslt]).
    - Arrays are lists; [steps.push(s)] appends at the end.
    - [while] loops whose termination is not structural take a fuel
      argument; running out of fuel is [None].  Sufficiency of an explicit
      amount of fuel is proved for each of them.

    Layout: the embedding of the source; the notions in which the
    properties are stated; the lemmas about the queue, the two tracers
    and the handlers; the properties themselves. *)

From stdpp Require Import gmap strings list fin_maps pretty sorting.
From Stdlib Require Import ZArith Lia Ascii.
From Stdlib Require PrimFloat Uint63.

Open Scope Z_scope.

(** ** Numbers *)

Inductive dist : Type :=
| Fin (z : Z)
| Infinity.

Global Instance dist_eq_dec : EqDecision dist.
Proof. solve_decision. Defined.

(** The double nearest to the integer [z]: [z] itself up to 2^53 in
    absolute value; beyond, the doubles around [z] are the multiples of
    [2^e] for the [e] that leaves 53 significant bits, and [z] is
    rounded to the nearest one, to the one with an even significand
    when it lies half way. *)
Definition double (z : Z) : Z :=
  let a := Z.abs z in
  if bool_decide (a <= 2 ^ 53) then z
  else
    let e := Z.log2 a - 52 in
    let q := a / 2 ^ e in
    let r := a mod 2 ^ e in
    let q' :=
      if bool_decide (2 * r < 2 ^ e) then q
      else if bool_decide (2 ^ e < 2 * r) then q + 1
      else if Z.even q then q else q + 1 in
    Z.sgn z * (q' * 2 ^ e).

(** [a + w] for a looked-up distance [a] and an integer weight [w]: the
    double nearest to the sum; [undefined + w] is [NaN]. *)
Definition jsadd (a : option dist) (w : Z) : option dist :=
  match a with
  | Some (Fin x) => Some (Fin (double (x + w)))
  | Some Infinity => Some Infinity
  | None => None
  end.

(** [a < b]; false as soon as one side is [undefined] or [NaN]. *)
Definition jslt (a b : option dist) : bool :=
  match a, b with
  | Some (Fin x), Some (Fin y) => bool_decide (x < y)
  | Some (Fin _), Some Infinity => true
  | _, _ => false
  end.

(** [a !== Infinity] *)
Definition not_Infinity (a : option dist) : bool :=
  match a with
  | Some Infinity => false
  | _ => true
  end.

(** ** The graph *)

Record node := mkNode { id : string; x : Z; y : Z }.

Record edge := mkEdge { from : string; to : string; weight : Z }.

Global Instance edge_eq_dec : EqDecision edge.
Proof. solve_decision. Defined.

Global Instance node_eq_dec : EqDecision node.
Proof. solve_decision. Defined.

(** ** The priority queue: class [MinHeap] *)

Record entry := mkEntry { enode : string; priority : Z }.

Global Instance entry_eq_dec : EqDecision entry.
Proof. solve_decision. Defined.

Module MinHeap.

(** [[h[i], h[j]] = [h[j], h[i]]] *)
Definition swap (h : list entry) (i j : nat) : list entry :=
  match h !! i, h !! j with
  | Some a, Some b => <[i := b]> (<[j := a]> h)
  | _, _ => h
  end.

(** The loop of [bubbleUp]: [index] strictly decreases, so [index]
    rounds of fuel are enough ([bubbleUp_loop_fuel]).  The last branch
    (an index out of range) is not reached from [push]. *)
Fixpoint bubbleUp_loop (fuel : nat) (h : list entry) (index : nat) : list entry :=
  match fuel with
  | O => h
  | S fuel' =>
    if bool_decide (0 < index)%nat then
      let parentIndex := ((index - 1) / 2)%nat in
      match h !! parentIndex, h !! index with
      | Some p, Some c =>
        if bool_decide (priority p <= priority c) then h
        else bubbleUp_loop fuel' (swap h parentIndex index) parentIndex
      | _, _ => h
      end
    else h
  end.

Definition bubbleUp (h : list entry) (index : nat) : list entry :=
  bubbleUp_loop index h index.

Definition push (h : list entry) (n : string) (p : Z) : list entry :=
  let h1 := h ++ [mkEntry n p] in
  bubbleUp h1 (length h1 - 1).

(** [i < length && h[i].priority < h[smallest].priority] *)
Definition lower (h : list entry) (i smallest : nat) : bool :=
  bool_decide (i < length h)%nat &&
  match h !! i, h !! smallest with
  | Some a, Some b => bool_decide (priority a < priority b)
  | _, _ => false
  end.

(** The loop of [bubbleDown]: [index] strictly increases and stays below
    the length, so [length h] rounds of fuel are enough. *)
Fixpoint bubbleDown_loop (fuel : nat) (h : list entry) (index : nat) : list entry :=
  match fuel with
  | O => h
  | S fuel' =>
    let smallest := index in
    let leftChild := (2 * index + 1)%nat in
    let rightChild := (2 * index + 2)%nat in
    let smallest := if lower h leftChild smallest then leftChild else smallest in
    let smallest := if lower h rightChild smallest then rightChild else smallest in
    if bool_decide (smallest = index) then h
    else bubbleDown_loop fuel' (swap h smallest index) smallest
  end.

Definition bubbleDown (h : list entry) (index : nat) : list entry :=
  bubbleDown_loop (length h) h index.

(** [pop]: [None] is the [null] returned on an empty heap; otherwise the
    removed entry and the heap left behind.  [this.heap.pop()] removes
    the last array element. *)
Definition pop (h : list entry) : option (entry * list entry) :=
  match h with
  | [] => None
  | [e] => Some (e, [])
  | min :: _ =>
    match last h with
    | Some l => Some (min, bubbleDown (<[0%nat := l]> (removelast h)) 0)
    | None => None
    end
  end.

Definition isEmpty (h : list entry) : bool := bool_decide (length h = 0%nat).

Definition size (h : list entry) : nat := length h.

End MinHeap.

(** [getAll]: the heap contents as [{node, distance}] records. *)
Record pentry := mkPentry { pnode : string; pdistance : option dist }.

Global Instance pentry_eq_dec : EqDecision pentry.
Proof. solve_decision. Defined.

Definition getAll (h : list entry) : list pentry :=
  map (fun item => mkPentry (enode item) (Some (Fin (priority item)))) h.

(** ** Step records

    One record type for the objects pushed on [steps]; a field that a
    given kind of step does not carry reads as its empty value
    ([None], [[]]). *)

Inductive step_type : Type :=
| init | extract | update | no_update | skip
| iteration_start | iteration_end | show_edges | negative_cycle | complete.

Global Instance step_type_eq_dec : EqDecision step_type.
Proof. solve_decision. Defined.

(** A value that is a node id, [null] or [undefined]. *)
Inductive ref : Type :=
| Null
| Undefined
| Id (s : string).

Global Instance ref_eq_dec : EqDecision ref.
Proof. solve_decision. Defined.

(** The [updated] field holds a node id in Dijkstra's [update] step and
    a boolean in Bellman-Ford's [iteration-end] step. *)
Inductive upd : Type :=
| UNode (s : string)
| UFlag (b : bool).

Record step := mkStep {
  type : step_type;
  distances : gmap string dist;
  previous : gmap string (option string);
  current : option string;
  permanent : list pentry;
  tentative : list pentry;
  neighbors : list string;
  updated : option upd;
  iteration : option nat;
  sedge : option edge;
  edgeNumber : option nat;
  sedges : list string;
  path : list ref;
  activeEdges : list string;
  message : string
}.

(** ** Template-literal helpers *)

(** [`${r}`] for a node reference. *)
Definition show_ref (r : ref) : string :=
  match r with
  | Null => "null"
  | Undefined => "undefined"
  | Id s => s
  end.

(** [`${v}`] for a value read from [distances]. *)
Definition show_lookup (v : option dist) : string :=
  match v with
  | Some (Fin z) => pretty z
  | Some Infinity => "Infinity"
  | None => "undefined"
  end.

(** [`${v}`] for the result of an addition. *)
Definition show_num (v : option dist) : string :=
  match v with
  | Some (Fin z) => pretty z
  | Some Infinity => "Infinity"
  | None => "NaN"
  end.

(** [v === Infinity ? '∞' : v] *)
Definition show_inf (v : option dist) : string :=
  match v with
  | Some Infinity => "∞"
  | _ => show_lookup v
  end.

(** [`${from}-${to}`], the key under which an edge is highlighted. *)
Definition edgeKey (a b : string) : string := a +:+ "-" +:+ b.

(** [Array.prototype.join]: [undefined] and [null] elements are printed
    as the empty string. *)
Definition join_elem (r : ref) : string :=
  match r with
  | Id s => s
  | _ => ""
  end.

Fixpoint join (sep : string) (l : list string) : string :=
  match l with
  | [] => ""
  | [a] => a
  | a :: tl => a +:+ sep +:+ join sep tl
  end.

(** ** Shared pieces of the two tracers *)

(** [nodes.forEach(node => { distances[node.id] = Infinity; previous[node.id] = null })] *)
Definition init_maps (nodes : list node)
  : gmap string dist * gmap string (option string) :=
  fold_left (fun acc n => (<[id n := Infinity]> (fst acc), <[id n := None]> (snd acc)))
            nodes (∅, ∅).

(** [previous[curr]]; an [undefined] or [null] key is coerced to its name. *)
Definition get_previous (previous : gmap string (option string)) (curr : ref) : ref :=
  match previous !! show_ref curr with
  | None => Undefined
  | Some None => Null
  | Some (Some s) => Id s
  end.

(** [while (curr !== null) { path.unshift(curr); curr = previous[curr]; }] *)
Fixpoint path_loop (fuel : nat) (previous : gmap string (option string))
         (curr : ref) (path : list ref) : option (list ref) :=
  match curr with
  | Null => Some path
  | _ =>
    match fuel with
    | O => None
    | S fuel' => path_loop fuel' previous (get_previous previous curr) (curr :: path)
    end
  end.

(** [path[i]]: reading past the end gives [undefined]. *)
Definition path_at (path : list ref) (i : nat) : ref :=
  match path !! i with
  | Some r => r
  | None => Undefined
  end.

(** [for (i = 0; i < path.length - 1; i++) pathEdges.push(`${path[i]}-${path[i+1]}`)] *)
Definition pathEdges (path : list ref) : list string :=
  map (fun i => edgeKey (show_ref (path_at path i)) (show_ref (path_at path (i + 1))))
      (seq 0 (length path - 1)).

(** [Array.from(permanent).map(nodeId => ({node: nodeId, distance: distances[nodeId]}))] *)
Definition permanent_entries (distances : gmap string dist) (permanent : list string)
  : list pentry :=
  map (fun nodeId => mkPentry nodeId (distances !! nodeId)) permanent.

(** ** The Dijkstra tracer: [dijkstra] *)

(** The mutable locals of [dijkstra].  [permanent] is a [Set]; its
    elements are kept in insertion order, as [Array.from] lists them. *)
Record dstate := mkDstate {
  d_distances : gmap string dist;
  d_previous : gmap string (option string);
  d_permanent : list string;
  d_heap : list entry;
  d_steps : list step
}.

(** [permanent.has(x)] *)
Definition has (permanent : list string) (x : string) : bool :=
  bool_decide (x ∈ permanent).

(** The body of [neighbors.forEach(({to, weight}) => ...)].  The test
    [alt < distances[to]] can only succeed for a finite [alt]. *)
Definition relax (current : string) (permanentArray tentativeArray : list pentry)
           (st : dstate) (n : string * Z) : dstate :=
  let '(to, weight) := n in
  if has (d_permanent st) to then st
  else
    let alt := jsadd (d_distances st !! current) weight in
    let unchanged :=
      mkDstate (d_distances st) (d_previous st) (d_permanent st) (d_heap st)
        (d_steps st ++
         [mkStep no_update (d_distances st) (d_previous st) (Some current)
            permanentArray tentativeArray [] None None None None [] []
            [edgeKey current to]
            ("Edge " +:+ current +:+ "→" +:+ to +:+ ": No improvement ("
               +:+ show_num alt +:+ " ≥ " +:+ show_lookup (d_distances st !! to) +:+ ")")]) in
    match alt with
    | Some (Fin a) =>
      if jslt alt (d_distances st !! to) then
        let distances' := <[to := Fin a]> (d_distances st) in
        let previous' := <[to := Some current]> (d_previous st) in
        let heap' := MinHeap.push (d_heap st) to a in
        let tentativeArrayAfterUpdate := getAll heap' in
        mkDstate distances' previous' (d_permanent st) heap'
          (d_steps st ++
           [mkStep update distances' previous' (Some current)
              permanentArray tentativeArrayAfterUpdate [] (Some (UNode to))
              None None None [] []
              [edgeKey current to]
              ("Relax edge " +:+ current +:+ "→" +:+ to +:+ ": Update distance to "
                 +:+ pretty a +:+ ", add to tentative set")])
      else unchanged
    | _ => unchanged
    end.

(** One round of [while (!minHeap.isEmpty())]: the state after the round
    and whether the loop was left through [break]. *)
Definition dijkstra_round (edges : list edge) (dest : string)
           (st : dstate) (e : entry) (heap' : list entry) : dstate * bool :=
  let current := enode e in
  if has (d_permanent st) current then
    (mkDstate (d_distances st) (d_previous st) (d_permanent st) heap' (d_steps st), false)
  else
    let permanent' := d_permanent st ++ [current] in
    let permanentArray := permanent_entries (d_distances st) permanent' in
    let tentativeArray := getAll heap' in
    let neighbors :=
      map (fun e => (to e, weight e)) (filter (fun e => from e = current) edges) in
    let exploringEdges :=
      map (fun e => edgeKey (from e) (to e))
          (filter (fun e => from e = current ∧ to e ∉ permanent') edges) in
    let st1 :=
      mkDstate (d_distances st) (d_previous st) permanent' heap'
        (d_steps st ++
         [mkStep extract (d_distances st) (d_previous st) (Some current)
            permanentArray tentativeArray (map fst neighbors) None
            None None None [] []
            exploringEdges
            ("Move " +:+ current +:+ " from tentative to permanent (distance: "
               +:+ show_lookup (d_distances st !! current) +:+ ")")]) in
    if bool_decide (current = dest) then (st1, true)
    else (fold_left (relax current permanentArray tentativeArray) neighbors st1, false).

(** [while (!minHeap.isEmpty()) { ... }].  [pop] is only called on a
    heap that is not empty, where it does not return [null]
    ([HeapFacts.pop_None]). *)
Fixpoint dijkstra_loop (fuel : nat) (edges : list edge) (dest : string)
         (st : dstate) : option dstate :=
  if MinHeap.isEmpty (d_heap st) then Some st
  else
    match fuel with
    | O => None
    | S fuel' =>
      match MinHeap.pop (d_heap st) with
      | None => None
      | Some (e, heap') =>
        let '(st', stop) := dijkstra_round edges dest st e heap' in
        if stop then Some st' else dijkstra_loop fuel' edges dest st'
      end
    end.

(** The state in which the main loop is entered. *)
Definition dijkstra_init (nodes : list node) (source : string) : dstate :=
  let '(distances0, previous0) := init_maps nodes in
  let distances1 := <[source := Fin 0]> distances0 in
  let heap := MinHeap.push [] source 0 in
  mkDstate distances1 previous0 [] heap
    [mkStep init distances1 previous0 None [] [mkPentry source (Some (Fin 0))]
       [] None None None None [] [] []
       "Initialize: Set source distance to 0, add to tentative set"].

(** The terminal [complete] step, from the final maps and the path
    rebuilt from [previous]. *)
Definition dijkstra_complete (dest : string) (st : dstate) (path : list ref) : step :=
  let reached := not_Infinity (d_distances st !! dest) in
  mkStep complete (d_distances st) (d_previous st) None
    (permanent_entries (d_distances st) (d_permanent st)) [] [] None
    None None None []
    (if reached then path else [])
    (pathEdges path)
    (if reached
     then "Path found! Distance: " +:+ show_lookup (d_distances st !! dest)
            +:+ ", Path: " +:+ join " → " (map join_elem path)
     else "No path exists").

Definition dijkstra (fuel : nat) (nodes : list node) (edges : list edge)
           (source dest : string) : option (list step) :=
  match dijkstra_loop fuel edges dest (dijkstra_init nodes source) with
  | None => None
  | Some st =>
    match path_loop fuel (d_previous st) (Id dest) [] with
    | None => None
    | Some path => Some (d_steps st ++ [dijkstra_complete dest st path])
    end
  end.

(** ** The Bellman-Ford tracer: [bellmanFord] *)

Record bstate := mkBstate {
  b_distances : gmap string dist;
  b_previous : gmap string (option string);
  b_steps : list step;
  b_updated : bool
}.

(** [`${e.from}→${e.to} (weight: ${e.weight})`] and [`${e.from}→${e.to}(${e.weight})`] *)
Definition show_edge_long (e : edge) : string :=
  from e +:+ "→" +:+ to e +:+ " (weight: " +:+ pretty (weight e) +:+ ")".

Definition show_edge_short (e : edge) : string :=
  from e +:+ "→" +:+ to e +:+ "(" +:+ pretty (weight e) +:+ ")".

(** The body of [edges.forEach((edge, edgeIndex) => ...)] in pass [i + 1]. *)
Definition bf_edge (i : nat) (st : bstate) (ie : nat * edge) : bstate :=
  let '(edgeIndex, edge) := ie in
  let activeEdge := [edgeKey (from edge) (to edge)] in
  let head := "Edge " +:+ pretty (edgeIndex + 1)%nat +:+ " (" +:+ from edge
                +:+ "→" +:+ to edge +:+ "): " in
  if not_Infinity (b_distances st !! from edge) then
    let alt := jsadd (b_distances st !! from edge) (weight edge) in
    let unchanged :=
      mkBstate (b_distances st) (b_previous st)
        (b_steps st ++
         [mkStep no_update (b_distances st) (b_previous st) None [] [] [] None
            (Some (i + 1)%nat) (Some edge) (Some (edgeIndex + 1)%nat) [] []
            activeEdge
            (head +:+ "No update (" +:+ show_num alt +:+ " ≥ "
               +:+ show_inf (b_distances st !! to edge) +:+ ")")])
        (b_updated st) in
    match alt with
    | Some (Fin a) =>
      if jslt alt (b_distances st !! to edge) then
        let oldDist := b_distances st !! to edge in
        let distances' := <[to edge := Fin a]> (b_distances st) in
        let previous' := <[to edge := Some (from edge)]> (b_previous st) in
        mkBstate distances' previous'
          (b_steps st ++
           [mkStep update distances' previous' None [] [] [] None
              (Some (i + 1)%nat) (Some edge) (Some (edgeIndex + 1)%nat) [] []
              activeEdge
              (head +:+ "Relax! " +:+ to edge +:+ " distance updated from "
                 +:+ show_inf oldDist +:+ " to " +:+ pretty a)])
          true
      else unchanged
    | _ => unchanged
    end
  else
    mkBstate (b_distances st) (b_previous st)
      (b_steps st ++
       [mkStep skip (b_distances st) (b_previous st) None [] [] [] None
          (Some (i + 1)%nat) (Some edge) (Some (edgeIndex + 1)%nat) [] []
          activeEdge
          (head +:+ "Skip (source " +:+ from edge +:+ " unreachable)")])
      (b_updated st).

(** [edges] paired with their array indices. *)
Definition indexed (edges : list edge) : list (nat * edge) :=
  zip (seq 0 (length edges)) edges.

(** One pass of the [for] loop, from [let updated = false] to the
    [iteration-end] step. *)
Definition bf_pass (edges : list edge) (i : nat) (st : bstate) : bstate :=
  let st1 :=
    mkBstate (b_distances st) (b_previous st)
      (b_steps st ++
       [mkStep iteration_start (b_distances st) (b_previous st) None [] [] [] None
          (Some (i + 1)%nat) None None [] [] []
          ("Iteration " +:+ pretty (i + 1)%nat +:+ ": Relaxing all "
             +:+ pretty (length edges) +:+ " edges")])
      false in
  let st2 := fold_left (bf_edge i) (indexed edges) st1 in
  mkBstate (b_distances st2) (b_previous st2)
    (b_steps st2 ++
     [mkStep iteration_end (b_distances st2) (b_previous st2) None [] [] []
        (Some (UFlag (b_updated st2)))
        (Some (i + 1)%nat) None None [] [] []
        (if b_updated st2
         then "Iteration " +:+ pretty (i + 1)%nat +:+ " complete: Distances updated"
         else "Iteration " +:+ pretty (i + 1)%nat
                +:+ " complete: No changes, can terminate early")])
    (b_updated st2).

(** [for (let i = 0; i < nodes.length - 1; i++) { ...; if (!updated) break; }],
    with [remaining] passes left to go from pass index [i]. *)
Fixpoint bf_passes (remaining : nat) (edges : list edge) (i : nat) (st : bstate) : bstate :=
  match remaining with
  | O => st
  | S remaining' =>
    let st' := bf_pass edges i st in
    if negb (b_updated st') then st'
    else bf_passes remaining' edges (i + 1)%nat st'
  end.

(** An edge that can still be relaxed:
    [distances[edge.from] !== Infinity && alt < distances[edge.to]]. *)
Definition relaxable (distances : gmap string dist) (e : edge) : bool :=
  not_Infinity (distances !! from e) &&
  jslt (jsadd (distances !! from e) (weight e)) (distances !! to e).

(** The final scan; [negativeCycleEdge] is the last relaxable edge met. *)
Definition negativeCycleEdge (distances : gmap string dist) (edges : list edge)
  : option edge :=
  fold_left (fun found e => if relaxable distances e then Some e else found) edges None.

Definition bf_init (nodes : list node) (edges : list edge) (source : string) : bstate :=
  let '(distances0, previous0) := init_maps nodes in
  let distances1 := <[source := Fin 0]> distances0 in
  mkBstate distances1 previous0
    [mkStep show_edges distances1 previous0 None [] [] [] None
       (Some 0%nat) None None (map show_edge_long edges) [] []
       ("Graph has " +:+ pretty (length edges) +:+ " edges: "
          +:+ join ", " (map show_edge_short edges));
     mkStep init distances1 previous0 None [] [] [] None
       (Some 0%nat) None None [] [] []
       ("Initialize: Set distance[" +:+ source +:+ "] = 0, all others = ∞")]
    false.

Definition bf_complete (source dest : string) (st : bstate) (path : list ref) : step :=
  let reached := not_Infinity (b_distances st !! dest) in
  mkStep complete (b_distances st) (b_previous st) None [] [] [] None
    None None None []
    (if reached then path else [])
    (pathEdges path)
    (if reached
     then "Algorithm complete! Shortest path from " +:+ source +:+ " to " +:+ dest
            +:+ ": " +:+ join " → " (map join_elem path)
            +:+ " (Distance: " +:+ show_lookup (b_distances st !! dest) +:+ ")"
     else "Algorithm complete! No path exists from " +:+ source +:+ " to " +:+ dest).

Definition bellmanFord (fuel : nat) (nodes : list node) (edges : list edge)
           (source dest : string) : option (list step) :=
  let st := bf_passes (length nodes - 1) edges 0 (bf_init nodes edges source) in
  match negativeCycleEdge (b_distances st) edges with
  | Some e =>
    Some (b_steps st ++
          [mkStep negative_cycle (b_distances st) (b_previous st) None [] [] [] None
             None None None [] []
             [edgeKey (from e) (to e)]
             ("Negative cycle detected! Edge " +:+ from e +:+ "→" +:+ to e
                +:+ " can still be relaxed. Shortest paths undefined.")])
  | None =>
    match path_loop fuel (b_previous st) (Id dest) [] with
    | None => None
    | Some path => Some (b_steps st ++ [bf_complete source dest st path])
    end
  end.

(** ** The component state and its event handlers

    The [useState] cells of [PathfindingVisualizer] that the handlers read
    or write.  [toasts] is the log of the messages passed to
    [toast.error], oldest first.  The cells that only serve the drawing
    of the canvas ([selectedNode], [activeEdges]) are left out, and so are
    the drawing effects.  A handler reads the state of the render it was
    created in and queues its [set...] calls, so it is a function from
    the state before the event to the state after it.  Pixel coordinates
    are taken to be integers. *)

Inductive algo : Type := Dijkstra | BellmanFord.

Inductive mode : Type := Add | Connect | Delete | SelectSource | SelectDest.

Inductive direction : Type := Uni | Bi.

Global Instance algo_eq_dec : EqDecision algo.
Proof. solve_decision. Defined.

Global Instance mode_eq_dec : EqDecision mode.
Proof. solve_decision. Defined.

Global Instance direction_eq_dec : EqDecision direction.
Proof. solve_decision. Defined.

Record ui := mkUi {
  ui_nodes : list node;
  ui_edges : list edge;
  ui_sourceNode : option string;
  ui_destNode : option string;
  ui_algorithm : algo;
  ui_isAnimating : bool;
  ui_currentStep : nat;
  ui_steps : list step;
  ui_mode : mode;
  ui_connectingFrom : option string;
  ui_draggingNode : option string;
  ui_dragOffset : Z * Z;
  ui_showWeightModal : bool;
  ui_direction : direction;
  ui_weightInput : string;
  ui_pendingEdge : option (string * string);
  ui_toasts : list string
}.

Definition set_nodes (v : list node) (st : ui) : ui :=
  mkUi v (ui_edges st) (ui_sourceNode st) (ui_destNode st) (ui_algorithm st) (ui_isAnimating st) (ui_currentStep st) (ui_steps st) (ui_mode st) (ui_connectingFrom st) (ui_draggingNode st) (ui_dragOffset st) (ui_showWeightModal st) (ui_direction st) (ui_weightInput st) (ui_pendingEdge st) (ui_toasts st).

Definition set_edges (v : list edge) (st : ui) : ui :=
  mkUi (ui_nodes st) v (ui_sourceNode st) (ui_destNode st) (ui_algorithm st) (ui_isAnimating st) (ui_currentStep st) (ui_steps st) (ui_mode st) (ui_connectingFrom st) (ui_draggingNode st) (ui_dragOffset st) (ui_showWeightModal st) (ui_direction st) (ui_weightInput st) (ui_pendingEdge st) (ui_toasts st).

Definition set_sourceNode (v : option string) (st : ui) : ui :=
  mkUi (ui_nodes st) (ui_edges st) v (ui_destNode st) (ui_algorithm st) (ui_isAnimating st) (ui_currentStep st) (ui_steps st) (ui_mode st) (ui_connectingFrom st) (ui_draggingNode st) (ui_dragOffset st) (ui_showWeightModal st) (ui_direction st) (ui_weightInput st) (ui_pendingEdge st) (ui_toasts st).

Definition set_destNode (v : option string) (st : ui) : ui :=
  mkUi (ui_nodes st) (ui_edges st) (ui_sourceNode st) v (ui_algorithm st) (ui_isAnimating st) (ui_currentStep st) (ui_steps st) (ui_mode st) (ui_connectingFrom st) (ui_draggingNode st) (ui_dragOffset st) (ui_showWeightModal st) (ui_direction st) (ui_weightInput st) (ui_pendingEdge st) (ui_toasts st).

Definition set_algorithm (v : algo) (st : ui) : ui :=
  mkUi (ui_nodes st) (ui_edges st) (ui_sourceNode st) (ui_destNode st) v (ui_isAnimating st) (ui_currentStep st) (ui_steps st) (ui_mode st) (ui_connectingFrom st) (ui_draggingNode st) (ui_dragOffset st) (ui_showWeightModal st) (ui_direction st) (ui_weightInput st) (ui_pendingEdge st) (ui_toasts st).

Definition set_isAnimating (v : bool) (st : ui) : ui :=
  mkUi (ui_nodes st) (ui_edges st) (ui_sourceNode st) (ui_destNode st) (ui_algorithm st) v (ui_currentStep st) (ui_steps st) (ui_mode st) (ui_connectingFrom st) (ui_draggingNode st) (ui_dragOffset st) (ui_showWeightModal st) (ui_direction st) (ui_weightInput st) (ui_pendingEdge st) (ui_toasts st).

Definition set_currentStep (v : nat) (st : ui) : ui :=
  mkUi (ui_nodes st) (ui_edges st) (ui_sourceNode st) (ui_destNode st) (ui_algorithm st) (ui_isAnimating st) v (ui_steps st) (ui_mode st) (ui_connectingFrom st) (ui_draggingNode st) (ui_dragOffset st) (ui_showWeightModal st) (ui_direction st) (ui_weightInput st) (ui_pendingEdge st) (ui_toasts st).

Definition set_steps (v : list step) (st : ui) : ui :=
  mkUi (ui_nodes st) (ui_edges st) (ui_sourceNode st) (ui_destNode st) (ui_algorithm st) (ui_isAnimating st) (ui_currentStep st) v (ui_mode st) (ui_connectingFrom st) (ui_draggingNode st) (ui_dragOffset st) (ui_showWeightModal st) (ui_direction st) (ui_weightInput st) (ui_pendingEdge st) (ui_toasts st).

Definition set_mode (v : mode) (st : ui) : ui :=
  mkUi (ui_nodes st) (ui_edges st) (ui_sourceNode st) (ui_destNode st) (ui_algorithm st) (ui_isAnimating st) (ui_currentStep st) (ui_steps st) v (ui_connectingFrom st) (ui_draggingNode st) (ui_dragOffset st) (ui_showWeightModal st) (ui_direction st) (ui_weightInput st) (ui_pendingEdge st) (ui_toasts st).

Definition set_connectingFrom (v : option string) (st : ui) : ui :=
  mkUi (ui_nodes st) (ui_edges st) (ui_sourceNode st) (ui_destNode st) (ui_algorithm st) (ui_isAnimating st) (ui_currentStep st) (ui_steps st) (ui_mode st) v (ui_draggingNode st) (ui_dragOffset st) (ui_showWeightModal st) (ui_direction st) (ui_weightInput st) (ui_pendingEdge st) (ui_toasts st).

Definition set_draggingNode (v : option string) (st : ui) : ui :=
  mkUi (ui_nodes st) (ui_edges st) (ui_sourceNode st) (ui_destNode st) (ui_algorithm st) (ui_isAnimating st) (ui_currentStep st) (ui_steps st) (ui_mode st) (ui_connectingFrom st) v (ui_dragOffset st) (ui_showWeightModal st) (ui_direction st) (ui_weightInput st) (ui_pendingEdge st) (ui_toasts st).

Definition set_dragOffset (v : Z * Z) (st : ui) : ui :=
  mkUi (ui_nodes st) (ui_edges st) (ui_sourceNode st) (ui_destNode st) (ui_algorithm st) (ui_isAnimating st) (ui_currentStep st) (ui_steps st) (ui_mode st) (ui_connectingFrom st) (ui_draggingNode st) v (ui_showWeightModal st) (ui_direction st) (ui_weightInput st) (ui_pendingEdge st) (ui_toasts st).

Definition set_showWeightModal (v : bool) (st : ui) : ui :=
  mkUi (ui_nodes st) (ui_edges st) (ui_sourceNode st) (ui_destNode st) (ui_algorithm st) (ui_isAnimating st) (ui_currentStep st) (ui_steps st) (ui_mode st) (ui_connectingFrom st) (ui_draggingNode st) (ui_dragOffset st) v (ui_direction st) (ui_weightInput st) (ui_pendingEdge st) (ui_toasts st).

Definition set_direction (v : direction) (st : ui) : ui :=
  mkUi (ui_nodes st) (ui_edges st) (ui_sourceNode st) (ui_destNode st) (ui_algorithm st) (ui_isAnimating st) (ui_currentStep st) (ui_steps st) (ui_mode st) (ui_connectingFrom st) (ui_draggingNode st) (ui_dragOffset st) (ui_showWeightModal st) v (ui_weightInput st) (ui_pendingEdge st) (ui_toasts st).

Definition set_weightInput (v : string) (st : ui) : ui :=
  mkUi (ui_nodes st) (ui_edges st) (ui_sourceNode st) (ui_destNode st) (ui_algorithm st) (ui_isAnimating st) (ui_currentStep st) (ui_steps st) (ui_mode st) (ui_connectingFrom st) (ui_draggingNode st) (ui_dragOffset st) (ui_showWeightModal st) (ui_direction st) v (ui_pendingEdge st) (ui_toasts st).

Definition set_pendingEdge (v : option (string * string)) (st : ui) : ui :=
  mkUi (ui_nodes st) (ui_edges st) (ui_sourceNode st) (ui_destNode st) (ui_algorithm st) (ui_isAnimating st) (ui_currentStep st) (ui_steps st) (ui_mode st) (ui_connectingFrom st) (ui_draggingNode st) (ui_dragOffset st) (ui_showWeightModal st) (ui_direction st) (ui_weightInput st) v (ui_toasts st).

Definition set_toasts (v : list string) (st : ui) : ui :=
  mkUi (ui_nodes st) (ui_edges st) (ui_sourceNode st) (ui_destNode st) (ui_algorithm st) (ui_isAnimating st) (ui_currentStep st) (ui_steps st) (ui_mode st) (ui_connectingFrom st) (ui_draggingNode st) (ui_dragOffset st) (ui_showWeightModal st) (ui_direction st) (ui_weightInput st) (ui_pendingEdge st) v.

(** The state of a freshly mounted component. *)
Definition ui_initial : ui :=
  mkUi [] [] None None Dijkstra false 0 [] Add None None (0, 0) false Uni "1" None [].

(** [toast.error(msg)] *)
Definition toast_error (msg : string) (st : ui) : ui :=
  set_toasts (ui_toasts st ++ [msg]) st.

(** *** [parseInt]

    The built-in: leading white space is skipped, then an optional sign,
    an optional [0x] prefix, and the longest run of digits of the radix;
    no digit at all gives [NaN] ([None]).  The result is the double
    nearest to the integer that was read; numerals of more than 20
    significant digits, which an implementation may approximate
    further, and those that overflow to [Infinity] are outside the
    model.  Only the ASCII white space characters are recognised
    here. *)

Definition is_space (c : Ascii.ascii) : bool :=
  let n := Ascii.nat_of_ascii c in
  bool_decide (n = 32 ∨ (9 <= n ∧ n <= 13))%nat.

Fixpoint skip_space (s : string) : string :=
  match s with
  | String c s' => if is_space c then skip_space s' else s
  | EmptyString => s
  end.

Definition digit_of (c : Ascii.ascii) : option Z :=
  let n := Z.of_nat (Ascii.nat_of_ascii c) in
  if bool_decide (48 <= n <= 57) then Some (n - 48)
  else if bool_decide (97 <= n <= 122) then Some (n - 87)
  else if bool_decide (65 <= n <= 90) then Some (n - 55)
  else None.

Fixpoint digits (radix : Z) (s : string) (acc : option Z) : option Z :=
  match s with
  | EmptyString => acc
  | String c s' =>
    match digit_of c with
    | Some d =>
      if bool_decide (d < radix)
      then digits radix s' (Some (default 0 acc * radix + d))
      else acc
    | None => acc
    end
  end.

Definition parseInt (s : string) : option Z :=
  let s := skip_space s in
  let '(sign, s) :=
    match s with
    | String "-"%char s' => (-1, s')
    | String "+"%char s' => (1, s')
    | _ => (1, s)
    end in
  let '(radix, s) :=
    match s with
    | String "0"%char (String "x"%char s') => (16, s')
    | String "0"%char (String "X"%char s') => (16, s')
    | _ => (10, s)
    end in
  match digits radix s None with
  | Some n => Some (sign * double n)
  | None => None
  end.

(** Truthiness of a number ([NaN] and [0] are falsy) and of a node id
    held in a state cell ([null] and the empty string are falsy). *)
Definition truthy_num (w : option Z) : bool :=
  match w with
  | Some z => bool_decide (z ≠ 0)
  | None => false
  end.

Definition truthy_id (o : option string) : bool :=
  match o with
  | Some s => bool_decide (s ≠ "")
  | None => false
  end.

(** [weight < 0] for the value returned by [parseInt]. *)
Definition negative_num (w : option Z) : bool :=
  match w with
  | Some z => bool_decide (z < 0)
  | None => false
  end.

(** *** The weight dialog *)

Definition openWeightModal (fromNode toNode : string) (st : ui) : ui :=
  set_showWeightModal true (set_weightInput "1" (set_pendingEdge (Some (fromNode, toNode)) st)).

Definition closeWeightModal (st : ui) : ui :=
  set_connectingFrom None
    (set_weightInput "1" (set_pendingEdge None (set_showWeightModal false st))).

Definition handleWeightSubmit (st : ui) : ui :=
  let weight := parseInt (ui_weightInput st) in
  if bool_decide (ui_algorithm st = Dijkstra) && negative_num weight then
    toast_error "Dijkstra's algorithm must have positive weight edges only." st
  else
    let st1 :=
      match weight, ui_pendingEdge st with
      | Some w, Some (pfrom, pto) =>
        if truthy_num weight then
          match ui_direction st with
          | Uni => set_edges (ui_edges st ++ [mkEdge pfrom pto w]) st
          | Bi => set_edges (ui_edges st ++ [mkEdge pfrom pto w; mkEdge pto pfrom w]) st
          end
        else st
      | _, _ => st
      end in
    closeWeightModal (set_direction Uni st1).

(** *** The canvas *)

(** [Math.sqrt(dx * dx + dy * dy) < 25], on integer pixel coordinates. *)
Definition hit (px py : Z) (n : node) : bool :=
  let dx := x n - px in
  let dy := y n - py in
  bool_decide (dx * dx + dy * dy < 625).

Definition handleCanvasMouseDown (px py : Z) (st : ui) : ui :=
  if ui_isAnimating st then st
  else
    let clickedNode := find (hit px py) (ui_nodes st) in
    match clickedNode, ui_mode st with
    | Some c, Add =>
      set_dragOffset (x c - px, y c - py) (set_draggingNode (Some (id c)) st)
    | None, Add =>
      let newNode := mkNode ("N" +:+ pretty (length (ui_nodes st))) px py in
      set_nodes (ui_nodes st ++ [newNode]) st
    | Some c, Connect =>
      match ui_connectingFrom st with
      | Some cf =>
        if truthy_id (Some cf) then
          if bool_decide (cf ≠ id c) then openWeightModal cf (id c) st else st
        else set_connectingFrom (Some (id c)) st
      | None => set_connectingFrom (Some (id c)) st
      end
    | Some c, Delete =>
      let st1 := set_nodes (filter (fun n => id n ≠ id c) (ui_nodes st)) st in
      let st2 :=
        set_edges (filter (fun e => from e ≠ id c ∧ to e ≠ id c) (ui_edges st)) st1 in
      let st3 :=
        if bool_decide (ui_sourceNode st = Some (id c)) then set_sourceNode None st2 else st2 in
      if bool_decide (ui_destNode st = Some (id c)) then set_destNode None st3 else st3
    | Some c, SelectSource => set_mode Add (set_sourceNode (Some (id c)) st)
    | Some c, SelectDest => set_mode Add (set_destNode (Some (id c)) st)
    | None, _ => st
    end.

Definition handleCanvasMouseMove (px py : Z) (st : ui) : ui :=
  match ui_draggingNode st with
  | Some d =>
    if truthy_id (Some d) then
      set_nodes
        (map (fun n => if bool_decide (id n = d)
                       then mkNode (id n) (px + fst (ui_dragOffset st))
                                   (py + snd (ui_dragOffset st))
                       else n)
             (ui_nodes st)) st
    else st
  | None => st
  end.

Definition handleCanvasMouseUp (st : ui) : ui := set_draggingNode None st.

(** *** The controls *)

(** [onChange] of the algorithm selector. *)
Definition algorithmChange (value : algo) (st : ui) : ui :=
  if bool_decide (value = Dijkstra) &&
     bool_decide (0 < length (filter (fun e => (weight e < 0)%Z) (ui_edges st)))%nat
  then
    toast_error
      "Dijkstra's algorithm can only contain positive edge weight. Please clear before selecting"
      st
  else set_algorithm value st.

(** [onClick] of the mode buttons. *)
Definition modeButton (m : mode) (st : ui) : ui :=
  match m with
  | Add | Connect | Delete => set_connectingFrom None (set_mode m st)
  | SelectSource | SelectDest => set_mode m st
  end.

(** [runAlgorithm]: [None] when the tracer it calls does not return
    within [fuel]. *)
Definition runAlgorithm (fuel : nat) (st : ui) : option ui :=
  match ui_sourceNode st, ui_destNode st with
  | Some s, Some d =>
    if negb (truthy_id (Some s)) || negb (truthy_id (Some d))
       || bool_decide (length (ui_edges st) = 0%nat)
    then
      Some (toast_error
              "Please select source node, destination node and make sure graph contains edges."
              st)
    else
      let algorithmSteps :=
        match ui_algorithm st with
        | Dijkstra => dijkstra fuel (ui_nodes st) (ui_edges st) s d
        | BellmanFord => bellmanFord fuel (ui_nodes st) (ui_edges st) s d
        end in
      match algorithmSteps with
      | Some steps => Some (set_isAnimating true (set_currentStep 0 (set_steps steps st)))
      | None => None
      end
  | _, _ =>
    Some (toast_error
            "Please select source node, destination node and make sure graph contains edges."
            st)
  end.

Definition nextStep (st : ui) : ui :=
  if bool_decide (ui_currentStep st < length (ui_steps st) - 1)%nat
  then set_currentStep (ui_currentStep st + 1) st
  else set_isAnimating false st.

Definition resetVisualization (st : ui) : ui :=
  set_steps [] (set_currentStep 0 (set_isAnimating false st)).

Definition clearGraph (st : ui) : ui :=
  resetVisualization
    (set_destNode None (set_sourceNode None (set_edges [] (set_nodes [] st)))).

(** *** Events

    What the user can do to the rendered component; a control that is
    rendered [disabled], or not rendered at all, receives no event. *)

Inductive event : Type :=
| CanvasMouseDown (px py : Z)
| CanvasMouseMove (px py : Z)
| CanvasMouseUp
| WeightSubmit
| WeightInputChange (value : string)
| DirectionChange (value : direction)
| CloseWeightModal
| AlgorithmChange (value : algo)
| ModeButton (m : mode)
| RunAlgorithm
| NextStep
| Reset
| Clear.

Inductive ui_step : ui → event → ui → Prop :=
| step_mouse_down st px py :
    ui_step st (CanvasMouseDown px py) (handleCanvasMouseDown px py st)
| step_mouse_move st px py :
    ui_step st (CanvasMouseMove px py) (handleCanvasMouseMove px py st)
| step_mouse_up st :
    ui_step st CanvasMouseUp (handleCanvasMouseUp st)
| step_weight_submit st :
    ui_showWeightModal st = true →
    ui_step st WeightSubmit (handleWeightSubmit st)
| step_weight_input st value :
    ui_showWeightModal st = true →
    ui_step st (WeightInputChange value) (set_weightInput value st)
| step_direction st value :
    ui_showWeightModal st = true → ui_isAnimating st = false →
    ui_step st (DirectionChange value) (set_direction value st)
| step_close st :
    ui_showWeightModal st = true →
    ui_step st CloseWeightModal (closeWeightModal st)
| step_algorithm st value :
    ui_isAnimating st = false →
    ui_step st (AlgorithmChange value) (algorithmChange value st)
| step_mode st m :
    ui_isAnimating st = false →
    ui_step st (ModeButton m) (modeButton m st)
| step_run st fuel st' :
    ui_isAnimating st = false →
    runAlgorithm fuel st = Some st' →
    ui_step st RunAlgorithm st'
| step_next st :
    ui_isAnimating st = true →
    (ui_currentStep st < length (ui_steps st) - 1)%nat →
    ui_step st NextStep (nextStep st)
| step_reset st :
    ui_steps st ≠ [] →
    ui_step st Reset (resetVisualization st)
| step_clear st :
    ui_isAnimating st = false →
    ui_step st Clear (clearGraph st).

(** The states the component can be in. *)
Inductive ui_reachable : ui → Prop :=
| reach_initial : ui_reachable ui_initial
| reach_step st ev st' : ui_reachable st → ui_step st ev st' → ui_reachable st'.

(** The state after a list of events, each handled in turn; [fuel] is
    handed to every run of a tracer.  An event that the rendered
    component cannot receive is dropped. *)
Definition ui_handle (fuel : nat) (st : ui) (ev : event) : option ui :=
  match ev with
  | CanvasMouseDown px py => Some (handleCanvasMouseDown px py st)
  | CanvasMouseMove px py => Some (handleCanvasMouseMove px py st)
  | CanvasMouseUp => Some (handleCanvasMouseUp st)
  | WeightSubmit =>
    Some (if ui_showWeightModal st then handleWeightSubmit st else st)
  | WeightInputChange value =>
    Some (if ui_showWeightModal st then set_weightInput value st else st)
  | DirectionChange value =>
    Some (if ui_showWeightModal st && negb (ui_isAnimating st)
          then set_direction value st else st)
  | CloseWeightModal =>
    Some (if ui_showWeightModal st then closeWeightModal st else st)
  | AlgorithmChange value =>
    Some (if ui_isAnimating st then st else algorithmChange value st)
  | ModeButton m => Some (if ui_isAnimating st then st else modeButton m st)
  | RunAlgorithm => if ui_isAnimating st then Some st else runAlgorithm fuel st
  | NextStep =>
    Some (if ui_isAnimating st &&
             bool_decide (ui_currentStep st < length (ui_steps st) - 1)%nat
          then nextStep st else st)
  | Reset => Some (if bool_decide (ui_steps st ≠ []) then resetVisualization st else st)
  | Clear => Some (if ui_isAnimating st then st else clearGraph st)
  end.

Fixpoint ui_run (fuel : nat) (evs : list event) (st : ui) : option ui :=
  match evs with
  | [] => Some st
  | ev :: evs' =>
    match ui_handle fuel st ev with
    | Some st' => ui_run fuel evs' st'
    | None => None
    end
  end.

(** ** Notions used to state the properties *)

(** The node ids of a graph. *)
Definition ids (nodes : list node) : list string := map id nodes.

(** The invariant of a graph: every edge joins two of its nodes. *)
Definition graph_wf (nodes : list node) (edges : list edge) : Prop :=
  ∀ e, e ∈ edges → from e ∈ ids nodes ∧ to e ∈ ids nodes.

(** [es] is a sequence of edges leading from [u] to [v], each one
    starting where the previous one ends. *)
Fixpoint chained (u : string) (es : list edge) (v : string) : Prop :=
  match es with
  | [] => u = v
  | e :: es' => from e = u ∧ chained (to e) es' v
  end.

Definition is_path (edges : list edge) (u : string) (es : list edge) (v : string) : Prop :=
  Forall (fun e => e ∈ edges) es ∧ chained u es v.

Definition total_weight (es : list edge) : Z :=
  foldr (fun e acc => weight e + acc) 0 es.

(** The nodes a path goes through, its start included. *)
Definition visited (u : string) (es : list edge) : list string := u :: map to es.

(** [x] is the least total weight of a path from [s] to [v]. *)
Definition shortest_distance (edges : list edge) (s v : string) (x : Z) : Prop :=
  (∃ es, is_path edges s es v ∧ total_weight es = x) ∧
  (∀ es, is_path edges s es v → x <= total_weight es).

Definition unreachable (edges : list edge) (s v : string) : Prop :=
  ∀ es, ¬ is_path edges s es v.

(** A reported distance is right: the least weight of a path, or
    [Infinity] when there is no path. *)
Definition reports_shortest (edges : list edge) (s : string)
           (d : option dist) (v : string) : Prop :=
  match d with
  | Some (Fin x) => shortest_distance edges s v x
  | Some Infinity => unreachable edges s v
  | None => False
  end.

(** A cycle of negative total weight that can be reached from [s]. *)
Definition negative_cycle_reachable (edges : list edge) (s : string) : Prop :=
  ∃ es1 v es2,
    is_path edges s es1 v ∧ is_path edges v es2 v ∧ total_weight es2 < 0.

(** The consecutive ordered pairs of a sequence. *)
Fixpoint consecutive_pairs {A : Type} (l : list A) : list (A * A) :=
  match l with
  | a :: (b :: _) as tl => (a, b) :: consecutive_pairs tl
  | _ => []
  end.

(** A path replayed as the keys of its edges. *)
Definition replay (path : list ref) : list string :=
  map (fun ab => edgeKey (show_ref (fst ab)) (show_ref (snd ab))) (consecutive_pairs path).

(** The chain of predecessors met by the reconstruction loop from
    [curr] until [null]. *)
Inductive pchain (previous : gmap string (option string)) : ref → list ref → Prop :=
| pchain_null : pchain previous Null []
| pchain_step r l :
    r ≠ Null → pchain previous (get_previous previous r) l →
    pchain previous r (r :: l).

(** [u] is recorded as the predecessor of [v]. *)
Definition pred_of (previous : gmap string (option string)) (u v : string) : Prop :=
  previous !! v = Some (Some u).

(** The weights with which every sum a tracer forms is an integer of at
    most 2^53 in absolute value, so that no addition rounds: each weight
    is at most [2^53 / (|V| * |E| + 1)] in absolute value. *)
Definition weight_bound (nodes : list node) (edges : list edge) : Z :=
  2 ^ 53 / (Z.of_nat (length nodes) * Z.of_nat (length edges) + 1).

Definition safe_weights (nodes : list node) (edges : list edge) : Prop :=
  Forall (fun e => Z.abs (weight e) <= weight_bound nodes edges) edges.

(** ** Operations on the priority queue *)

Inductive heap_op : Type :=
| Push (n : string) (p : Z)
| Pop.

Definition apply_op (h : list entry) (op : heap_op) : list entry :=
  match op with
  | Push n p => MinHeap.push h n p
  | Pop =>
    match MinHeap.pop h with
    | Some (_, h') => h'
    | None => h
    end
  end.

(** The queue obtained from the empty one by a sequence of operations. *)
Definition run_ops (ops : list heap_op) : list entry := fold_left apply_op ops [].

(** ** Running the component *)

Definition refusal_message : string :=
  "Please select source node, destination node and make sure graph contains edges.".

(** With Dijkstra selected, no edge weight is negative. *)
Definition dijkstra_safe (st : ui) : Prop :=
  ui_algorithm st = Dijkstra → ∀ e, e ∈ ui_edges st → 0 <= weight e.

(** ** Example inputs *)

(** Example 1 of the specification. *)
Definition ex1_nodes : list node :=
  [mkNode "A" 100 100; mkNode "B" 300 100; mkNode "C" 200 250].

Definition ex1_edges : list edge :=
  [mkEdge "A" "B" 4; mkEdge "A" "C" 1; mkEdge "C" "B" 1].

(** A chain A→B→C. *)
Definition chain_nodes : list node :=
  [mkNode "A" 100 100; mkNode "B" 300 100; mkNode "C" 500 100].

Definition chain_edges : list edge := [mkEdge "A" "B" 1; mkEdge "B" "C" 1].

(** Example 3 of the specification: a cycle of weight -2. *)
Definition ex3_nodes : list node := [mkNode "A" 100 100; mkNode "B" 300 100].

Definition ex3_edges : list edge := [mkEdge "A" "B" 1; mkEdge "B" "A" (-3)].



(** A state in which Dijkstra is selected and an edge is negative. *)
Definition negative_state : ui :=
  mkUi [mkNode "N0" 100 100; mkNode "N1" 300 100] [mkEdge "N0" "N1" (-1)]
       (Some "N0") (Some "N1") Dijkstra false 0 [] Add None None (0, 0)
       false Uni "1" None [].

(** Placing two nodes, N0 at (100,100) and N1 at (300,100). *)
Definition two_nodes_events : list event :=
  [CanvasMouseDown 100 100; CanvasMouseDown 300 100].

(** ... then proposing the edge N0→N1 with weight 5. *)
Definition one_edge_events : list event :=
  two_nodes_events ++
  [ModeButton Connect; CanvasMouseDown 100 100; CanvasMouseDown 300 100;
   WeightInputChange "5"; WeightSubmit].

(** ... or, with Bellman-Ford selected, proposing it with weight 0. *)
Definition zero_weight_events : list event :=
  two_nodes_events ++
  [AlgorithmChange BellmanFord; ModeButton Connect;
   CanvasMouseDown 100 100; CanvasMouseDown 300 100;
   WeightInputChange "0"; WeightSubmit].

(** ... or deleting N0 and placing a new node. *)
Definition delete_then_add_events : list event :=
  two_nodes_events ++
  [ModeButton Delete; CanvasMouseDown 100 100;
   ModeButton Add; CanvasMouseDown 100 100].

(** A potential on the nodes A, B, C: along the edges (C,B,-1), (B,C,1)
    and (A,B,2^53) it goes up by at most the weight, so that no cycle of
    these edges is negative. *)
Definition rounding_potential (v : string) : Z :=
  if bool_decide (v = "A") then 0
  else if bool_decide (v = "B") then 2 ^ 53 else 2 ^ 53 + 1.

(** ** The number model against the floating-point unit

    [float_of z] is the double of an integer [z] below 2^62 in absolute
    value; [float_agrees x w] adds the doubles of [x] and [w] with the
    primitive addition of binary64 numbers and compares the result with
    [double]. *)
Definition float_of (z : Z) : PrimFloat.float :=
  if bool_decide (0 <= z) then PrimFloat.of_uint63 (Uint63.of_Z z)
  else PrimFloat.opp (PrimFloat.of_uint63 (Uint63.of_Z (- z))).

Definition float_agrees (x w : Z) : bool :=
  PrimFloat.eqb (PrimFloat.add (float_of (double x)) (float_of (double w)))
                (float_of (double (double x + double w))).

(** Pairs of integers of every size up to 2^60, from a linear
    congruential generator. *)
Fixpoint float_samples (n : nat) (seed : Z) : list (Z * Z) :=
  match n with
  | O => []
  | S n =>
    let a := (seed * 6364136223846793005 + 1442695040888963407) mod 2 ^ 64 in
    let b := (a * 6364136223846793005 + 1442695040888963407) mod 2 ^ 64 in
    (a / 2 ^ 3 - 2 ^ 60, b / 2 ^ (Z.of_nat (3 + n mod 58)) - 2 ^ 7)
      :: float_samples n b
  end.

(** Sums at the first roundings, ties included. *)
Definition float_corner_cases : list (Z * Z) :=
  [(2 ^ 53, 1); (2 ^ 53, -1); (2 ^ 53, 2); (2 ^ 53, 3); (2 ^ 53 + 2, 1);
   (2 ^ 53 + 2, -1); (- 2 ^ 53, -1); (- 2 ^ 53 - 2, -1); (2 ^ 53 - 1, 1);
   (2 ^ 53 - 1, 2); (2 ^ 54, 1); (2 ^ 54, 2); (2 ^ 54, 3); (2 ^ 54, 6);
   (2 ^ 55 + 8, 2); (2 ^ 55 + 8, -3); (2 ^ 54 - 2, 3); (2 ^ 60, 2 ^ 60);
   (2 ^ 60, - 2 ^ 60 + 1); (2 ^ 53, 2 ^ 53 + 2); (0, 0); (5, -7)].

(** ** Further notions *)

(** Filling the queue with the entries of a list, in order, and
    emptying it: [while (!isEmpty()) out.push(pop())], bounded by
    [fuel] rounds. *)
Definition push_all (l : list entry) (h : list entry) : list entry :=
  fold_left (fun h e => MinHeap.push h (enode e) (priority e)) l h.

Fixpoint pop_all (fuel : nat) (h : list entry) : list entry :=
  match fuel with
  | O => []
  | S fuel' =>
    match MinHeap.pop h with
    | Some (m, h') => m :: pop_all fuel' h'
    | None => []
    end
  end.

(** [a] is not above [b]: both are numbers (or [Infinity]) with
    [a <= b], or both are absent. *)
Definition dist_le (a b : option dist) : Prop :=
  match a, b with
  | Some (Fin x), Some (Fin y) => x <= y
  | Some _, Some Infinity => True
  | None, None => True
  | _, _ => False
  end.

(** The tracer that [runAlgorithm] calls for a selected algorithm. *)
Definition tracer (a : algo) : nat → list node → list edge → string → string
                               → option (list step) :=
  match a with
  | Dijkstra => dijkstra
  | BellmanFord => bellmanFord
  end.

(** The id given to the node placed when [i] nodes exist. *)
Definition node_name (i : nat) : string := "N" +:+ pretty i.

(** The ids are N0, N1, ... in order: no node was ever deleted. *)
Definition ids_in_sequence (nodes : list node) : Prop :=
  ids nodes = map node_name (seq 0 (length nodes)).


(** The steps of a given kind. *)
Definition steps_of (t : step_type) (steps : list step) : list step :=
  filter (fun s => type s = t) steps.

Global Instance event_eq_dec : EqDecision event.
Proof. solve_decision. Defined.



(** The source and the destination, when set, are nodes. *)
Definition endpoints_ok (st : ui) : Prop :=
  (∀ s, ui_sourceNode st = Some s → s ∈ ids (ui_nodes st)) ∧
  (∀ d, ui_destNode st = Some d → d ∈ ids (ui_nodes st)).

(** The edge N0→N1 of weight 5 is authored, N0 and N1 are chosen as
    source and destination, the algorithm is run and Next Step is
    pressed once. *)
Definition play_events : list event :=
  one_edge_events ++
  [ModeButton SelectSource; CanvasMouseDown 100 100;
   ModeButton SelectDest; CanvasMouseDown 300 100; RunAlgorithm; NextStep].

(** No node was deleted so far and delete mode is not selected. *)
Definition numbered (st : ui) : Prop :=
  ui_mode st ≠ Delete ∧ ids_in_sequence (ui_nodes st).

(** A step written for one edge of a pass. *)
Definition edge_kind (s : step) : Prop :=
  type s = update ∨ type s = no_update ∨ type s = skip.

(** The step of pass [i + 1] for the edge [ke.2], of array index [ke.1]. *)
Definition edge_step (i : nat) (ke : nat * edge) (s : step) : Prop :=
  edge_kind s ∧ iteration s = Some (i + 1)%nat ∧ sedge s = Some (snd ke) ∧
  edgeNumber s = Some (fst ke + 1)%nat ∧
  activeEdges s = [edgeKey (from (snd ke)) (to (snd ke))].

(** The steps of pass [i + 1]: an [iteration-start] step, one step for
    each edge in edge order, and an [iteration-end] step whose flag
    tells whether one of them is an [update] step. *)
Definition pass_steps (edges : list edge) (i : nat) (flag : bool) (p : list step) : Prop :=
  ∃ a mids z,
    p = a :: mids ++ [z] ∧
    type a = iteration_start ∧ iteration a = Some (i + 1)%nat ∧
    Forall2 (edge_step i) (indexed edges) mids ∧
    type z = iteration_end ∧ iteration z = Some (i + 1)%nat ∧
    updated z = Some (UFlag flag) ∧
    (flag = true ↔ ∃ s, s ∈ mids ∧ type s = update).

(** * Properties of the priority queue *)

Module HeapFacts.
Import MinHeap.

(** Priority stored at index [i] (0 outside the array). *)
Definition prio (h : list entry) (i : nat) : Z :=
  match h !! i with
  | Some e => priority e
  | None => 0
  end.

(** [i] is a child of [k] in the implicit binary tree. *)
Definition child (k i : nat) : Prop := i = (2 * k + 1)%nat ∨ i = (2 * k + 2)%nat.

(** The heap order: no entry is below its parent. *)
Definition heap_ok (h : list entry) : Prop :=
  ∀ k i, child k i → (i < length h)%nat → prio h k <= prio h i.

Lemma parent_child (i : nat) : (0 < i)%nat → child ((i - 1) / 2) i.
Proof.
  intros Hi. unfold child.
  pose proof (Nat.div_mod_eq (i - 1) 2) as Hd.
  pose proof (Nat.mod_upper_bound (i - 1) 2) as Hm.
  lia.
Qed.

Lemma swap_length h i j : length (swap h i j) = length h.
Proof.
  unfold swap. destruct (h !! i), (h !! j); try done.
  by rewrite !length_insert.
Qed.

Lemma swap_perm h i j : swap h i j ≡ₚ h.
Proof.
  unfold swap. destruct (h !! i) eqn:Hi, (h !! j) eqn:Hj; try done.
  by apply Permutation_insert_swap.
Qed.

Lemma swap_lookup h i j k :
  (i < length h)%nat → (j < length h)%nat →
  swap h i j !! k =
    if decide (k = i) then h !! j else if decide (k = j) then h !! i else h !! k.
Proof.
  intros Hi Hj. unfold swap.
  destruct (lookup_lt_is_Some_2 h i Hi) as [a Ha].
  destruct (lookup_lt_is_Some_2 h j Hj) as [b Hb].
  rewrite Ha, Hb.
  destruct (decide (k = i)) as [->|Hki].
  - rewrite list_lookup_insert_eq; [done|]. by rewrite length_insert.
  - rewrite list_lookup_insert_ne by done.
    destruct (decide (k = j)) as [->|Hkj].
    + by rewrite list_lookup_insert_eq.
    + by rewrite list_lookup_insert_ne.
Qed.

Lemma swap_prio h i j k :
  (i < length h)%nat → (j < length h)%nat →
  prio (swap h i j) k =
    if decide (k = i) then prio h j else if decide (k = j) then prio h i else prio h k.
Proof.
  intros Hi Hj. unfold prio. rewrite swap_lookup by done.
  repeat case_decide; done.
Qed.

Ltac heap_cases :=
  unfold child in *; repeat case_decide; subst;
  repeat match goal with
         | H : _ = _ ∨ _ = _ |- _ => destruct H; subst
         end;
  lia.

(** *** [bubbleUp] *)

(** The order holds everywhere except between [k] and its parent, and
    the parent of [k] is not above the children of [k]. *)
Definition up_ok (h : list entry) (k : nat) : Prop :=
  (∀ j i, child j i → (i < length h)%nat → i ≠ k → prio h j <= prio h i) ∧
  (∀ q i, child q k → child k i → (i < length h)%nat → prio h q <= prio h i).

Lemma bubbleUp_loop_length fuel h k : length (bubbleUp_loop fuel h k) = length h.
Proof.
  revert h k. induction fuel as [|fuel IH]; intros h k; cbn [bubbleUp_loop]; [done|].
  case_bool_decide; [|done].
  destruct (h !! ((k - 1) / 2)%nat), (h !! k); try done.
  case_bool_decide; [done|]. by rewrite IH, swap_length.
Qed.

Lemma bubbleUp_loop_perm fuel h k : bubbleUp_loop fuel h k ≡ₚ h.
Proof.
  revert h k. induction fuel as [|fuel IH]; intros h k; cbn [bubbleUp_loop]; [done|].
  case_bool_decide; [|done].
  destruct (h !! ((k - 1) / 2)%nat), (h !! k); try done.
  case_bool_decide; [done|]. by rewrite IH, swap_perm.
Qed.

Lemma bubbleUp_loop_ok fuel h k :
  (k <= fuel)%nat → (k < length h)%nat → up_ok h k →
  heap_ok (bubbleUp_loop fuel h k).
Proof.
  revert h k. induction fuel as [|fuel IH]; intros h k Hf Hk [Ha Hb]; cbn [bubbleUp_loop].
  { intros j i Hc Hi. apply Ha; [done..|]. destruct Hc; lia. }
  case_bool_decide as Hpos.
  2:{ intros j i Hc Hi. apply Ha; [done..|]. destruct Hc; lia. }
  pose proof (parent_child k Hpos) as Hpc.
  set (p := ((k - 1) / 2)%nat) in *.
  assert (p < k)%nat as Hpk by (destruct Hpc; lia).
  destruct (lookup_lt_is_Some_2 h p ltac:(lia)) as [ep Hep].
  destruct (lookup_lt_is_Some_2 h k Hk) as [ek Hek].
  rewrite Hep, Hek.
  case_bool_decide as Hle.
  - intros j i Hc Hi. destruct (decide (i = k)) as [->|Hne]; [|by apply Ha].
    assert (j = p) as -> by (destruct Hc, Hpc; lia).
    unfold prio. by rewrite Hep, Hek.
  - assert (prio h k < prio h p) as Hlt by (unfold prio; rewrite Hep, Hek; lia).
    apply IH; [lia|rewrite swap_length; lia|].
    split.
    + intros j i Hc Hi Hne. rewrite swap_length in Hi.
      rewrite !swap_prio by lia.
      pose proof (Ha j i Hc Hi) as F1.
      pose proof (Hb p i Hpc) as F2.
      pose proof (Ha p i) as F3.
      heap_cases.
    + intros q i Hq Hc Hi. rewrite swap_length in Hi.
      rewrite !swap_prio by lia.
      pose proof (Ha q p Hq) as F1.
      pose proof (Ha p i Hc Hi) as F2.
      heap_cases.
Qed.

(** More fuel than [index] changes nothing: [bubbleUp] is the loop run
    to its end. *)
Lemma bubbleUp_loop_fuel fuel h k :
  (k <= fuel)%nat → bubbleUp_loop fuel h k = bubbleUp h k.
Proof.
  unfold bubbleUp. revert fuel h.
  induction (lt_wf k) as [k _ IH]; intros fuel h Hf.
  destruct fuel as [|fuel]; [assert (k = 0)%nat as -> by lia; done|].
  destruct k as [|k]; [done|].
  cbn [bubbleUp_loop]. rewrite bool_decide_eq_true_2 by lia.
  set (p := ((S k - 1) / 2)%nat).
  assert (p <= k)%nat as Hp.
  { pose proof (parent_child (S k) ltac:(lia)) as Hc. fold p in Hc. destruct Hc; lia. }
  destruct (h !! p), (h !! S k); try done.
  case_bool_decide; [done|].
  rewrite (IH p) by lia. symmetry. apply IH; lia.
Qed.

Lemma heap_ok_nil : heap_ok [].
Proof. intros k i _ Hi. simpl in Hi. lia. Qed.

Lemma push_length h n p : length (push h n p) = S (length h).
Proof.
  unfold push, bubbleUp. rewrite bubbleUp_loop_length, length_app. simpl. lia.
Qed.

Lemma push_perm h n p : push h n p ≡ₚ mkEntry n p :: h.
Proof.
  unfold push, bubbleUp. rewrite bubbleUp_loop_perm.
  by rewrite Permutation_app_comm.
Qed.

Lemma prio_app_l h l i : (i < length h)%nat → prio (h ++ l) i = prio h i.
Proof. intros Hi. unfold prio. by rewrite lookup_app_l. Qed.

Lemma push_ok h n p : heap_ok h → heap_ok (push h n p).
Proof.
  intros Hh. unfold push, bubbleUp.
  rewrite length_app. simpl.
  replace (length h + 1 - 1)%nat with (length h) by lia.
  apply bubbleUp_loop_ok; [lia|rewrite length_app; simpl; lia|].
  split.
  - intros j i Hc Hi Hne. rewrite length_app in Hi. simpl in Hi.
    assert (j < i)%nat by (destruct Hc; lia).
    rewrite !prio_app_l by lia. apply Hh; [done|lia].
  - intros q i Hq Hc Hi. rewrite length_app in Hi. simpl in Hi.
    destruct Hc; lia.
Qed.

(** *** [bubbleDown] *)

Lemma lower_true h i s :
  lower h i s = true → (i < length h)%nat ∧ prio h i < prio h s.
Proof.
  unfold lower, prio. intros [Hi Hp]%andb_prop.
  apply bool_decide_eq_true in Hi.
  destruct (h !! i), (h !! s); try done.
  by apply bool_decide_eq_true in Hp.
Qed.

Lemma lower_false h i s :
  lower h i s = false → (i < length h)%nat → (s < length h)%nat →
  prio h s <= prio h i.
Proof.
  unfold lower, prio. intros Hl Hi Hs.
  destruct (lookup_lt_is_Some_2 h i Hi) as [a Ha].
  destruct (lookup_lt_is_Some_2 h s Hs) as [b Hb].
  rewrite Ha, Hb in *.
  rewrite bool_decide_eq_true_2 in Hl by done. simpl in Hl.
  apply bool_decide_eq_false in Hl. lia.
Qed.

(** The order holds everywhere except below [k], and the parent of [k]
    is not above the children of [k]. *)
Definition down_ok (h : list entry) (k : nat) : Prop :=
  (∀ j i, child j i → (i < length h)%nat → j ≠ k → prio h j <= prio h i) ∧
  (∀ q i, child q k → child k i → (i < length h)%nat → prio h q <= prio h i).

Lemma bubbleDown_loop_length fuel h k : length (bubbleDown_loop fuel h k) = length h.
Proof.
  revert h k. induction fuel as [|fuel IH]; intros h k; cbn [bubbleDown_loop]; [done|].
  cbv zeta. case_bool_decide; [done|]. by rewrite IH, swap_length.
Qed.

Lemma bubbleDown_loop_perm fuel h k : bubbleDown_loop fuel h k ≡ₚ h.
Proof.
  revert h k. induction fuel as [|fuel IH]; intros h k; cbn [bubbleDown_loop]; [done|].
  cbv zeta. case_bool_decide; [done|]. by rewrite IH, swap_perm.
Qed.

Lemma bubbleDown_loop_ok fuel h k :
  (length h <= fuel + k)%nat → down_ok h k →
  heap_ok (bubbleDown_loop fuel h k).
Proof.
  revert h k. induction fuel as [|fuel IH]; intros h k Hf [Ha Hb];
    cbn [bubbleDown_loop].
  { intros j i Hc Hi. apply Ha; [done..|]. unfold child in Hc. lia. }
  cbv zeta.
  set (L := (2 * k + 1)%nat). set (R := (2 * k + 2)%nat).
  destruct (lower h L k) eqn:HL.
  - apply lower_true in HL as [HLlen HLp].
    destruct (lower h R L) eqn:HR.
    + apply lower_true in HR as [HRlen HRp].
      rewrite bool_decide_eq_false_2 by lia.
      apply IH; [rewrite swap_length; lia|]. split.
      * intros j i Hc Hi Hne. rewrite swap_length in Hi.
        rewrite !swap_prio by lia.
        pose proof (Ha j i Hc Hi) as F1. pose proof (Hb j R) as F2.
        subst L R. heap_cases.
      * intros q i Hq Hc Hi. rewrite swap_length in Hi.
        rewrite !swap_prio by lia.
        pose proof (Ha R i Hc Hi) as F1.
        subst L R. heap_cases.
    + rewrite bool_decide_eq_false_2 by lia.
      pose proof (lower_false h R L HR) as HRp.
      apply IH; [rewrite swap_length; lia|]. split.
      * intros j i Hc Hi Hne. rewrite swap_length in Hi.
        rewrite !swap_prio by lia.
        pose proof (Ha j i Hc Hi) as F1. pose proof (Hb j L) as F2.
        subst L R. heap_cases.
      * intros q i Hq Hc Hi. rewrite swap_length in Hi.
        rewrite !swap_prio by lia.
        pose proof (Ha L i Hc Hi) as F1.
        subst L R. heap_cases.
  - destruct (lower h R k) eqn:HR.
    + apply lower_true in HR as [HRlen HRp].
      rewrite bool_decide_eq_false_2 by lia.
      pose proof (lower_false h L k HL) as HLp.
      apply IH; [rewrite swap_length; lia|]. split.
      * intros j i Hc Hi Hne. rewrite swap_length in Hi.
        rewrite !swap_prio by lia.
        pose proof (Ha j i Hc Hi) as F1. pose proof (Hb j R) as F2.
        subst L R. heap_cases.
      * intros q i Hq Hc Hi. rewrite swap_length in Hi.
        rewrite !swap_prio by lia.
        pose proof (Ha R i Hc Hi) as F1.
        subst L R. heap_cases.
    + rewrite bool_decide_eq_true_2 by done.
      intros j i Hc Hi.
      pose proof (Ha j i Hc Hi) as F1.
      pose proof (lower_false h L k HL) as F2.
      pose proof (lower_false h R k HR) as F3.
      subst L R. destruct (decide (j = k)); heap_cases.
Qed.

(** More fuel than the length of the array changes nothing. *)
Lemma bubbleDown_loop_fuel fuel h k :
  (length h <= fuel + k)%nat → bubbleDown_loop fuel h k = bubbleDown h k.
Proof.
  unfold bubbleDown.
  assert (∀ f1 f2 h k, (length h <= f1 + k)%nat → (length h <= f2 + k)%nat →
            bubbleDown_loop f1 h k = bubbleDown_loop f2 h k) as Hgen.
  { clear. induction f1 as [|f1 IH]; intros f2 h k H1 H2.
    - destruct f2 as [|f2]; [done|]. cbn [bubbleDown_loop]. cbv zeta.
      destruct (lower h (2 * k + 1) k) eqn:HL;
        [apply lower_true in HL; lia|].
      destruct (lower h (2 * k + 2) k) eqn:HR;
        [apply lower_true in HR; lia|].
      by rewrite bool_decide_eq_true_2.
    - destruct f2 as [|f2].
      + cbn [bubbleDown_loop]. cbv zeta.
        destruct (lower h (2 * k + 1) k) eqn:HL;
          [apply lower_true in HL; lia|].
        destruct (lower h (2 * k + 2) k) eqn:HR;
          [apply lower_true in HR; lia|].
        by rewrite bool_decide_eq_true_2.
      + cbn [bubbleDown_loop]. cbv zeta.
        case_bool_decide as Hs; [done|].
        apply IH; rewrite swap_length;
          repeat match goal with
                 | |- context [lower ?a ?b ?c] => destruct (lower a b c)
                 end; lia. }
  intros Hf. apply Hgen; lia.
Qed.

(** *** [pop] *)

Lemma root_minimal h i :
  heap_ok h → (i < length h)%nat → prio h 0 <= prio h i.
Proof.
  intros Hh. induction (lt_wf i) as [i _ IH]; intros Hi.
  destruct (decide (i = 0)%nat) as [->|Hne]; [lia|].
  pose proof (parent_child i ltac:(lia)) as Hc.
  pose proof (Hh _ _ Hc Hi).
  assert ((i - 1) / 2 < i)%nat by (unfold child in Hc; lia).
  pose proof (IH ((i - 1) / 2)%nat ltac:(done) ltac:(lia)). lia.
Qed.

Lemma pop_None h : pop h = None ↔ h = [].
Proof.
  split; [|by intros ->].
  destruct h as [|a [|b h]]; [done..|]. unfold pop.
  destruct (last (a :: b :: h)) eqn:Hl; [done|].
  by apply last_None in Hl.
Qed.

Lemma pop_cons_snoc a r l :
  pop (a :: r ++ [l]) = Some (a, bubbleDown (l :: r) 0).
Proof.
  assert (last (a :: r ++ [l]) = Some l) as Hl
    by (by rewrite app_comm_cons, last_snoc).
  assert (removelast (a :: r ++ [l]) = a :: r) as Hr
    by (by rewrite app_comm_cons, removelast_last).
  destruct r as [|b r]; [done|].
  unfold pop. cbn [app]. cbn [app] in Hl, Hr. by rewrite Hl, Hr.
Qed.

Lemma heap_shape (h : list entry) :
  h = [] ∨ (∃ a, h = [a]) ∨ (∃ a r l, h = a :: r ++ [l]).
Proof.
  destruct h as [|a t]; [by left|]. right.
  destruct (decide (t = [])) as [->|Hne]; [left; by eexists|].
  right. destruct (exists_last Hne) as (r & l & ->). by exists a, r, l.
Qed.

Lemma pop_perm h m h' : pop h = Some (m, h') → h ≡ₚ m :: h'.
Proof.
  destruct (heap_shape h) as [->|[[a ->]|(a & r & l & ->)]]; [done| |].
  { simpl. by intros [= <- <-]. }
  rewrite pop_cons_snoc. intros [= <- <-]. unfold bubbleDown.
  rewrite bubbleDown_loop_perm. by rewrite (Permutation_app_comm r [l]).
Qed.

Lemma pop_Some h m h' :
  heap_ok h → pop h = Some (m, h') →
  h ≡ₚ m :: h' ∧ heap_ok h' ∧ (∀ e, e ∈ h → priority m <= priority e).
Proof.
  intros Hh Hp.
  assert (∀ e, e ∈ h → prio h 0 <= priority e) as Hmin.
  { intros e [i Hi]%list_elem_of_lookup.
    pose proof (root_minimal h i Hh (lookup_lt_Some _ _ _ Hi)) as Hr.
    unfold prio at 2 in Hr. by rewrite Hi in Hr. }
  destruct (heap_shape h) as [->|[[a ->]|(a & r & l & ->)]]; [done| |].
  { simpl in Hp. injection Hp as <- <-. split; [done|]. split; [apply heap_ok_nil|].
    intros e He. by apply Hmin. }
  rewrite pop_cons_snoc in Hp. injection Hp as <- <-.
  unfold bubbleDown. split; [|split].
  - rewrite bubbleDown_loop_perm.
    by rewrite (Permutation_app_comm r [l]).
  - apply bubbleDown_loop_ok; [lia|]. split.
    + intros j i Hc Hi Hne. simpl in Hi.
      assert (prio (l :: r) j = prio (a :: r ++ [l]) j) as ->.
      { unfold prio. destruct j as [|j]; [done|]. simpl.
        rewrite lookup_app_l; [done|]. unfold child in Hc. lia. }
      assert (prio (l :: r) i = prio (a :: r ++ [l]) i) as ->.
      { unfold prio. destruct i as [|i]; [unfold child in Hc; lia|]. simpl.
        rewrite lookup_app_l; [done|]. lia. }
      apply Hh; [done|]. simpl. rewrite length_app. simpl. lia.
    + intros q i Hq. unfold child in Hq. lia.
  - intros e He. by apply Hmin.
Qed.

Lemma pop_length h m h' : pop h = Some (m, h') → length h = S (length h').
Proof.
  destruct (heap_shape h) as [->|[[a ->]|(a & r & l & ->)]]; [done| |].
  { simpl. by intros [= <- <-]. }
  rewrite pop_cons_snoc. intros [= <- <-]. unfold bubbleDown.
  rewrite bubbleDown_loop_length. simpl. rewrite length_app. simpl. lia.
Qed.

Lemma pop_elem_of h m h' e :
  heap_ok h → pop h = Some (m, h') → e ∈ h ↔ e = m ∨ e ∈ h'.
Proof.
  intros Hh Hp. destruct (pop_Some _ _ _ Hh Hp) as (Hperm & _ & _).
  rewrite Hperm. by rewrite elem_of_cons.
Qed.

Lemma push_elem_of h n p e : e ∈ push h n p ↔ e = mkEntry n p ∨ e ∈ h.
Proof. rewrite push_perm. by rewrite elem_of_cons. Qed.

Lemma isEmpty_true h : isEmpty h = true ↔ h = [].
Proof.
  unfold isEmpty. rewrite bool_decide_eq_true. by destruct h.
Qed.

End HeapFacts.

(** * Numbers: when sums are exact *)

Lemma double_exact z : Z.abs z <= 2 ^ 53 → double z = z.
Proof. intros H. unfold double. by rewrite bool_decide_eq_true_2. Qed.

Lemma double_rounds :
  double (2 ^ 53 + 1) = 2 ^ 53 ∧ double (2 ^ 53 + 3) = 2 ^ 53 + 4 ∧
  double (2 ^ 55 + 10) = 2 ^ 55 + 8 ∧ double (2 ^ 55 + 5) = 2 ^ 55 + 8 ∧
  double (- 2 ^ 53 - 1) = - 2 ^ 53.
Proof. by vm_compute. Qed.

(** [double] is the addition of the floating-point unit on the corner
    cases and on two thousand pairs of integers of every size. *)
Lemma double_is_float_addition :
  forallb (fun p => float_agrees (fst p) (snd p))
    (float_corner_cases ++ float_samples 2000 1) = true.
Proof. vm_compute. reflexivity. Qed.

(** Rounding keeps the sign, and commutes with the change of sign. *)
Lemma double_sgn z : Z.sgn (double z) = Z.sgn z.
Proof.
  unfold double. case_bool_decide as Hz; [done|].
  assert (2 ^ 53 <= Z.abs z) as Ha by lia.
  assert (53 <= Z.log2 (Z.abs z)) as Hl by (apply Z.log2_le_pow2; lia).
  pose proof (Z.log2_spec (Z.abs z) ltac:(lia)) as [Hlo _].
  assert (2 ^ (Z.log2 (Z.abs z) - 52) <= 2 ^ Z.log2 (Z.abs z)) as Hle
    by (apply Z.pow_le_mono_r; lia).
  assert (0 < 2 ^ (Z.log2 (Z.abs z) - 52)) as Hp by (apply Z.pow_pos_nonneg; lia).
  revert Hle Hp. generalize (2 ^ (Z.log2 (Z.abs z) - 52)). intros m Hle Hp.
  assert (1 <= Z.abs z / m) as Hq by (apply Z.div_le_lower_bound; lia).
  cbv zeta. revert Hq. generalize (Z.abs z / m). intros q Hq.
  set (q' := if bool_decide (2 * (Z.abs z `mod` m) < m) then q
             else if bool_decide (m < 2 * (Z.abs z `mod` m)) then q + 1
                  else if Z.even q then q else q + 1).
  assert (1 <= q') as Hq'.
  { unfold q'. repeat case_bool_decide; try lia. destruct (Z.even q); lia. }
  clearbody q'.
  rewrite Z.sgn_mul, Z.sgn_mul, (Z.sgn_pos q'), (Z.sgn_pos m) by lia.
  destruct z; simpl; lia.
Qed.

Lemma double_opp z : double (- z) = - double z.
Proof.
  unfold double. rewrite Z.abs_opp, Z.sgn_opp.
  case_bool_decide; [done|]. cbv zeta. lia.
Qed.

Lemma double_neg z : double z < 0 ↔ z < 0.
Proof. pose proof (double_sgn z). lia. Qed.

Lemma double_zero z : double z = 0 ↔ z = 0.
Proof. pose proof (double_sgn z). lia. Qed.

(** Every number of [d] is at most [K] in absolute value. *)
Definition small (K : Z) (d : gmap string dist) : Prop :=
  ∀ v x, d !! v = Some (Fin x) → Z.abs x <= K.

Lemma small_mono K K' d : K <= K' → small K d → small K' d.
Proof. intros HK Hs v x Hx. specialize (Hs v x Hx). lia. Qed.

Lemma small_insert K d t a : small K d → Z.abs a <= K → small K (<[t := Fin a]> d).
Proof.
  intros Hs Ha v x. destruct (decide (v = t)) as [->|Hv].
  - rewrite lookup_insert_eq. by intros [= <-].
  - rewrite lookup_insert_ne by done. apply Hs.
Qed.

(** A sum of a number of [d] and a weight of at most [W] does not
    round when [K + W] is at most 2^53. *)
Lemma small_sum K W d u x w :
  small K d → d !! u = Some (Fin x) → Z.abs w <= W → K + W <= 2 ^ 53 →
  double (x + w) = x + w ∧ Z.abs (x + w) <= K + W.
Proof.
  intros Hs Hx Hw HK. specialize (Hs u x Hx).
  assert (Z.abs (x + w) <= K + W) by lia.
  split; [apply double_exact; lia|done].
Qed.

Lemma weight_bound_nonneg nodes edges : 0 <= weight_bound nodes edges.
Proof. unfold weight_bound. apply Z.div_pos; lia. Qed.

Lemma weight_bound_room nodes edges k :
  0 <= k <= Z.of_nat (length nodes) * Z.of_nat (length edges) + 1 →
  k * weight_bound nodes edges <= 2 ^ 53.
Proof.
  intros Hk. pose proof (weight_bound_nonneg nodes edges) as H0.
  unfold weight_bound in *.
  set (n := Z.of_nat (length nodes) * Z.of_nat (length edges) + 1) in *.
  etrans; [|apply (Z.mul_div_le (2 ^ 53) n); lia]. nia.
Qed.

Lemma safe_weights_le nodes edges e :
  safe_weights nodes edges → e ∈ edges → Z.abs (weight e) <= weight_bound nodes edges.
Proof. intros H He. by apply (proj1 (Forall_forall _ _) H). Qed.

Lemma safe_weights_Forall nodes edges :
  Forall (fun e => Z.abs (weight e) <= weight_bound nodes edges) edges →
  safe_weights nodes edges.
Proof. done. Qed.

(** * Paths *)

Section Paths.
Context (edges : list edge).

Lemma chained_app u es1 es2 v :
  chained u (es1 ++ es2) v ↔ ∃ m, chained u es1 m ∧ chained m es2 v.
Proof.
  revert u. induction es1 as [|e es1 IH]; intros u; simpl.
  - split; [intros H; by exists u|]. by intros (m & -> & H).
  - rewrite IH. split.
    + intros (Hf & m & H1 & H2). exists m. done.
    + intros (m & (Hf & H1) & H2). split; [done|]. by exists m.
Qed.

Lemma total_weight_app es1 es2 :
  total_weight (es1 ++ es2) = total_weight es1 + total_weight es2.
Proof. induction es1 as [|e es1 IH]; simpl; lia. Qed.

Lemma is_path_nil u : is_path edges u [] u.
Proof. split; [constructor|done]. Qed.

Lemma is_path_app u es1 m es2 v :
  is_path edges u es1 m → is_path edges m es2 v → is_path edges u (es1 ++ es2) v.
Proof.
  intros [F1 C1] [F2 C2]. split; [by apply Forall_app|].
  apply chained_app. by exists m.
Qed.

Lemma is_path_app_inv u es1 es2 v :
  is_path edges u (es1 ++ es2) v →
  ∃ m, is_path edges u es1 m ∧ is_path edges m es2 v.
Proof.
  intros [[F1 F2]%Forall_app (m & C1 & C2)%chained_app].
  exists m. by split.
Qed.

Lemma is_path_edge e : e ∈ edges → is_path edges (from e) [e] (to e).
Proof. intros He. split; [by repeat constructor|]. by simpl. Qed.

Lemma is_path_snoc u es e :
  is_path edges u es (from e) → e ∈ edges → is_path edges u (es ++ [e]) (to e).
Proof. intros Hp He. eapply is_path_app; [done|]. by apply is_path_edge. Qed.

Lemma is_path_snoc_inv u es e v :
  is_path edges u (es ++ [e]) v →
  is_path edges u es (from e) ∧ e ∈ edges ∧ to e = v.
Proof.
  intros (m & Hp & [He Hc])%is_path_app_inv.
  simpl in Hc. destruct Hc as [<- ->].
  split; [done|]. split; [|done]. by apply Forall_inv in He.
Qed.

Lemma total_weight_snoc es e :
  total_weight (es ++ [e]) = total_weight es + weight e.
Proof. rewrite total_weight_app. simpl. lia. Qed.

Lemma total_weight_nonneg es :
  (∀ e, e ∈ edges → 0 <= weight e) → Forall (fun e => e ∈ edges) es →
  0 <= total_weight es.
Proof.
  intros Hw. induction 1 as [|e es He _ IH]; simpl; [lia|].
  specialize (Hw e He). lia.
Qed.

End Paths.

(** * The reconstruction loop *)

Section Reconstruction.
Context (previous : gmap string (option string)).

Lemma pchain_fun r l1 l2 :
  pchain previous r l1 → pchain previous r l2 → l1 = l2.
Proof.
  intros H1. revert l2. induction H1 as [|r l Hr _ IH]; intros l2 H2.
  - by inversion H2.
  - inversion H2; subst; [done|]. f_equal. by apply IH.
Qed.

Lemma pchain_suffix r l l1 x l2 :
  pchain previous r l → l = l1 ++ x :: l2 → pchain previous x (x :: l2).
Proof.
  intros H. revert l1. induction H as [|r l Hr H IH]; intros l1 Heq.
  - by destruct l1.
  - destruct l1 as [|y l1]; simpl in Heq.
    + injection Heq as -> ->. by constructor.
    + injection Heq as -> ->. by eapply IH.
Qed.

(** A finished chain never visits a node twice. *)
Lemma pchain_NoDup r l : pchain previous r l → NoDup l.
Proof.
  intros H. induction H as [|r l Hr H IH]; [constructor|].
  constructor; [|done].
  intros [l1 [l2 Heq]]%list_elem_of_split.
  pose proof (pchain_suffix _ _ _ _ _ H Heq) as H'.
  pose proof (pchain_fun _ _ _ (pchain_step _ _ _ Hr H) H') as Hl.
  apply (f_equal length) in Hl. rewrite Heq in Hl.
  simpl in Hl. rewrite length_app in Hl. simpl in Hl. lia.
Qed.

Lemma pchain_not_Null r l x : pchain previous r l → x ∈ l → x ≠ Null.
Proof.
  induction 1 as [|r l Hr H IH]; [by intros ?%elem_of_nil|].
  intros [->|Hx]%elem_of_cons; [done|]. by apply IH.
Qed.

(** The loop returns the chain, reversed, as soon as the fuel covers
    its length. *)
Lemma path_loop_pchain fuel r l acc :
  pchain previous r l → (length l <= fuel)%nat →
  path_loop fuel previous r acc = Some (reverse l ++ acc).
Proof.
  intros H. revert fuel acc.
  induction H as [|r l Hr H IH]; intros fuel acc Hf.
  - by destruct fuel.
  - destruct fuel as [|fuel]; [simpl in Hf; lia|].
    simpl in Hf. simpl. destruct r; [done| |].
    + rewrite IH by lia. by rewrite reverse_cons, <-app_assoc.
    + rewrite IH by lia. by rewrite reverse_cons, <-app_assoc.
Qed.

Lemma path_loop_Some fuel r acc path :
  path_loop fuel previous r acc = Some path →
  ∃ l, pchain previous r l ∧ path = reverse l ++ acc.
Proof.
  revert r acc. induction fuel as [|fuel IH]; intros r acc; simpl.
  - destruct r; [|done..]. intros [= <-]. exists []. split; [constructor|done].
  - destruct r.
    + intros [= <-]. exists []. split; [constructor|done].
    + intros (l & Hl & ->)%IH. exists (Undefined :: l).
      split; [by constructor|]. by rewrite reverse_cons, <-app_assoc.
    + intros (l & Hl & ->)%IH. exists (Id s :: l).
      split; [by constructor|]. by rewrite reverse_cons, <-app_assoc.
Qed.

(** When the predecessor relation is well founded below [v] and stays
    inside a set [K] of keys of [previous], the chain from [v] exists
    and stays inside [K]. *)
Lemma pchain_of_Acc (K : list string) v :
  (∀ k, k ∈ K → is_Some (previous !! k)) →
  (∀ u k, pred_of previous u k → u ∈ K) →
  v ∈ K → Acc (pred_of previous) v →
  ∃ l, pchain previous (Id v) l ∧ ∀ r, r ∈ l → ∃ k, r = Id k ∧ k ∈ K.
Proof.
  intros Hdef Hcl Hv Hacc. induction Hacc as [v _ IH].
  destruct (Hdef v Hv) as [o Ho].
  destruct o as [u|].
  - destruct (IH u Ho (Hcl _ _ Ho)) as (l & Hl & Hin).
    exists (Id v :: l). split.
    + constructor; [done|]. unfold get_previous. simpl. by rewrite Ho.
    + intros r [->|Hr]%elem_of_cons; [by exists v|]. by apply Hin.
  - exists [Id v]. split.
    + constructor; [done|]. unfold get_previous. simpl. rewrite Ho. constructor.
    + intros r [->|Hr]%elem_of_cons; [by exists v|]. by apply elem_of_nil in Hr.
Qed.

(** Hence the loop ends within [length K] rounds. *)
Lemma path_loop_terminates (K : list string) v fuel :
  (∀ k, k ∈ K → is_Some (previous !! k)) →
  (∀ u k, pred_of previous u k → u ∈ K) →
  v ∈ K → Acc (pred_of previous) v →
  (length K <= fuel)%nat →
  ∃ path, path_loop fuel previous (Id v) [] = Some path ∧ NoDup path.
Proof.
  intros Hdef Hcl Hv Hacc Hf.
  destruct (pchain_of_Acc K v Hdef Hcl Hv Hacc) as (l & Hl & Hin).
  pose proof (pchain_NoDup _ _ Hl) as Hnd.
  assert (length l <= length K)%nat as Hlen.
  { rewrite <-(length_fmap Id K). apply submseteq_length.
    apply NoDup_submseteq; [done|].
    intros r (k & -> & Hk)%Hin. by apply list_elem_of_fmap_2. }
  exists (reverse l ++ []). split.
  - apply path_loop_pchain; [done|lia].
  - rewrite app_nil_r. by rewrite reverse_Permutation.
Qed.

End Reconstruction.

(** * The Dijkstra tracer *)

Lemma has_true perm v : has perm v = true ↔ v ∈ perm.
Proof. unfold has. by rewrite bool_decide_eq_true. Qed.

Lemma has_false perm v : has perm v = false ↔ v ∉ perm.
Proof. unfold has. by rewrite bool_decide_eq_false. Qed.

Lemma jslt_true a b :
  jslt a b = true →
  ∃ x, a = Some (Fin x) ∧ (b = Some Infinity ∨ ∃ y, b = Some (Fin y) ∧ x < y).
Proof.
  destruct a as [[x|]|], b as [[y|]|]; simpl; try done.
  - intros H%bool_decide_eq_true. exists x. split; [done|]. right. by exists y.
  - intros _. exists x. split; [done|]. by left.
Qed.

Lemma jslt_false_fin x b :
  jslt (Some (Fin x)) b = false → is_Some b → ∃ y, b = Some (Fin y) ∧ y <= x.
Proof.
  destruct b as [[y|]|]; simpl; try done.
  - intros H%bool_decide_eq_false _. exists y. split; [done|lia].
Qed.

Lemma init_maps_lookup nodes v :
  fst (init_maps nodes) !! v = (if decide (v ∈ ids nodes) then Some Infinity else None) ∧
  snd (init_maps nodes) !! v = (if decide (v ∈ ids nodes) then Some None else None).
Proof.
  unfold init_maps.
  assert (∀ acc : gmap string dist * gmap string (option string),
    let r := fold_left
      (fun acc n => (<[id n := Infinity]> (fst acc), <[id n := None]> (snd acc)))
      nodes acc in
    fst r !! v = (if decide (v ∈ ids nodes) then Some Infinity else fst acc !! v) ∧
    snd r !! v = (if decide (v ∈ ids nodes) then Some None else snd acc !! v)) as H.
  { induction nodes as [|n nodes IH]; intros acc; cbn [fold_left].
    - destruct (decide (v ∈ ids [])) as [Hin|_]; [by apply elem_of_nil in Hin|done].
    - destruct (IH (<[id n := Infinity]> (fst acc), <[id n := None]> (snd acc)))
        as [IH1 IH2].
      cbv zeta in IH1, IH2. rewrite IH1, IH2. cbn [fst snd].
      change (ids (n :: nodes)) with (id n :: ids nodes).
      destruct (decide (v ∈ ids nodes)) as [Hin|Hnin].
      + rewrite !decide_True by (by apply elem_of_cons; right). done.
      + destruct (decide (v = id n)) as [->|Hne].
        * rewrite !decide_True by (by apply elem_of_cons; left).
          by rewrite !lookup_insert_eq.
        * rewrite !decide_False by (by intros [?|?]%elem_of_cons).
          by rewrite !lookup_insert_ne. }
  specialize (H (∅, ∅)). simpl in H. by rewrite !lookup_empty in H.
Qed.

(** A generic rule for [forEach] loops: an invariant indexed by the
    elements already visited. *)
Lemma fold_left_prefix_ind {A B : Type} (f : A → B → A) (P : list B → A → Prop)
      (l : list B) (a : A) :
  P [] a →
  (∀ done x a', x ∈ l → P done a' → P (done ++ [x]) (f a' x)) →
  P l (fold_left f l a).
Proof.
  intros H0 Hs.
  assert (∀ rest done a', (∀ x, x ∈ rest → x ∈ l) → P done a' →
            P (done ++ rest) (fold_left f rest a')) as Hgen.
  { induction rest as [|x rest IH]; intros done a' Hin HP; simpl.
    - by rewrite app_nil_r.
    - rewrite (cons_middle x done rest), app_assoc.
      apply IH; [intros y Hy; apply Hin; by right|].
      apply Hs; [apply Hin; by left|done]. }
  apply (Hgen l [] a); done.
Qed.

Section Dijkstra.
Context (nodes : list node) (edges : list edge) (source dest : string).

(** ** What [relax] does to the state *)

Inductive relax_outcome (current : string) (st : dstate) (t : string) (w : Z)
          (st' : dstate) : Prop :=
| relax_updated a :
    t ∉ d_permanent st →
    jsadd (d_distances st !! current) w = Some (Fin a) →
    jslt (Some (Fin a)) (d_distances st !! t) = true →
    d_distances st' = <[t := Fin a]> (d_distances st) →
    d_previous st' = <[t := Some current]> (d_previous st) →
    d_heap st' = MinHeap.push (d_heap st) t a →
    d_permanent st' = d_permanent st →
    relax_outcome current st t w st'
| relax_unchanged :
    (t ∈ d_permanent st ∨
     jslt (jsadd (d_distances st !! current) w) (d_distances st !! t) = false) →
    d_distances st' = d_distances st →
    d_previous st' = d_previous st →
    d_heap st' = d_heap st →
    d_permanent st' = d_permanent st →
    relax_outcome current st t w st'.

Lemma relax_spec current pA tA st t w :
  relax_outcome current st t w (relax current pA tA st (t, w)).
Proof.
  unfold relax. destruct (has (d_permanent st) t) eqn:Hhas.
  { apply relax_unchanged; [left; by apply has_true|done..]. }
  apply has_false in Hhas.
  destruct (jsadd (d_distances st !! current) w) as [[a|]|] eqn:Halt.
  - destruct (jslt (Some (Fin a)) (d_distances st !! t)) eqn:Hlt.
    + by eapply relax_updated.
    + apply relax_unchanged; [right; by rewrite Halt|done..].
  - apply relax_unchanged; [right; by rewrite Halt|done..].
  - apply relax_unchanged; [right; by rewrite Halt|done..].
Qed.

(** The steps pushed by [relax] carry the [permanentArray] handed to it. *)
Lemma relax_steps current pA tA st n :
  ∃ new, d_steps (relax current pA tA st n) = d_steps st ++ new ∧
         Forall (fun s => permanent s = pA ∧ type s ≠ complete) new.
Proof.
  destruct n as [t w]. unfold relax.
  destruct (has (d_permanent st) t).
  { exists []. by rewrite app_nil_r. }
  destruct (jsadd (d_distances st !! current) w) as [[a|]|].
  - destruct (jslt (Some (Fin a)) (d_distances st !! t)).
    + eexists [_]. split; [done|]. by repeat constructor.
    + eexists [_]. split; [done|]. by repeat constructor.
  - eexists [_]. split; [done|]. by repeat constructor.
  - eexists [_]. split; [done|]. by repeat constructor.
Qed.

Lemma fold_relax_steps current pA tA l st :
  ∃ new, d_steps (fold_left (relax current pA tA) l st) = d_steps st ++ new ∧
         Forall (fun s => permanent s = pA ∧ type s ≠ complete) new.
Proof.
  revert st. induction l as [|n l IH]; intros st; cbn [fold_left].
  { exists []. by rewrite app_nil_r. }
  destruct (IH (relax current pA tA st n)) as (new2 & -> & H2).
  destruct (relax_steps current pA tA st n) as (new1 & -> & H1).
  exists (new1 ++ new2). split; [by rewrite app_assoc|]. by apply Forall_app.
Qed.

Lemma fold_relax_permanent current pA tA l st :
  d_permanent (fold_left (relax current pA tA) l st) = d_permanent st.
Proof.
  revert st. induction l as [|[t w] l IH]; intros st; cbn [fold_left]; [done|].
  rewrite IH. by destruct (relax_spec current pA tA st t w).
Qed.

(** The neighbours handed to [relax] come from edges leaving [current]. *)
Definition neighbors_of (current : string) : list (string * Z) :=
  map (fun e => (to e, weight e)) (filter (fun e => from e = current) edges).

Lemma elem_of_neighbors_of current t w :
  (t, w) ∈ neighbors_of current ↔ mkEdge current t w ∈ edges.
Proof.
  unfold neighbors_of. rewrite list_elem_of_fmap. split.
  - intros ([f t' w'] & [= -> ->] & [Hf He]%list_elem_of_filter).
    simpl in Hf. by subst.
  - intros He. exists (mkEdge current t w). split; [done|].
    apply list_elem_of_filter. by split.
Qed.

(** ** One round of the main loop *)

Inductive round_outcome (st : dstate) (e : entry) (heap' : list entry)
          (st' : dstate) (stop : bool) : Prop :=
| round_stale :
    enode e ∈ d_permanent st →
    stop = false →
    d_distances st' = d_distances st → d_previous st' = d_previous st →
    d_permanent st' = d_permanent st → d_heap st' = heap' →
    d_steps st' = d_steps st →
    round_outcome st e heap' st' stop
| round_extract st1 s :
    enode e ∉ d_permanent st →
    d_distances st1 = d_distances st → d_previous st1 = d_previous st →
    d_permanent st1 = d_permanent st ++ [enode e] → d_heap st1 = heap' →
    d_steps st1 = d_steps st ++ [s] →
    type s = extract →
    permanent s = permanent_entries (d_distances st) (d_permanent st ++ [enode e]) →
    (if stop then enode e = dest ∧ st' = st1
     else enode e ≠ dest ∧
          st' = fold_left
                  (relax (enode e)
                     (permanent_entries (d_distances st) (d_permanent st ++ [enode e]))
                     (getAll heap'))
                  (neighbors_of (enode e)) st1) →
    round_outcome st e heap' st' stop.

Lemma dijkstra_round_spec st e heap' :
  round_outcome st e heap'
    (fst (dijkstra_round edges dest st e heap'))
    (snd (dijkstra_round edges dest st e heap')).
Proof.
  unfold dijkstra_round. destruct (has (d_permanent st) (enode e)) eqn:Hhas.
  { apply has_true in Hhas. by apply round_stale. }
  apply has_false in Hhas.
  case_bool_decide as Hd; simpl.
  - eapply round_extract; [done|..|split; [done|reflexivity]]; done.
  - match goal with
    | |- context [fold_left _ _ ?s1] => eapply (round_extract _ _ _ _ _ s1)
    end; [done|..|split; [done|reflexivity]]; done.
Qed.


(** ** Running the loop *)

(** An invariant [I] kept by every round that does not leave the loop
    yields [Q] on exit, provided [Q] holds when the heap runs empty and
    when a round leaves through [break]. *)
Lemma dijkstra_loop_rule (I Q : dstate → Prop) :
  (∀ st, I st → d_heap st = [] → Q st) →
  (∀ st e heap', I st → MinHeap.pop (d_heap st) = Some (e, heap') →
     let r := dijkstra_round edges dest st e heap' in
     if snd r then Q (fst r) else I (fst r)) →
  ∀ fuel st st', I st → dijkstra_loop fuel edges dest st = Some st' → Q st'.
Proof.
  intros Hexit Hround. induction fuel as [|fuel IH]; intros st st' HI; simpl.
  - destruct (MinHeap.isEmpty (d_heap st)) eqn:He; [|done].
    intros [= <-]. apply Hexit; [done|]. by apply HeapFacts.isEmpty_true.
  - destruct (MinHeap.isEmpty (d_heap st)) eqn:He.
    { intros [= <-]. apply Hexit; [done|]. by apply HeapFacts.isEmpty_true. }
    destruct (MinHeap.pop (d_heap st)) as [[e heap']|] eqn:Hpop; [|done].
    specialize (Hround st e heap' HI Hpop). cbv zeta in Hround.
    destruct (dijkstra_round edges dest st e heap') as [st1 stop].
    simpl in Hround. destruct stop.
    + by intros [= <-].
    + by apply IH.
Qed.

(** *** Termination of the main loop *)

Definition potential (st : dstate) : nat :=
  (length (d_heap st) +
   length (filter (fun e => from e ∉ d_permanent st) edges))%nat.

Lemma fold_relax_heap_length current pA tA l st :
  (length (d_heap (fold_left (relax current pA tA) l st))
   <= length (d_heap st) + length l)%nat.
Proof.
  revert st. induction l as [|[t w] l IH]; intros st; cbn [fold_left length]; [lia|].
  etrans; [apply IH|].
  destruct (relax_spec current pA tA st t w) as [a _ _ _ _ _ -> _|_ _ _ -> _].
  - rewrite HeapFacts.push_length. lia.
  - lia.
Qed.

Lemma filter_permanent_snoc perm c (l : list edge) :
  c ∉ perm →
  (length (filter (fun e => from e ∉ perm ++ [c]) l) +
   length (filter (fun e => from e = c) l)
   = length (filter (fun e => from e ∉ perm) l))%nat.
Proof.
  intros Hc. induction l as [|e l IH]; [done|].
  rewrite !filter_cons.
  destruct (decide (from e = c)) as [Heq|Hne].
  - rewrite decide_False
      by (intros Hn; apply Hn, elem_of_app; right; by apply list_elem_of_singleton).
    rewrite decide_True by (by rewrite Heq). simpl. lia.
  - destruct (decide (from e ∈ perm)) as [Hin|Hnin].
    + rewrite decide_False
        by (intros Hn; apply Hn, elem_of_app; by left).
      rewrite decide_False by (by intros ?). lia.
    + rewrite decide_True
        by (by intros [?|?%list_elem_of_singleton]%elem_of_app).
      rewrite decide_True by done. simpl. lia.
Qed.

Lemma round_potential st e heap' :
  MinHeap.pop (d_heap st) = Some (e, heap') →
  (potential (fst (dijkstra_round edges dest st e heap')) < potential st)%nat.
Proof.
  intros Hpop. apply HeapFacts.pop_length in Hpop.
  destruct (dijkstra_round_spec st e heap')
    as [Hin _ _ _ Hp Hh _|st1 s Hnin _ _ Hp Hh _ _ _ Hst].
  - unfold potential. rewrite Hp, Hh, Hpop. lia.
  - assert (potential st1 + length (neighbors_of (enode e)) < potential st)%nat as H1.
    { unfold potential. rewrite Hp, Hh, Hpop.
      pose proof (filter_permanent_snoc (d_permanent st) (enode e) edges Hnin).
      unfold neighbors_of. rewrite length_map. lia. }
    destruct (snd (dijkstra_round edges dest st e heap')).
    + destruct Hst as [_ ->]. lia.
    + destruct Hst as [_ ->]. unfold potential in *.
      rewrite fold_relax_permanent.
      pose proof (fold_relax_heap_length (enode e)
        (permanent_entries (d_distances st) (d_permanent st ++ [enode e]))
        (getAll heap') (neighbors_of (enode e)) st1). lia.
Qed.

Lemma dijkstra_loop_terminates fuel st :
  (potential st <= fuel)%nat → is_Some (dijkstra_loop fuel edges dest st).
Proof.
  revert st. induction fuel as [|fuel IH]; intros st Hf; simpl.
  - destruct (d_heap st) as [|a h] eqn:Hh; [done|].
    unfold potential in Hf. rewrite Hh in Hf. simpl in Hf. lia.
  - destruct (MinHeap.isEmpty (d_heap st)) eqn:He; [done|].
    destruct (MinHeap.pop (d_heap st)) as [[e heap']|] eqn:Hpop.
    2:{ apply HeapFacts.pop_None in Hpop.
        apply HeapFacts.isEmpty_true in Hpop. congruence. }
    pose proof (round_potential st e heap' Hpop) as Hlt.
    destruct (dijkstra_round edges dest st e heap') as [st1 stop].
    simpl in Hlt. destruct stop; [done|]. apply IH. lia.
Qed.

Lemma potential_init : potential (dijkstra_init nodes source) = S (length edges).
Proof.
  unfold potential, dijkstra_init. destruct (init_maps nodes) as [d0 p0].
  cbn [d_heap d_permanent]. rewrite HeapFacts.push_length. simpl.
  f_equal. clear. induction edges as [|e l IH]; [done|].
  rewrite filter_cons. rewrite decide_True by apply not_elem_of_nil.
  simpl. by rewrite IH.
Qed.


(** ** Invariants that hold for every input *)

Record dijkstra_inv (st : dstate) : Prop := {
  inv_nodup : NoDup (d_permanent st);
  inv_inf_prev : ∀ v,
    d_distances st !! v = Some Infinity → d_previous st !! v = Some None;
  inv_pred_perm : ∀ u v, pred_of (d_previous st) u v → u ∈ d_permanent st;
  inv_acc : ∀ v, Acc (pred_of (d_previous st)) v;
  inv_dom_d : ∀ v, is_Some (d_distances st !! v) → v ∈ source :: ids nodes;
  inv_dom_prev : ∀ v, v ∈ ids nodes → is_Some (d_previous st !! v);
  inv_heap_dom : ∀ e, e ∈ d_heap st → is_Some (d_distances st !! enode e);
  inv_perm_dom : ∀ v, v ∈ d_permanent st → is_Some (d_distances st !! v);
  inv_tight : ∀ u v, pred_of (d_previous st) u v →
    ∃ c x, mkEdge u v c ∈ edges ∧ d_distances st !! u = Some (Fin x) ∧
           d_distances st !! v = Some (Fin (double (x + c)));
  inv_root : ∀ v x,
    d_distances st !! v = Some (Fin x) → d_previous st !! v = Some None → v = source;
  inv_source_zero : d_distances st !! source = Some (Fin 0);
  inv_source_first :
    source ∈ d_permanent st ∨
    (d_permanent st = [] ∧ ∀ e, e ∈ d_heap st → enode e = source)
}.

(** Recording a predecessor for a node that is nobody's predecessor
    keeps the predecessor relation well founded. *)
Lemma acc_insert_fresh (prev : gmap string (option string)) t c :
  (∀ u v, pred_of prev u v → u ≠ t) → c ≠ t →
  (∀ v, Acc (pred_of prev) v) →
  ∀ v, Acc (pred_of (<[t := Some c]> prev)) v.
Proof.
  intros Hfresh Hc Hacc.
  assert (∀ v, v ≠ t → Acc (pred_of (<[t := Some c]> prev)) v) as Hne.
  { intros v. induction (Hacc v) as [v _ IH]. intros Hv.
    constructor. intros u Hu. unfold pred_of in Hu.
    rewrite lookup_insert_ne in Hu by done.
    apply IH; [done|]. by eapply Hfresh. }
  intros v. destruct (decide (v = t)) as [->|Hv]; [|by apply Hne].
  constructor. intros u Hu. unfold pred_of in Hu.
  rewrite lookup_insert_eq in Hu. injection Hu as <-. by apply Hne.
Qed.

Lemma jsadd_fin (a : option dist) w z :
  jsadd a w = Some (Fin z) → ∃ x, a = Some (Fin x) ∧ z = double (x + w).
Proof.
  destruct a as [[x|]|]; simpl; try done. intros [= <-]. by exists x.
Qed.

Lemma inv_relax current pA tA st t w :
  mkEdge current t w ∈ edges → current ∈ d_permanent st → dijkstra_inv st →
  dijkstra_inv (relax current pA tA st (t, w)).
Proof.
  intros He Hcur Hinv.
  destruct (relax_spec current pA tA st t w)
    as [a Ht Halt Hlt Hd Hp Hh Hperm|_ Hd Hp Hh Hperm].
  2:{ destruct Hinv. constructor; rewrite ?Hd, ?Hp, ?Hh, ?Hperm; done. }
  apply jsadd_fin in Halt as (xc & Hxc & ->).
  assert (is_Some (d_distances st !! t)) as Hdef.
  { apply jslt_true in Hlt as (x & _ & [->|(y & -> & _)]); by eexists. }
  assert (current ≠ t) as Hne by (intros ->; done).
  assert (source ∈ d_permanent st) as Hsrc.
  { destruct (inv_source_first st Hinv) as [?|[Hnil _]]; [done|].
    rewrite Hnil in Hcur. by apply elem_of_nil in Hcur. }
  assert (source ≠ t) as Hst by (intros ->; done).
  destruct Hinv. constructor; rewrite ?Hd, ?Hp, ?Hh, ?Hperm.
  - done.
  - intros v. destruct (decide (v = t)) as [->|Hv].
    + by rewrite lookup_insert_eq.
    + rewrite !lookup_insert_ne by done. auto.
  - intros u v. unfold pred_of. destruct (decide (v = t)) as [->|Hv].
    + rewrite lookup_insert_eq. by intros [= <-].
    + rewrite lookup_insert_ne by done. apply inv_pred_perm0.
  - apply acc_insert_fresh; [|done|done].
    intros u v Hu ->. apply Ht. by eapply inv_pred_perm0.
  - intros v. destruct (decide (v = t)) as [->|Hv].
    + intros _. by apply inv_dom_d0.
    + rewrite lookup_insert_ne by done. auto.
  - intros v Hv. destruct (decide (v = t)) as [->|Hvt].
    + by rewrite lookup_insert_eq.
    + rewrite lookup_insert_ne by done. auto.
  - intros e [->|Hin]%HeapFacts.push_elem_of; simpl.
    + by rewrite lookup_insert_eq.
    + destruct (decide (enode e = t)) as [->|Hvt].
      * by rewrite lookup_insert_eq.
      * rewrite lookup_insert_ne by done. auto.
  - intros v Hv. destruct (decide (v = t)) as [->|Hvt]; [done|].
    rewrite lookup_insert_ne by done. auto.
  - intros u v. unfold pred_of. destruct (decide (v = t)) as [->|Hv].
    + rewrite !lookup_insert_eq. intros [= <-].
      rewrite lookup_insert_ne by done. by exists w, xc.
    + rewrite !(lookup_insert_ne _ t v) by done. intros Hu.
      assert (u ≠ t) as Hut by (intros ->; apply Ht; by eapply inv_pred_perm0).
      rewrite lookup_insert_ne by done. by apply inv_tight0.
  - intros v x. destruct (decide (v = t)) as [->|Hv].
    + by rewrite !lookup_insert_eq.
    + rewrite !lookup_insert_ne by done. apply inv_root0.
  - by rewrite lookup_insert_ne.
  - by left.
Qed.

Lemma inv_fold_relax current pA tA st :
  current ∈ d_permanent st → dijkstra_inv st →
  dijkstra_inv (fold_left (relax current pA tA) (neighbors_of current) st).
Proof.
  intros Hc Hinv.
  cut ((fun (_ : list (string * Z)) st' =>
          current ∈ d_permanent st' ∧ dijkstra_inv st')
         (neighbors_of current)
         (fold_left (relax current pA tA) (neighbors_of current) st)).
  { by intros [_ ?]. }
  apply (fold_left_prefix_ind (relax current pA tA)); [done|].
  intros _ [t w] st' Hin [Hc' Hinv'].
  apply elem_of_neighbors_of in Hin. split; [|by apply inv_relax].
  by destruct (relax_spec current pA tA st' t w) as [|]; congruence.
Qed.

(** The state in which a node has just been made permanent. *)
Lemma inv_extract st st1 e heap' :
  dijkstra_inv st → MinHeap.pop (d_heap st) = Some (e, heap') →
  enode e ∉ d_permanent st →
  d_distances st1 = d_distances st → d_previous st1 = d_previous st →
  d_permanent st1 = d_permanent st ++ [enode e] → d_heap st1 = heap' →
  dijkstra_inv st1.
Proof.
  intros Hinv Hpop Hnin Hd Hp Hperm Hh. apply HeapFacts.pop_perm in Hpop.
  assert (∀ x, x ∈ heap' → x ∈ d_heap st) as Hsub
    by (intros x Hx; rewrite Hpop; by right).
  assert (e ∈ d_heap st) as He by (rewrite Hpop; by left).
  destruct Hinv. constructor; rewrite ?Hd, ?Hp, ?Hh, ?Hperm; auto.
  - apply NoDup_app. split; [done|]. split; [|apply NoDup_singleton].
    intros x Hx ->%list_elem_of_singleton. done.
  - intros u v Hu. apply elem_of_app. left. by eapply inv_pred_perm0.
  - intros v [Hv| ->%list_elem_of_singleton]%elem_of_app; auto.
  - left. apply elem_of_app.
    destruct inv_source_first0 as [?|[_ Hall]]; [by left|].
    right. apply list_elem_of_singleton. symmetry. by apply Hall.
Qed.

Lemma inv_round st e heap' :
  dijkstra_inv st → MinHeap.pop (d_heap st) = Some (e, heap') →
  dijkstra_inv (fst (dijkstra_round edges dest st e heap')).
Proof.
  intros Hinv Hpop. apply HeapFacts.pop_perm in Hpop.
  assert (∀ x, x ∈ heap' → x ∈ d_heap st) as Hsub
    by (intros x Hx; rewrite Hpop; by right).
  assert (e ∈ d_heap st) as He by (rewrite Hpop; by left).
  destruct (dijkstra_round_spec st e heap')
    as [Hin _ Hd Hp Hperm Hh _|st1 s Hnin Hd Hp Hperm Hh _ _ _ Hst].
  - destruct Hinv. constructor; rewrite ?Hd, ?Hp, ?Hh, ?Hperm; auto.
    left. destruct inv_source_first0 as [?|[Hnil _]]; [done|].
    rewrite Hnil in Hin. by apply elem_of_nil in Hin.
  - assert (dijkstra_inv st1) as Hinv1.
    { destruct Hinv. constructor; rewrite ?Hd, ?Hp, ?Hh, ?Hperm; auto.
      - apply NoDup_app. split; [done|]. split; [|apply NoDup_singleton].
        intros x Hx ->%list_elem_of_singleton. done.
      - intros u v Hu. apply elem_of_app. left. by eapply inv_pred_perm0.
      - intros v [Hv| ->%list_elem_of_singleton]%elem_of_app; auto.
      - left. apply elem_of_app.
        destruct inv_source_first0 as [?|[_ Hall]]; [by left|].
        right. apply list_elem_of_singleton. symmetry. by apply Hall. }
    destruct (snd (dijkstra_round edges dest st e heap')).
    + by destruct Hst as [_ ->].
    + destruct Hst as [_ ->]. apply inv_fold_relax; [|done].
      rewrite Hperm. apply elem_of_app. right. by apply list_elem_of_singleton.
Qed.

Lemma inv_init : dijkstra_inv (dijkstra_init nodes source).
Proof.
  unfold dijkstra_init.
  pose proof (init_maps_lookup nodes) as Hl.
  destruct (init_maps nodes) as [d0 p0]. cbn [fst snd] in Hl.
  constructor; cbn [d_distances d_previous d_permanent d_heap].
  - constructor.
  - intros v. destruct (decide (v = source)) as [->|Hv].
    + by rewrite lookup_insert_eq.
    + rewrite lookup_insert_ne by done.
      destruct (Hl v) as [H1 H2]. rewrite H1, H2. by case_decide.
  - intros u v Hu. unfold pred_of in Hu.
    destruct (Hl v) as [_ H2]. rewrite H2 in Hu. by case_decide.
  - intros v. constructor. intros u Hu. unfold pred_of in Hu.
    destruct (Hl v) as [_ H2]. rewrite H2 in Hu. by case_decide.
  - intros v. destruct (decide (v = source)) as [->|Hv]; [intros _; by left|].
    rewrite lookup_insert_ne by done. destruct (Hl v) as [H1 _]. rewrite H1.
    case_decide; [intros _; by right|by intros [? ?]].
  - intros v Hv. destruct (Hl v) as [_ H2]. rewrite H2.
    by rewrite decide_True.
  - intros e [->|He]%HeapFacts.push_elem_of; [|by apply elem_of_nil in He].
    simpl. by rewrite lookup_insert_eq.
  - by intros v ?%elem_of_nil.
  - intros u v Hu. unfold pred_of in Hu.
    destruct (Hl v) as [_ H2]. rewrite H2 in Hu. by case_decide.
  - intros v x. destruct (decide (v = source)) as [->|Hv]; [done|].
    rewrite lookup_insert_ne by done. destruct (Hl v) as [-> _]. by case_decide.
  - by rewrite lookup_insert_eq.
  - right. split; [done|].
    intros e [->|He]%HeapFacts.push_elem_of; [done|by apply elem_of_nil in He].
Qed.

Lemma dijkstra_loop_inv fuel st st' :
  dijkstra_inv st → dijkstra_loop fuel edges dest st = Some st' → dijkstra_inv st'.
Proof.
  apply (dijkstra_loop_rule dijkstra_inv dijkstra_inv); [done|].
  intros st0 e heap' Hinv Hpop. cbv zeta.
  pose proof (inv_round st0 e heap' Hinv Hpop).
  by destruct (snd _).
Qed.

(** *** The reconstruction loop ends *)

Lemma dijkstra_path_terminates st fuel :
  dijkstra_inv st → source ∈ ids nodes → dest ∈ ids nodes →
  (length nodes <= fuel)%nat →
  ∃ path, path_loop fuel (d_previous st) (Id dest) [] = Some path ∧ NoDup path.
Proof.
  intros Hinv Hs Hd Hf.
  apply (path_loop_terminates _ (ids nodes)).
  - apply Hinv.
  - intros u k Hu.
    assert (u ∈ source :: ids nodes) as [->|Hin]%elem_of_cons; [|done..].
    apply Hinv, Hinv. by eapply inv_pred_perm.
  - done.
  - apply Hinv.
  - unfold ids. by rewrite length_map.
Qed.

(** ** The trace *)

(** Every recorded permanent set is an initial segment of [E], none of
    the steps is a [complete] step, and the permanent sets grow along
    the trace. *)
Definition trace_ok (steps : list step) (E : list pentry) : Prop :=
  (∀ s, s ∈ steps → permanent s `prefix_of` E ∧ type s ≠ complete) ∧
  (∀ i j s1 s2, (i <= j)%nat → steps !! i = Some s1 → steps !! j = Some s2 →
                permanent s1 `prefix_of` permanent s2).

Lemma trace_ok_app steps E pA E' new :
  trace_ok steps E → E `prefix_of` pA → pA `prefix_of` E' →
  Forall (fun s => permanent s = pA ∧ type s ≠ complete) new →
  trace_ok (steps ++ new) E'.
Proof.
  intros [H1 H2] HE HpA Hnew. rewrite Forall_forall in Hnew. split.
  - intros s [Hs|Hs]%elem_of_app.
    + destruct (H1 s Hs) as [Hp Ht]. split; [|done]. by repeat (etrans; [done|]).
    + destruct (Hnew s Hs) as [-> Ht]. done.
  - intros i j s1 s2 Hij Hi Hj.
    destruct (decide (j < length steps)%nat) as [Hjl|Hjl].
    + rewrite lookup_app_l in Hi by lia. rewrite lookup_app_l in Hj by lia.
      by apply (H2 i j).
    + rewrite lookup_app_r in Hj by lia.
      apply list_elem_of_lookup_2, Hnew in Hj as [-> _].
      destruct (decide (i < length steps)%nat) as [Hil|Hil].
      * rewrite lookup_app_l in Hi by lia.
        apply list_elem_of_lookup_2, H1 in Hi as [Hp _]. by etrans.
      * rewrite lookup_app_r in Hi by lia.
        by apply list_elem_of_lookup_2, Hnew in Hi as [-> _].
Qed.

Lemma permanent_entries_ext (d d' : gmap string dist) perm :
  (∀ v, v ∈ perm → d' !! v = d !! v) →
  permanent_entries d' perm = permanent_entries d perm.
Proof.
  intros H. unfold permanent_entries. apply map_ext_in.
  intros v Hv. rewrite H; [done|]. by apply list_elem_of_In.
Qed.

Lemma fold_relax_distances current pA tA l st v :
  v ∈ d_permanent st →
  d_distances (fold_left (relax current pA tA) l st) !! v = d_distances st !! v.
Proof.
  revert st. induction l as [|[t w] l IH]; intros st Hv; cbn [fold_left]; [done|].
  destruct (relax_spec current pA tA st t w)
    as [a Ht _ _ Hd _ _ Hperm|_ Hd _ _ Hperm].
  - rewrite IH by (by rewrite Hperm). rewrite Hd.
    apply lookup_insert_ne. by intros ->.
  - rewrite IH by (by rewrite Hperm). by rewrite Hd.
Qed.

Definition dijkstra_trace (st : dstate) : Prop :=
  trace_ok (d_steps st) (permanent_entries (d_distances st) (d_permanent st)).

Lemma trace_round st e heap' :
  dijkstra_trace st →
  dijkstra_trace (fst (dijkstra_round edges dest st e heap')).
Proof.
  unfold dijkstra_trace. intros Htr.
  destruct (dijkstra_round_spec st e heap')
    as [Hin _ Hd Hp Hperm Hh Hs|st1 s Hnin Hd Hp Hperm Hh Hs Hty Hps Hst].
  - by rewrite Hs, Hd, Hperm.
  - set (pA := permanent_entries (d_distances st) (d_permanent st ++ [enode e])) in *.
    assert (permanent_entries (d_distances st) (d_permanent st) `prefix_of` pA) as Hpre.
    { unfold pA, permanent_entries. rewrite map_app. by apply prefix_app_r. }
    destruct (snd (dijkstra_round edges dest st e heap')).
    + destruct Hst as [_ ->]. rewrite Hs, Hd, Hperm.
      eapply (trace_ok_app _ _ pA); [done|done|done|].
      repeat constructor; [done|]. by rewrite Hty.
    + destruct Hst as [_ ->].
      destruct (fold_relax_steps (enode e) pA (getAll heap') (neighbors_of (enode e)) st1)
        as (new & -> & Hnew).
      rewrite fold_relax_permanent, Hs, <-app_assoc.
      eapply (trace_ok_app _ _ pA); [done|done| |].
      * rewrite Hperm. unfold pA.
        match goal with
        | |- _ `prefix_of` permanent_entries ?d' ?p =>
            rewrite (permanent_entries_ext (d_distances st) d' p)
        end; [done|].
        intros v Hv. rewrite fold_relax_distances by (by rewrite Hperm).
        by rewrite Hd.
      * constructor; [|done]. split; [done|by rewrite Hty].
Qed.

Lemma trace_init : dijkstra_trace (dijkstra_init nodes source).
Proof.
  unfold dijkstra_trace, dijkstra_init. destruct (init_maps nodes) as [d0 p0].
  cbn [d_steps d_distances d_permanent]. split.
  - intros s ->%list_elem_of_singleton. simpl. split; [apply prefix_nil|done].
  - intros i j s1 s2 _ Hi Hj.
    apply list_elem_of_lookup_2, list_elem_of_singleton in Hi as ->.
    apply list_elem_of_lookup_2, list_elem_of_singleton in Hj as ->. done.
Qed.

Lemma dijkstra_loop_trace fuel st st' :
  dijkstra_trace st → dijkstra_loop fuel edges dest st = Some st' → dijkstra_trace st'.
Proof.
  apply (dijkstra_loop_rule dijkstra_trace dijkstra_trace); [done|].
  intros st0 e heap' Htr _. cbv zeta.
  pose proof (trace_round st0 e heap' Htr).
  by destruct (snd _).
Qed.

End Dijkstra.

(** * Dijkstra: with safe weights no sum rounds *)

Section DijkstraSmall.
Context (nodes : list node) (edges : list edge) (source dest : string).
Hypothesis Hsrc : source ∈ ids nodes.
Hypothesis Hsafe : safe_weights nodes edges.

Local Abbreviation B := (weight_bound nodes edges).

(** The permanent set lies within the nodes. *)
Lemma permanent_le_nodes st :
  dijkstra_inv nodes edges source st →
  (length (d_permanent st) <= length nodes)%nat.
Proof.
  intros Hinv. rewrite <-(length_fmap id nodes).
  apply submseteq_length, NoDup_submseteq; [apply Hinv|].
  intros v Hv.
  assert (v ∈ source :: ids nodes) as [->|?]%elem_of_cons; [|done..].
  by apply (inv_dom_d _ _ _ _ Hinv), (inv_perm_dom _ _ _ _ Hinv).
Qed.

(** A distance is at most one weight per permanent node. *)
Definition d_small (st : dstate) : Prop :=
  small (Z.of_nat (length (d_permanent st)) * B) (d_distances st).

(** Inside [neighbors.forEach]: the distance of the current node
    leaves room for one more weight. *)
Definition mid_small (cur : string) (st : dstate) : Prop :=
  d_small st ∧
  ∀ x, d_distances st !! cur = Some (Fin x) →
       Z.abs x + B <= Z.of_nat (length (d_permanent st)) * B.

Lemma permanent_room st e :
  dijkstra_inv nodes edges source st → e ∈ edges →
  Z.of_nat (length (d_permanent st)) * B + B <= 2 ^ 53.
Proof.
  intros Hinv He. pose proof (permanent_le_nodes st Hinv) as Hle.
  assert (0 < length edges)%nat as Hpos.
  { destruct edges; [by apply elem_of_nil in He|simpl; lia]. }
  pose proof (weight_bound_nonneg nodes edges).
  etrans; [|apply (weight_bound_room nodes edges
                     (Z.of_nat (length (d_permanent st)) + 1))]; nia.
Qed.

Lemma relax_sum_exact cur st t w xc :
  mkEdge cur t w ∈ edges → dijkstra_inv nodes edges source st → mid_small cur st →
  d_distances st !! cur = Some (Fin xc) →
  double (xc + w) = xc + w ∧
  Z.abs (xc + w) <= Z.of_nat (length (d_permanent st)) * B.
Proof.
  intros He Hinv [Hs Hc] Hxc. specialize (Hc xc Hxc).
  pose proof (safe_weights_le _ _ _ Hsafe He) as Hw. simpl in Hw.
  pose proof (permanent_room st _ Hinv He).
  assert (Z.abs (xc + w) <= Z.of_nat (length (d_permanent st)) * B) by lia.
  split; [apply double_exact; lia|done].
Qed.

Lemma small_relax cur pA tA st t w :
  mkEdge cur t w ∈ edges → cur ∈ d_permanent st →
  dijkstra_inv nodes edges source st → mid_small cur st →
  mid_small cur (relax cur pA tA st (t, w)).
Proof.
  intros He Hcur Hinv Hmid.
  destruct (relax_spec cur pA tA st t w)
    as [a Ht Halt Hlt Hd Hp Hh Hperm|_ Hd Hp Hh Hperm].
  2:{ unfold mid_small, d_small. by rewrite Hd, Hperm. }
  apply jsadd_fin in Halt as (xc & Hxc & ->).
  destruct (relax_sum_exact cur st t w xc He Hinv Hmid Hxc) as [Hex Hle].
  assert (cur ≠ t) as Hne by (intros ->; done).
  destruct Hmid as [Hs Hc]. unfold mid_small, d_small. rewrite Hd, Hperm. split.
  - apply small_insert; [done|]. by rewrite Hex.
  - rewrite lookup_insert_ne by done. done.
Qed.

Lemma small_fold_relax cur pA tA st :
  cur ∈ d_permanent st → dijkstra_inv nodes edges source st → mid_small cur st →
  mid_small cur (fold_left (relax cur pA tA) (neighbors_of edges cur) st).
Proof.
  intros Hc Hinv Hmid.
  cut ((fun (_ : list (string * Z)) st' =>
          cur ∈ d_permanent st' ∧ dijkstra_inv nodes edges source st' ∧
          mid_small cur st')
         (neighbors_of edges cur)
         (fold_left (relax cur pA tA) (neighbors_of edges cur) st)).
  { by intros (_ & _ & ?). }
  apply (fold_left_prefix_ind (relax cur pA tA)); [done|].
  intros _ [t w] st' Hin (Hc' & Hinv' & Hmid').
  apply elem_of_neighbors_of in Hin.
  split; [|split; [by apply inv_relax|by apply small_relax]].
  by destruct (relax_spec cur pA tA st' t w) as [|]; congruence.
Qed.

(** The state in which a node has just been made permanent. *)
Lemma small_extract st st1 cur :
  d_distances st1 = d_distances st → d_permanent st1 = d_permanent st ++ [cur] →
  d_small st → mid_small cur st1.
Proof.
  intros Hd Hperm Hs. pose proof (weight_bound_nonneg nodes edges).
  unfold mid_small, d_small. rewrite Hd, Hperm, length_app. simpl. split.
  - eapply small_mono; [|done]. nia.
  - intros x Hx. specialize (Hs cur x Hx). nia.
Qed.

Lemma small_round st e heap' :
  dijkstra_inv nodes edges source st → d_small st →
  MinHeap.pop (d_heap st) = Some (e, heap') →
  d_small (fst (dijkstra_round edges dest st e heap')).
Proof.
  intros Hinv Hs Hpop.
  destruct (dijkstra_round_spec edges dest st e heap')
    as [Hin _ Hd Hp Hperm Hh _|st1 s Hnin Hd Hp Hperm Hh _ _ _ Hst].
  - unfold d_small. by rewrite Hd, Hperm.
  - pose proof (small_extract st st1 (enode e) Hd Hperm Hs) as Hmid.
    pose proof (inv_extract nodes edges source st st1 e heap'
                  Hinv Hpop Hnin Hd Hp Hperm Hh) as Hinv1.
    destruct (snd (dijkstra_round edges dest st e heap')).
    + destruct Hst as [_ ->]. apply Hmid.
    + destruct Hst as [_ ->]. apply small_fold_relax; [|done|done].
      rewrite Hperm. apply elem_of_app. right. by apply list_elem_of_singleton.
Qed.

Lemma small_init : d_small (dijkstra_init nodes source).
Proof.
  unfold d_small, dijkstra_init, small.
  pose proof (init_maps_lookup nodes) as Hl.
  destruct (init_maps nodes) as [d0 p0]. cbn [fst snd] in Hl.
  cbn [d_distances d_permanent]. intros v x.
  destruct (decide (v = source)) as [->|Hv].
  - rewrite lookup_insert_eq. intros [= <-]. simpl. lia.
  - rewrite lookup_insert_ne by done. destruct (Hl v) as [-> _]. by case_decide.
Qed.

Lemma dijkstra_loop_small fuel st' :
  dijkstra_loop fuel edges dest (dijkstra_init nodes source) = Some st' →
  dijkstra_inv nodes edges source st' ∧ d_small st'.
Proof.
  apply (dijkstra_loop_rule edges dest
           (fun st => dijkstra_inv nodes edges source st ∧ d_small st)
           (fun st => dijkstra_inv nodes edges source st ∧ d_small st)).
  - done.
  - intros st e heap' [Hinv Hs] Hpop. cbv zeta.
    pose proof (inv_round nodes edges source dest st e heap' Hinv Hpop).
    pose proof (small_round st e heap' Hinv Hs Hpop).
    by destruct (snd _).
  - split; [apply inv_init|apply small_init].
Qed.

(** With no rounding, the distance of a node is the distance of its
    predecessor plus the weight of an edge between them. *)
Lemma tight_exact st u v :
  dijkstra_inv nodes edges source st → d_small st →
  pred_of (d_previous st) u v →
  ∃ c x, mkEdge u v c ∈ edges ∧ d_distances st !! u = Some (Fin x) ∧
         d_distances st !! v = Some (Fin (x + c)).
Proof.
  intros Hinv Hs Hu.
  destruct (inv_tight _ _ _ _ Hinv u v Hu) as (c & x & He & Hx & Hv).
  exists c, x. split; [done|]. split; [done|]. rewrite Hv. do 2 f_equal.
  pose proof (safe_weights_le _ _ _ Hsafe He) as Hw. simpl in Hw.
  eapply (small_sum _ B); [exact Hs|done|done|]. by eapply permanent_room.
Qed.

End DijkstraSmall.

(** * Dijkstra: the distances of permanent nodes are shortest *)

Section DijkstraOptimal.
Context (nodes : list node) (edges : list edge) (source dest : string).
Hypothesis Hwf : graph_wf nodes edges.
Hypothesis Hsrc : source ∈ ids nodes.
Hypothesis Hnonneg : ∀ e, e ∈ edges → 0 <= weight e.
Hypothesis Hsafe : safe_weights nodes edges.

Record dijkstra_opt (st : dstate) : Prop := {
  opt_heap : HeapFacts.heap_ok (d_heap st);
  opt_path : ∀ v x, d_distances st !! v = Some (Fin x) →
    ∃ es, is_path edges source es v ∧ total_weight es = x;
  opt_perm : ∀ v, v ∈ d_permanent st →
    ∃ x, d_distances st !! v = Some (Fin x) ∧
         ∀ es, is_path edges source es v → x <= total_weight es;
  opt_defined : ∀ v, v ∈ ids nodes → is_Some (d_distances st !! v);
  opt_in_heap : ∀ v x, v ∉ d_permanent st →
    d_distances st !! v = Some (Fin x) → mkEntry v x ∈ d_heap st;
  opt_heap_bound : ∀ e, e ∈ d_heap st →
    ∃ x, d_distances st !! enode e = Some (Fin x) ∧ x <= priority e
}.

(** The edges selected by [P] that leave the permanent set have been
    relaxed. *)
Definition edges_relaxed (st : dstate) (P : edge → Prop) : Prop :=
  ∀ e, e ∈ edges → from e ∈ d_permanent st → to e ∉ d_permanent st → P e →
    ∃ x y, d_distances st !! from e = Some (Fin x) ∧
           d_distances st !! to e = Some (Fin y) ∧ y <= x + weight e.

Definition source_first (st : dstate) : Prop :=
  source ∈ d_permanent st ∨
  (d_permanent st = [] ∧ d_distances st !! source = Some (Fin 0) ∧
   ∀ v x, d_distances st !! v = Some (Fin x) → v = source).

(** Invariant at the head of the loop. *)
Definition opt_head (st : dstate) : Prop :=
  (dijkstra_opt st ∧ edges_relaxed st (fun _ => True) ∧ source_first st) ∧
  dijkstra_inv nodes edges source st ∧ d_small nodes edges st.

(** Invariant inside [neighbors.forEach], after the neighbours [done]. *)
Definition opt_mid (current : string) (done : list (string * Z)) (st : dstate) : Prop :=
  dijkstra_opt st ∧ current ∈ d_permanent st ∧ source ∈ d_permanent st ∧
  edges_relaxed st (fun e => from e ≠ current ∨ (to e, weight e) ∈ done).

(** ... together with what keeps the sums exact. *)
Definition opt_mid_small (current : string) (done : list (string * Z)) (st : dstate)
  : Prop :=
  opt_mid current done st ∧
  dijkstra_inv nodes edges source st ∧ mid_small nodes edges current st.

(** What holds when the loop is left. *)
Definition opt_final (st : dstate) : Prop :=
  (∀ v x, d_distances st !! v = Some (Fin x) →
     ∃ es, is_path edges source es v ∧ total_weight es = x) ∧
  (∀ v, v ∈ d_permanent st →
     ∃ x, d_distances st !! v = Some (Fin x) ∧ shortest_distance edges source v x) ∧
  (∀ v, v ∈ ids nodes → v = dest ∨ d_distances st !! dest = Some Infinity →
        reports_shortest edges source (d_distances st !! v) v).

(** A path that leaves the permanent set passes through a tentative
    node whose distance is at most the weight of the path. *)
Lemma crossing st es v :
  dijkstra_opt st → edges_relaxed st (fun _ => True) → source ∈ d_permanent st →
  is_path edges source es v → v ∉ d_permanent st →
  ∃ y dy, (y ∉ d_permanent st) ∧ d_distances st !! y = Some (Fin dy) ∧
          dy <= total_weight es.
Proof.
  intros Hopt Hrel Hs. revert v.
  induction es as [|e es IH] using rev_ind; intros v Hp Hv.
  - destruct Hp as [_ Hc]. simpl in Hc. by subst.
  - apply is_path_snoc_inv in Hp as (Hp & He & <-).
    rewrite total_weight_snoc. specialize (Hnonneg e He).
    destruct (decide (from e ∈ d_permanent st)) as [Hin|Hnin].
    + destruct (opt_perm st Hopt _ Hin) as (x & Hx & Hmin).
      destruct (Hrel e He Hin Hv I) as (x' & y & Hx' & Hy & Hle).
      rewrite Hx in Hx'. injection Hx' as <-.
      exists (to e), y. split; [done|]. split; [done|].
      specialize (Hmin es Hp). lia.
    + destruct (IH _ Hp Hnin) as (y & dy & Hy & Hdy & Hle).
      exists y, dy. split; [done|]. split; [done|]. lia.
Qed.

Lemma opt_relax current pA tA done st t w :
  mkEdge current t w ∈ edges →
  (∀ xc, d_distances st !! current = Some (Fin xc) → double (xc + w) = xc + w) →
  opt_mid current done st →
  opt_mid current (done ++ [(t, w)]) (relax current pA tA st (t, w)).
Proof.
  intros He Hexact (Hopt & Hcur & Hs & Hrel).
  destruct (opt_perm st Hopt _ Hcur) as (xc & Hxc & _).
  specialize (Hexact xc Hxc).
  destruct (relax_spec current pA tA st t w)
    as [a Ht Halt Hlt Hd Hp Hh Hperm|Hwhy Hd Hp Hh Hperm].
  - rewrite Hxc in Halt. simpl in Halt. rewrite Hexact in Halt.
    injection Halt as <-.
    assert (current ≠ t) as Hne by (by intros ->).
    assert (∃ es, is_path edges source es t ∧ total_weight es = xc + w) as Hpt.
    { destruct (opt_path st Hopt _ _ Hxc) as (es & Hes & Hw).
      exists (es ++ [mkEdge current t w]). split.
      - by apply (is_path_snoc edges source es (mkEdge current t w)).
      - rewrite total_weight_snoc. simpl. lia. }
    split; [|split; [by rewrite Hperm|split; [by rewrite Hperm|]]].
    + destruct Hopt. constructor; rewrite ?Hd, ?Hh, ?Hperm.
      * by apply HeapFacts.push_ok.
      * intros v x. destruct (decide (v = t)) as [->|Hv].
        -- rewrite lookup_insert_eq. by intros [= <-].
        -- rewrite lookup_insert_ne by done. auto.
      * intros v Hv. rewrite lookup_insert_ne by (by intros ->). auto.
      * intros v Hv. destruct (decide (v = t)) as [->|Hvt].
        -- by rewrite lookup_insert_eq.
        -- rewrite lookup_insert_ne by done. auto.
      * intros v x Hv. rewrite HeapFacts.push_elem_of.
        destruct (decide (v = t)) as [->|Hvt].
        -- rewrite lookup_insert_eq. intros [= <-]. by left.
        -- rewrite lookup_insert_ne by done. intros Hx. right. auto.
      * intros e [->|Hin]%HeapFacts.push_elem_of.
        -- simpl. rewrite lookup_insert_eq. exists (xc + w). split; [done|lia].
        -- destruct (opt_heap_bound0 e Hin) as (x & Hx & Hle).
           destruct (decide (enode e = t)) as [Heq|Hvt].
           ++ rewrite Heq in *. rewrite lookup_insert_eq.
              exists (xc + w). split; [done|].
              rewrite Hx in Hlt. simpl in Hlt.
              apply bool_decide_eq_true in Hlt. lia.
           ++ rewrite lookup_insert_ne by done. by exists x.
    + intros e He' Hfrom Hto HP. rewrite Hd, Hperm in *.
      assert (from e ≠ t) as Hft by (intros Heq; by rewrite Heq in Hfrom).
      rewrite lookup_insert_ne by done.
      destruct (decide (to e = t)) as [Heq|Hnt].
      * rewrite Heq in *. rewrite lookup_insert_eq.
        assert (from e ≠ current ∨ (t, weight e) ∈ done ∨
                (from e = current ∧ weight e = w)) as [Hc|[Hc|[Hc Hw]]].
        { destruct HP as [?|[?|Hl%list_elem_of_singleton]%elem_of_app]; [auto..|].
          injection Hl as ?. destruct (decide (from e = current)); auto. }
        -- destruct (Hrel e He' Hfrom ltac:(by rewrite Heq) ltac:(by left))
             as (x & y & Hx & Hy & Hle).
           rewrite Heq in Hy. rewrite Hy in Hlt. simpl in Hlt.
           apply bool_decide_eq_true in Hlt.
           exists x, (xc + w). split; [done|]. split; [done|lia].
        -- destruct (Hrel e He' Hfrom ltac:(by rewrite Heq)
                       ltac:(right; by rewrite Heq))
             as (x & y & Hx & Hy & Hle).
           rewrite Heq in Hy. rewrite Hy in Hlt. simpl in Hlt.
           apply bool_decide_eq_true in Hlt.
           exists x, (xc + w). split; [done|]. split; [done|lia].
        -- rewrite Hc, Hw. exists xc, (xc + w). split; [done|]. split; [done|lia].
      * rewrite lookup_insert_ne by done.
        apply Hrel; [done..|].
        destruct HP as [?|[?|Hl%list_elem_of_singleton]%elem_of_app]; [auto..|].
        injection Hl as ? ?. done.
  - split; [|split; [by rewrite Hperm|split; [by rewrite Hperm|]]].
    + destruct Hopt. constructor; rewrite ?Hd, ?Hh, ?Hperm; done.
    + intros e He' Hfrom Hto HP. rewrite Hd, Hperm in *.
      destruct HP as [Hc|[Hc|Hl%list_elem_of_singleton]%elem_of_app].
      * apply Hrel; auto.
      * apply Hrel; auto.
      * destruct (decide (from e = current)) as [Hfc|Hfc]; [|apply Hrel; auto].
        injection Hl as Hte Hwe. rewrite Hfc, Hte, Hwe in *.
        destruct Hwhy as [Hin|Hlt]; [done|].
        rewrite Hxc in Hlt. simpl in Hlt. rewrite Hexact in Hlt.
        assert (is_Some (d_distances st !! t)) as Hdef.
        { apply (opt_defined st Hopt). by apply (Hwf _ He). }
        destruct (jslt_false_fin _ _ Hlt Hdef) as (y & Hy & Hle).
        exists xc, y. done.
Qed.

Lemma opt_fold_relax current pA tA st :
  opt_mid_small current [] st →
  opt_mid_small current (neighbors_of edges current)
          (fold_left (relax current pA tA) (neighbors_of edges current) st).
Proof.
  intros Hmid.
  apply (fold_left_prefix_ind (relax current pA tA) (opt_mid_small current)); [done|].
  intros done [t w] st' Hin (Hst' & Hinv' & Hsm').
  apply elem_of_neighbors_of in Hin.
  assert (current ∈ d_permanent st') as Hcur by apply Hst'.
  split; [|split; [by apply inv_relax|by apply (small_relax nodes edges source)]].
  apply opt_relax; [done| |done].
  intros xc Hxc.
  by destruct (relax_sum_exact nodes edges source Hsrc Hsafe current st' t w xc).
Qed.

Lemma opt_round st e heap' :
  opt_head st → MinHeap.pop (d_heap st) = Some (e, heap') →
  let r := dijkstra_round edges dest st e heap' in
  if snd r then opt_final (fst r) else opt_head (fst r).
Proof.
  intros ((Hopt & Hrel & Hsf) & Hinv & Hsmall) Hpop. cbv zeta.
  pose proof (inv_round nodes edges source dest st e heap' Hinv Hpop) as Hinv'.
  pose proof (small_round nodes edges source dest Hsrc Hsafe st e heap' Hinv Hsmall Hpop)
    as Hsmall'.
  destruct (HeapFacts.pop_Some _ _ _ (opt_heap st Hopt) Hpop) as (Hperm & Hok' & Hmin).
  assert (∀ x, x ∈ d_heap st ↔ x = e ∨ x ∈ heap') as Hmem
    by (intros x; rewrite Hperm; apply elem_of_cons).
  destruct (dijkstra_round_spec edges dest st e heap')
    as [Hin -> Hd Hp Hpm Hh _|st1 s Hnin Hd Hp Hpm Hh _ _ _ Hst].
  - (* a stale entry *)
    split; [|split; [exact Hinv'|exact Hsmall']]. split; [|split].
    + destruct Hopt. constructor; rewrite ?Hd, ?Hh, ?Hpm; auto.
      * intros v x Hv Hx.
        destruct (proj1 (Hmem _) (opt_in_heap0 v x Hv Hx)) as [Heq|]; [|done].
        subst e. done.
      * intros e' He'. apply opt_heap_bound0, Hmem. by right.
    + intros e' He' Hf Ht HP. rewrite Hd, Hpm in *. by apply Hrel.
    + unfold source_first. by rewrite Hd, Hpm.
  - (* a node becomes permanent *)
    set (cur := enode e) in *.
    destruct (opt_heap_bound st Hopt e ltac:(apply Hmem; by left))
      as (xc & Hxc & Hxe).
    change (enode e) with cur in Hxc.
    assert (∀ es, is_path edges source es cur → xc <= total_weight es) as Hbest.
    { intros es Hes. destruct Hsf as [Hs|(Hnil & Hs0 & Honly)].
      - destruct (crossing st es cur Hopt Hrel Hs Hes Hnin)
          as (y & dy & Hy & Hdy & Hle).
        pose proof (Hmin _ (opt_in_heap st Hopt y dy Hy Hdy)) as Hpr.
        simpl in Hpr. lia.
      - assert (cur = source) as Hcs by (by eapply Honly).
        rewrite Hcs, Hs0 in Hxc. injection Hxc as <-.
        apply (total_weight_nonneg edges); [done|]. apply Hes. }
    assert (source ∈ d_permanent st1) as Hs1.
    { rewrite Hpm. destruct Hsf as [Hs|(Hnil & Hs0 & Honly)].
      - apply elem_of_app. by left.
      - apply elem_of_app. right. apply list_elem_of_singleton.
        symmetry. by eapply Honly. }
    assert (dijkstra_opt st1) as Hopt1.
    { destruct Hopt. constructor; rewrite ?Hd, ?Hh, ?Hpm; auto.
      - intros v [Hv| ->%list_elem_of_singleton]%elem_of_app; [auto|].
        by exists xc.
      - intros v x Hv Hx.
        assert ((v ∉ d_permanent st) ∧ v ≠ cur) as [Hv1 Hv2].
        { split; intros ?; apply Hv, elem_of_app; [by left|].
          right. by apply list_elem_of_singleton. }
        destruct (proj1 (Hmem _) (opt_in_heap0 v x Hv1 Hx)) as [Heq|]; [|done].
        subst e. done.
      - intros e' He'. apply opt_heap_bound0, Hmem. by right. }
    assert (opt_mid cur [] st1) as Hmid.
    { split; [done|]. split; [|split; [done|]].
      - rewrite Hpm. apply elem_of_app. right. by apply list_elem_of_singleton.
      - intros e' He' Hf Ht [HP|HP%elem_of_nil]; [|done].
        rewrite Hd, Hpm in *.
        apply Hrel; [done| | |done].
        + apply elem_of_app in Hf as [?|?%list_elem_of_singleton]; done.
        + intros ?. apply Ht, elem_of_app. by left. }
    destruct (snd (dijkstra_round edges dest st e heap')).
    + destruct Hst as [Hcd ->]. split; [apply Hopt1|]. split.
      * intros v Hv. destruct (opt_perm st1 Hopt1 v Hv) as (x & Hx & Hle).
        exists x. split; [done|]. split; [|done]. by eapply opt_path.
      * assert (dest ∈ d_permanent st1) as Hdp.
        { rewrite Hpm, <-Hcd. apply elem_of_app. right.
          by apply list_elem_of_singleton. }
        destruct (opt_perm st1 Hopt1 dest Hdp) as (x & Hx & Hle).
        intros v _ [->|Hinf]; [|congruence].
        rewrite Hx. simpl. split; [|done]. by eapply opt_path.
    + destruct Hst as [Hcd ->].
      assert (opt_mid_small cur [] st1) as Hmids.
      { split; [done|]. split.
        - by apply (inv_extract nodes edges source st st1 e heap').
        - by apply (small_extract nodes edges st st1 cur). }
      destruct (opt_fold_relax cur
        (permanent_entries (d_distances st) (d_permanent st ++ [cur]))
        (getAll heap') st1 Hmids) as ((Hopt2 & Hc2 & Hs2 & Hrel2) & Hinv2 & Hsm2 & _).
      split; [|split; [exact Hinv2|exact Hsm2]]. split; [done|]. split; [|by left].
      intros e' He' Hf Ht _. apply Hrel2; [done..|].
      destruct (decide (from e' = cur)) as [Heq|]; [|by left].
      right. apply elem_of_neighbors_of. rewrite <-Heq. by destruct e'.
Qed.

Lemma opt_exit st : opt_head st → d_heap st = [] → opt_final st.
Proof.
  intros ((Hopt & Hrel & Hsf) & _ & _) Hempty.
  assert (∀ v x, v ∉ d_permanent st → d_distances st !! v ≠ Some (Fin x)) as Hnone.
  { intros v x Hv Hx. pose proof (opt_in_heap st Hopt v x Hv Hx) as Hin.
    rewrite Hempty in Hin. by apply elem_of_nil in Hin. }
  assert (source ∈ d_permanent st) as Hs.
  { destruct Hsf as [?|(Hnil & Hs0 & _)]; [done|].
    exfalso. eapply (Hnone source 0); [|done]. rewrite Hnil. apply not_elem_of_nil. }
  split; [apply Hopt|]. split.
  - intros v Hv. destruct (opt_perm st Hopt v Hv) as (x & Hx & Hle).
    exists x. split; [done|]. split; [|done]. by eapply opt_path.
  - intros v Hd _. destruct (decide (v ∈ d_permanent st)) as [Hin|Hnin].
    + destruct (opt_perm st Hopt v Hin) as (x & Hx & Hle).
      rewrite Hx. simpl. split; [|done]. by eapply opt_path.
    + destruct (opt_defined st Hopt v Hd) as [[x|] Hx].
      { exfalso. by eapply Hnone. }
      rewrite Hx. simpl. intros es Hes.
      destruct (crossing st es v Hopt Hrel Hs Hes Hnin)
        as (y & dy & Hy & Hdy & _).
      by eapply Hnone.
Qed.

Lemma opt_init : opt_head (dijkstra_init nodes source).
Proof.
  pose proof (inv_init nodes edges source) as Hi.
  pose proof (small_init nodes edges source) as Hsm.
  unfold dijkstra_init in *.
  pose proof (init_maps_lookup nodes) as Hl.
  destruct (init_maps nodes) as [d0 p0]. cbn [fst snd] in Hl.
  assert (∀ v x, <[source := Fin 0]> d0 !! v = Some (Fin x) → v = source ∧ x = 0)
    as Honly.
  { intros v x. destruct (decide (v = source)) as [->|Hv].
    - rewrite lookup_insert_eq. by intros [= <-].
    - rewrite lookup_insert_ne by done. destruct (Hl v) as [-> _]. by case_decide. }
  split; [split; [|split]|].
  - constructor; cbn [d_distances d_permanent d_heap].
    + apply HeapFacts.push_ok, HeapFacts.heap_ok_nil.
    + intros v x [-> ->]%Honly. exists []. split; [apply is_path_nil|done].
    + by intros v ?%elem_of_nil.
    + intros v Hv. destruct (decide (v = source)) as [->|Hvs].
      * by rewrite lookup_insert_eq.
      * rewrite lookup_insert_ne by done. destruct (Hl v) as [-> _].
        by rewrite decide_True.
    + intros v x _ [-> ->]%Honly. apply HeapFacts.push_elem_of. by left.
    + intros e [->|He]%HeapFacts.push_elem_of; [|by apply elem_of_nil in He].
      simpl. rewrite lookup_insert_eq. by exists 0.
  - intros e _ Hf. cbn [d_permanent] in Hf. by apply elem_of_nil in Hf.
  - right. cbn [d_permanent d_distances]. split; [done|].
    split; [by rewrite lookup_insert_eq|]. intros v x Hx. by apply Honly in Hx as [? ?].
  - split; [exact Hi|exact Hsm].
Qed.

Lemma dijkstra_loop_opt fuel st' :
  dijkstra_loop fuel edges dest (dijkstra_init nodes source) = Some st' →
  opt_final st'.
Proof.
  apply (dijkstra_loop_rule edges dest opt_head opt_final).
  - apply opt_exit.
  - apply opt_round.
  - apply opt_init.
Qed.

End DijkstraOptimal.

(** * The Bellman-Ford tracer *)

Lemma elem_of_indexed_1 (edges : list edge) k e :
  (k, e) ∈ indexed edges → e ∈ edges.
Proof. unfold indexed. apply elem_of_zip_r. Qed.

Lemma elem_of_indexed_2 (edges : list edge) e :
  e ∈ edges → ∃ k, (k, e) ∈ indexed edges.
Proof.
  intros He.
  assert ((indexed edges).*2 = edges) as Hs
    by (apply snd_zip; by rewrite length_seq).
  rewrite <-Hs in He. apply list_elem_of_fmap in He as ([k e'] & -> & Hin).
  by exists k.
Qed.

Lemma relaxable_true d e :
  relaxable d e = true →
  ∃ x, d !! from e = Some (Fin x) ∧
       jslt (Some (Fin (double (x + weight e)))) (d !! to e) = true.
Proof.
  unfold relaxable. intros [Hn Hlt]%andb_prop.
  destruct (d !! from e) as [[x|]|]; simpl in *; try done.
  by exists x.
Qed.

Lemma relaxable_false_fin d e x :
  relaxable d e = false → d !! from e = Some (Fin x) →
  jslt (Some (Fin (double (x + weight e)))) (d !! to e) = false.
Proof. unfold relaxable. intros H Hx. rewrite Hx in H. done. Qed.

Lemma negativeCycleEdge_None d edges :
  negativeCycleEdge d edges = None ↔ ∀ e, e ∈ edges → relaxable d e = false.
Proof.
  unfold negativeCycleEdge.
  assert (∀ acc, fold_left (fun found e => if relaxable d e then Some e else found)
                   edges acc = None ↔
                 acc = None ∧ ∀ e, e ∈ edges → relaxable d e = false) as H.
  { induction edges as [|e l IH]; intros acc; cbn [fold_left].
    - split; [intros ->; split; [done|by intros ? ?%elem_of_nil]|by intros [? _]].
    - rewrite IH. split.
      + intros [Hacc Hl]. destruct (relaxable d e) eqn:He; [done|].
        split; [done|]. intros e' [->|?]%elem_of_cons; auto.
      + intros [-> Hl]. rewrite (Hl e) by (by left).
        split; [done|]. intros e' He'. apply Hl. by right. }
  rewrite H. split; [by intros [_ ?]|by split].
Qed.

Lemma negativeCycleEdge_Some d edges e :
  negativeCycleEdge d edges = Some e → e ∈ edges ∧ relaxable d e = true.
Proof.
  unfold negativeCycleEdge.
  assert (∀ acc, fold_left (fun found e => if relaxable d e then Some e else found)
                   edges acc = Some e →
                 acc = Some e ∨ (e ∈ edges ∧ relaxable d e = true)) as H.
  { induction edges as [|e' l IH]; intros acc; cbn [fold_left]; [by left|].
    intros [Hacc|[Hin Hr]]%IH.
    - destruct (relaxable d e') eqn:He; [|by left].
      injection Hacc as ->. right. split; [by left|done].
    - right. split; [by right|done]. }
  intros [?|?]%H; done.
Qed.

Section BellmanFord.
Context (nodes : list node) (edges : list edge) (source dest : string).

(** ** What one edge does to the state *)

Inductive bf_edge_outcome (st : bstate) (e : edge) (st' : bstate) : Prop :=
| bf_updated x :
    b_distances st !! from e = Some (Fin x) →
    jslt (Some (Fin (double (x + weight e)))) (b_distances st !! to e) = true →
    b_distances st' = <[to e := Fin (double (x + weight e))]> (b_distances st) →
    b_previous st' = <[to e := Some (from e)]> (b_previous st) →
    b_updated st' = true →
    bf_edge_outcome st e st'
| bf_unchanged :
    relaxable (b_distances st) e = false →
    b_distances st' = b_distances st →
    b_previous st' = b_previous st →
    b_updated st' = b_updated st →
    bf_edge_outcome st e st'.

Lemma bf_edge_spec i st k e : bf_edge_outcome st e (bf_edge i st (k, e)).
Proof.
  unfold bf_edge.
  destruct (not_Infinity (b_distances st !! from e)) eqn:Hn.
  2:{ apply bf_unchanged; [|done..]. unfold relaxable. by rewrite Hn. }
  destruct (b_distances st !! from e) as [[x|]|] eqn:Hf; [|done|].
  - cbn [jsadd].
    destruct (jslt (Some (Fin (double (x + weight e)))) (b_distances st !! to e)) eqn:Hlt.
    + by eapply (bf_updated _ _ _ x).
    + apply bf_unchanged; [|done..]. unfold relaxable. rewrite Hf. by simpl.
  - cbn [jsadd]. apply bf_unchanged; [|done..]. unfold relaxable. by rewrite Hf.
Qed.

Lemma bf_edge_steps i st ie :
  ∃ s, b_steps (bf_edge i st ie) = b_steps st ++ [s] ∧
       type s ≠ complete ∧ type s ≠ negative_cycle.
Proof.
  destruct ie as [k e]. unfold bf_edge.
  destruct (not_Infinity (b_distances st !! from e)); [|by eexists].
  destruct (jsadd (b_distances st !! from e) (weight e)) as [[a|]|];
    [|by eexists..].
  destruct (jslt _ _); by eexists.
Qed.

Lemma length_indexed : length (indexed edges) = length edges.
Proof. unfold indexed. rewrite length_zip, length_seq. lia. Qed.

(** ** Invariants that hold for every input *)

Record bf_struct (st : bstate) : Prop := {
  s_defined : ∀ v, v ∈ ids nodes → is_Some (b_distances st !! v);
  s_dom_d : ∀ v, is_Some (b_distances st !! v) → v ∈ source :: ids nodes;
  s_dom_prev : ∀ v, v ∈ ids nodes → is_Some (b_previous st !! v);
  s_inf_prev : ∀ v,
    b_distances st !! v = Some Infinity → b_previous st !! v = Some None;
  s_root : ∀ v x,
    b_distances st !! v = Some (Fin x) → b_previous st !! v = Some None → v = source;
  s_types : ∀ s, s ∈ b_steps st → type s ≠ complete ∧ type s ≠ negative_cycle
}.

Lemma bf_struct_edge i st k e : bf_struct st → bf_struct (bf_edge i st (k, e)).
Proof.
  intros Hinv.
  destruct (bf_edge_steps i st (k, e)) as (s & Hs & Hty).
  assert (∀ s', s' ∈ b_steps (bf_edge i st (k, e)) →
                type s' ≠ complete ∧ type s' ≠ negative_cycle) as Htypes.
  { rewrite Hs. intros s' [?| ->%list_elem_of_singleton]%elem_of_app; [|done].
    by apply Hinv. }
  destruct (bf_edge_spec i st k e) as [x Hx Hlt Hd Hp _|_ Hd Hp _].
  2:{ destruct Hinv. constructor; rewrite ?Hd, ?Hp; done. }
  set (t := to e) in *.
  assert (is_Some (b_distances st !! t)) as Hdef.
  { apply jslt_true in Hlt as (? & _ & [->|(y & -> & _)]); by eexists. }
  destruct Hinv. constructor; rewrite ?Hd, ?Hp; [..|done].
  - intros v Hv. destruct (decide (v = t)) as [->|Hvt].
    + by rewrite lookup_insert_eq.
    + rewrite lookup_insert_ne by done. auto.
  - intros v. destruct (decide (v = t)) as [->|Hvt].
    + intros _. auto.
    + rewrite lookup_insert_ne by done. auto.
  - intros v Hv. destruct (decide (v = t)) as [->|Hvt].
    + by rewrite lookup_insert_eq.
    + rewrite lookup_insert_ne by done. auto.
  - intros v. destruct (decide (v = t)) as [->|Hvt].
    + by rewrite lookup_insert_eq.
    + rewrite !lookup_insert_ne by done. auto.
  - intros v z. destruct (decide (v = t)) as [->|Hvt].
    + by rewrite !lookup_insert_eq.
    + rewrite !lookup_insert_ne by done. apply s_root0.
Qed.

Lemma bf_struct_fold i st :
  bf_struct st → bf_struct (fold_left (bf_edge i) (indexed edges) st).
Proof.
  intros Hinv.
  apply (fold_left_prefix_ind (bf_edge i) (fun _ => bf_struct)); [done|].
  intros _ [k e] st' Hin Hst'. by apply bf_struct_edge.
Qed.

Lemma bf_struct_pass i st : bf_struct st → bf_struct (bf_pass edges i st).
Proof.
  intros Hinv. unfold bf_pass.
  match goal with
  | |- context [fold_left _ _ ?s1] =>
      assert (bf_struct s1) as H1
  end.
  { destruct Hinv. constructor; cbn [b_distances b_previous b_steps]; try done.
    intros s [?| ->%list_elem_of_singleton]%elem_of_app; [auto|done]. }
  apply (bf_struct_fold i) in H1.
  destruct H1. constructor; cbn [b_distances b_previous b_steps]; try done.
  intros s [?| ->%list_elem_of_singleton]%elem_of_app; [auto|done].
Qed.

Lemma bf_struct_passes remaining i st :
  bf_struct st → bf_struct (bf_passes remaining edges i st).
Proof.
  revert i st. induction remaining as [|r IH]; intros i st Hinv; cbn [bf_passes]; [done|].
  pose proof (bf_struct_pass i st Hinv).
  destruct (negb _); [done|]. by apply IH.
Qed.

Lemma bf_struct_init : bf_struct (bf_init nodes edges source).
Proof.
  unfold bf_init.
  pose proof (init_maps_lookup nodes) as Hl.
  destruct (init_maps nodes) as [d0 p0]. cbn [fst snd] in Hl.
  assert (∀ v x, <[source := Fin 0]> d0 !! v = Some (Fin x) → v = source ∧ x = 0)
    as Honly.
  { intros v x. destruct (decide (v = source)) as [->|Hv].
    - rewrite lookup_insert_eq. by intros [= <-].
    - rewrite lookup_insert_ne by done. destruct (Hl v) as [-> _]. by case_decide. }
  constructor; cbn [b_distances b_previous b_steps].
  - intros v Hv. destruct (decide (v = source)) as [->|Hvs].
    + by rewrite lookup_insert_eq.
    + rewrite lookup_insert_ne by done. destruct (Hl v) as [-> _].
      by rewrite decide_True.
  - intros v. destruct (decide (v = source)) as [->|Hv]; [intros _; by left|].
    rewrite lookup_insert_ne by done. destruct (Hl v) as [-> _].
    case_decide; [intros _; by right|by intros [? ?]].
  - intros v Hv. destruct (Hl v) as [_ ->]. by rewrite decide_True.
  - intros v. destruct (decide (v = source)) as [->|Hv].
    + by rewrite lookup_insert_eq.
    + rewrite lookup_insert_ne by done.
      destruct (Hl v) as [-> ->]. by case_decide.
  - intros v x Hx _. by apply Honly in Hx as [? ?].
  - intros s [->|[->|?%elem_of_nil]%elem_of_cons]%elem_of_cons; done.
Qed.

(** ** Invariants that hold as long as no sum rounds

    [W] bounds the weights; a state whose numbers are at most [K] with
    [K + W <= 2^53] adds without rounding. *)

Context (W : Z).
Hypothesis HW : ∀ e, e ∈ edges → Z.abs (weight e) <= W.
Hypothesis HW0 : 0 <= W.

Lemma bf_sum_exact K d e x :
  e ∈ edges → small K d → K + W <= 2 ^ 53 → d !! from e = Some (Fin x) →
  double (x + weight e) = x + weight e ∧ Z.abs (x + weight e) <= K + W.
Proof. intros He Hs HK Hx. eapply small_sum; eauto. Qed.

Lemma relaxable_true_exact K d e :
  e ∈ edges → small K d → K + W <= 2 ^ 53 → relaxable d e = true →
  ∃ x, d !! from e = Some (Fin x) ∧
       jslt (Some (Fin (x + weight e))) (d !! to e) = true.
Proof.
  intros He Hs HK (x & Hx & Hlt)%relaxable_true.
  destruct (bf_sum_exact K d e x He Hs HK Hx) as [Hex _].
  rewrite Hex in Hlt. by exists x.
Qed.

Lemma relaxable_false_exact K d e x :
  e ∈ edges → small K d → K + W <= 2 ^ 53 →
  relaxable d e = false → d !! from e = Some (Fin x) →
  jslt (Some (Fin (x + weight e))) (d !! to e) = false.
Proof.
  intros He Hs HK Hr Hx.
  destruct (bf_sum_exact K d e x He Hs HK Hx) as [Hex _].
  rewrite <-Hex. by apply relaxable_false_fin.
Qed.

(** The outcome of an edge, read without rounding. *)
Inductive bf_exact_outcome (st : bstate) (e : edge) (st' : bstate) : Prop :=
| bf_exact_updated x :
    b_distances st !! from e = Some (Fin x) →
    jslt (Some (Fin (x + weight e))) (b_distances st !! to e) = true →
    b_distances st' = <[to e := Fin (x + weight e)]> (b_distances st) →
    b_previous st' = <[to e := Some (from e)]> (b_previous st) →
    b_updated st' = true →
    bf_exact_outcome st e st'
| bf_exact_unchanged :
    (∀ x, b_distances st !! from e = Some (Fin x) →
          jslt (Some (Fin (x + weight e))) (b_distances st !! to e) = false) →
    relaxable (b_distances st) e = false →
    b_distances st' = b_distances st →
    b_previous st' = b_previous st →
    b_updated st' = b_updated st →
    bf_exact_outcome st e st'.

Lemma bf_edge_exact K i st k e :
  e ∈ edges → small K (b_distances st) → K + W <= 2 ^ 53 →
  bf_exact_outcome st e (bf_edge i st (k, e)) ∧
  small (K + W) (b_distances (bf_edge i st (k, e))).
Proof.
  intros He Hs HK.
  destruct (bf_edge_spec i st k e) as [x Hx Hlt Hd Hp Hu|Hr Hd Hp Hu].
  - destruct (bf_sum_exact K _ e x He Hs HK Hx) as [Hex Hle].
    rewrite Hex in Hlt, Hd. split; [by eapply bf_exact_updated|].
    rewrite Hd. apply small_insert; [|done]. eapply small_mono; [|done]. lia.
  - split.
    + apply bf_exact_unchanged; try done.
      intros x Hx. by eapply relaxable_false_exact.
    + rewrite Hd. eapply small_mono; [|done]. lia.
Qed.

Record bf_inv (st : bstate) : Prop := {
  bf_path : ∀ v x, b_distances st !! v = Some (Fin x) →
    ∃ es, is_path edges source es v ∧ total_weight es = x;
  bf_source : ∃ x, b_distances st !! source = Some (Fin x) ∧ x <= 0;
  bf_defined : ∀ v, v ∈ ids nodes → is_Some (b_distances st !! v);
  bf_dom_d : ∀ v, is_Some (b_distances st !! v) → v ∈ source :: ids nodes;
  bf_dom_prev : ∀ v, v ∈ ids nodes → is_Some (b_previous st !! v);
  bf_inf_prev : ∀ v,
    b_distances st !! v = Some Infinity → b_previous st !! v = Some None;
  bf_pred : ∀ u v, pred_of (b_previous st) u v →
    ∃ c x y, mkEdge u v c ∈ edges ∧ b_distances st !! u = Some (Fin x) ∧
             b_distances st !! v = Some (Fin y) ∧ x + c <= y;
  bf_root : ∀ v x,
    b_distances st !! v = Some (Fin x) → b_previous st !! v = Some None → v = source;
  bf_types : ∀ s, s ∈ b_steps st → type s ≠ complete ∧ type s ≠ negative_cycle
}.

(** The invariant, in a state whose numbers are at most [K]. *)
Definition bf_inv_at (K : Z) (st : bstate) : Prop :=
  bf_inv st ∧ small K (b_distances st).

Lemma bf_inv_at_mono K K' st : K <= K' → bf_inv_at K st → bf_inv_at K' st.
Proof. intros HK [? ?]. split; [done|]. by eapply small_mono. Qed.

Lemma bf_inv_edge K i st k e :
  e ∈ edges → K + W <= 2 ^ 53 → bf_inv_at K st →
  bf_inv_at (K + W) (bf_edge i st (k, e)).
Proof.
  intros He HK [Hinv Hsmall].
  destruct (bf_edge_exact K i st k e He Hsmall HK) as [Hout Hsmall'].
  split; [|done].
  destruct (bf_edge_steps i st (k, e)) as (s & Hs & Hty).
  assert (∀ s', s' ∈ b_steps (bf_edge i st (k, e)) →
                type s' ≠ complete ∧ type s' ≠ negative_cycle) as Htypes.
  { rewrite Hs. intros s' [?| ->%list_elem_of_singleton]%elem_of_app; [|done].
    by apply Hinv. }
  destruct Hout as [x Hx Hlt Hd Hp _|_ _ Hd Hp _].
  2:{ destruct Hinv. constructor; rewrite ?Hd, ?Hp; done. }
  set (t := to e) in *. set (a := x + weight e) in *.
  assert (is_Some (b_distances st !! t)) as Hdef.
  { apply jslt_true in Hlt as (? & _ & [->|(y & -> & _)]); by eexists. }
  assert (∀ y, b_distances st !! t = Some (Fin y) → a < y) as Hless.
  { intros y Hy. rewrite Hy in Hlt. simpl in Hlt. by apply bool_decide_eq_true in Hlt. }
  destruct Hinv. constructor; rewrite ?Hd, ?Hp; [..|done].
  - intros v z. destruct (decide (v = t)) as [->|Hv].
    + rewrite lookup_insert_eq. intros [= <-].
      destruct (bf_path0 _ _ Hx) as (es & Hes & Hw).
      exists (es ++ [e]). split; [by apply is_path_snoc|].
      rewrite total_weight_snoc. unfold a. lia.
    + rewrite lookup_insert_ne by done. auto.
  - destruct bf_source0 as (z & Hz & Hle).
    destruct (decide (source = t)) as [Heq|Hne].
    + rewrite Heq in *. rewrite lookup_insert_eq. exists a. split; [done|].
      specialize (Hless _ Hz). lia.
    + rewrite lookup_insert_ne by done. by exists z.
  - intros v Hv. destruct (decide (v = t)) as [->|Hvt].
    + by rewrite lookup_insert_eq.
    + rewrite lookup_insert_ne by done. auto.
  - intros v. destruct (decide (v = t)) as [->|Hvt].
    + intros _. auto.
    + rewrite lookup_insert_ne by done. auto.
  - intros v Hv. destruct (decide (v = t)) as [->|Hvt].
    + by rewrite lookup_insert_eq.
    + rewrite lookup_insert_ne by done. auto.
  - intros v. destruct (decide (v = t)) as [->|Hvt].
    + by rewrite lookup_insert_eq.
    + rewrite !lookup_insert_ne by done. auto.
  - intros u v. unfold pred_of. destruct (decide (v = t)) as [->|Hvt].
    + rewrite !lookup_insert_eq. intros [= <-].
      exists (weight e). destruct (decide (from e = t)) as [Heq|Hne].
      * rewrite Heq in *. rewrite lookup_insert_eq.
        exists a, a. split; [fold t in Heq; rewrite <-Heq at 1; by destruct e|].
        split; [done|]. split; [done|]. specialize (Hless _ Hx). unfold a in *. lia.
      * rewrite lookup_insert_ne by done. exists x, a.
        split; [by destruct e|]. split; [done|]. split; [done|]. unfold a. lia.
    + rewrite !(lookup_insert_ne _ t v) by done. intros Hu.
      destruct (bf_pred0 u v Hu) as (c & xu & yv & Hc & Hxu & Hyv & Hle).
      exists c. destruct (decide (u = t)) as [->|Hut].
      * rewrite lookup_insert_eq. exists a, yv.
        split; [done|]. split; [done|]. split; [done|].
        specialize (Hless _ Hxu). lia.
      * rewrite lookup_insert_ne by done. by exists xu, yv.
  - intros v z. destruct (decide (v = t)) as [->|Hvt].
    + by rewrite !lookup_insert_eq.
    + rewrite !lookup_insert_ne by done. apply bf_root0.
Qed.

(** A fold over the edges, with an invariant indexed by the bound that
    the numbers have reached. *)
Lemma bf_fold_at (P : Z → bstate → Prop) K i st :
  (∀ K' k e st', e ∈ edges → K' + W <= 2 ^ 53 → small K' (b_distances st') →
                 P K' st' → P (K' + W) (bf_edge i st' (k, e))) →
  K + Z.of_nat (length edges) * W <= 2 ^ 53 →
  small K (b_distances st) → P K st →
  P (K + Z.of_nat (length edges) * W) (fold_left (bf_edge i) (indexed edges) st) ∧
  small (K + Z.of_nat (length edges) * W)
        (b_distances (fold_left (bf_edge i) (indexed edges) st)).
Proof.
  intros Hstep HK Hs HP.
  cut ((fun done st' =>
          (length done <= length edges)%nat →
          P (K + Z.of_nat (length done) * W) st' ∧
          small (K + Z.of_nat (length done) * W) (b_distances st'))
         (indexed edges) (fold_left (bf_edge i) (indexed edges) st)).
  { intros H. cbv beta in H. rewrite length_indexed in H. by apply H. }
  apply (fold_left_prefix_ind (bf_edge i)).
  - intros _. simpl. by rewrite Z.add_0_r.
  - intros done [k e] st' Hin IH Hlen.
    rewrite length_app in Hlen. simpl in Hlen.
    destruct (IH ltac:(lia)) as [HP' Hs'].
    apply elem_of_indexed_1 in Hin.
    assert (K + Z.of_nat (length done) * W + W <= 2 ^ 53) as Hroom by nia.
    replace (K + Z.of_nat (length (done ++ [(k, e)])) * W)
      with (K + Z.of_nat (length done) * W + W)
      by (rewrite length_app; simpl; lia).
    split; [by apply Hstep|].
    by apply (bf_edge_exact _ i st' k e).
Qed.

Lemma bf_inv_fold K i st :
  K + Z.of_nat (length edges) * W <= 2 ^ 53 → bf_inv_at K st →
  bf_inv_at (K + Z.of_nat (length edges) * W)
            (fold_left (bf_edge i) (indexed edges) st).
Proof.
  intros HK [Hinv Hs].
  destruct (bf_fold_at (fun _ => bf_inv) K i st) as [H1 H2];
    [|exact HK|exact Hs|exact Hinv|by split].
  intros K' k e st' He HK' Hs' Hinv'.
  apply (bf_inv_edge K' i st' k e He HK'). by split.
Qed.

Lemma bf_inv_pass K i st :
  K + Z.of_nat (length edges) * W <= 2 ^ 53 → bf_inv_at K st →
  bf_inv_at (K + Z.of_nat (length edges) * W) (bf_pass edges i st).
Proof.
  intros HK [Hinv Hs]. unfold bf_pass.
  match goal with
  | |- context [fold_left _ _ ?s1] =>
      assert (bf_inv_at K s1) as H1
  end.
  { split; [|done].
    destruct Hinv. constructor; cbn [b_distances b_previous b_steps]; try done.
    intros s [?| ->%list_elem_of_singleton]%elem_of_app; [auto|done]. }
  apply (bf_inv_fold K i) in H1; [|done].
  destruct H1 as [H1 H2]. split; [|done].
  destruct H1. constructor; cbn [b_distances b_previous b_steps]; try done.
  intros s [?| ->%list_elem_of_singleton]%elem_of_app; [auto|done].
Qed.

Lemma bf_inv_passes K remaining i st :
  K + Z.of_nat remaining * (Z.of_nat (length edges) * W) <= 2 ^ 53 →
  bf_inv_at K st →
  bf_inv_at (K + Z.of_nat remaining * (Z.of_nat (length edges) * W))
            (bf_passes remaining edges i st).
Proof.
  revert K i st. induction remaining as [|r IH]; intros K i st HK Hinv;
    cbn [bf_passes].
  { eapply bf_inv_at_mono; [|done]. lia. }
  assert (0 <= Z.of_nat (length edges) * W) as Hpos by nia.
  pose proof (bf_inv_pass K i st ltac:(nia) Hinv) as Hpass.
  destruct (negb _).
  - eapply bf_inv_at_mono; [|done]. nia.
  - eapply bf_inv_at_mono; [|apply IH; [|done]]; nia.
Qed.

Lemma bf_inv_init : bf_inv_at 0 (bf_init nodes edges source).
Proof.
  unfold bf_init.
  pose proof (init_maps_lookup nodes) as Hl.
  destruct (init_maps nodes) as [d0 p0]. cbn [fst snd] in Hl.
  assert (∀ v x, <[source := Fin 0]> d0 !! v = Some (Fin x) → v = source ∧ x = 0)
    as Honly.
  { intros v x. destruct (decide (v = source)) as [->|Hv].
    - rewrite lookup_insert_eq. by intros [= <-].
    - rewrite lookup_insert_ne by done. destruct (Hl v) as [-> _]. by case_decide. }
  split.
  2:{ intros v x [_ ->]%Honly. simpl. lia. }
  constructor; cbn [b_distances b_previous b_steps].
  - intros v x [-> ->]%Honly. exists []. split; [apply is_path_nil|done].
  - exists 0. by rewrite lookup_insert_eq.
  - intros v Hv. destruct (decide (v = source)) as [->|Hvs].
    + by rewrite lookup_insert_eq.
    + rewrite lookup_insert_ne by done. destruct (Hl v) as [-> _].
      by rewrite decide_True.
  - intros v. destruct (decide (v = source)) as [->|Hv]; [intros _; by left|].
    rewrite lookup_insert_ne by done. destruct (Hl v) as [-> _].
    case_decide; [intros _; by right|by intros [? ?]].
  - intros v Hv. destruct (Hl v) as [_ ->]. by rewrite decide_True.
  - intros v. destruct (decide (v = source)) as [->|Hv].
    + by rewrite lookup_insert_eq.
    + rewrite lookup_insert_ne by done.
      destruct (Hl v) as [-> ->]. by case_decide.
  - intros u v Hu. unfold pred_of in Hu.
    destruct (Hl v) as [_ H2]. rewrite H2 in Hu. by case_decide.
  - intros v x Hx _. by apply Honly in Hx as [? ?].
  - intros s [->|[->|?%elem_of_nil]%elem_of_cons]%elem_of_cons; done.
Qed.

(** ** Distances only go down, and a pass relaxes every edge *)

(** [d[v]] is a number, at most [w]. *)
Definition bound (d : gmap string dist) (v : string) (w : Z) : Prop :=
  ∃ x, d !! v = Some (Fin x) ∧ x <= w.

Lemma bf_edge_bound st e st' v w :
  bf_exact_outcome st e st' →
  bound (b_distances st) v w → bound (b_distances st') v w.
Proof.
  unfold bound.
  intros [x Hx Hlt Hd _ _|_ _ Hd _ _] (y & Hy & Hle); rewrite Hd; [|by exists y].
  destruct (decide (v = to e)) as [->|Hv].
  - rewrite lookup_insert_eq. eexists. split; [done|].
    rewrite Hy in Hlt. simpl in Hlt. apply bool_decide_eq_true in Hlt. lia.
  - rewrite lookup_insert_ne by done. by exists y.
Qed.

Lemma bf_edge_relaxes st e st' w :
  bf_exact_outcome st e st' → is_Some (b_distances st !! to e) →
  bound (b_distances st) (from e) w →
  bound (b_distances st') (to e) (w + weight e).
Proof.
  unfold bound.
  intros [x Hx Hlt Hd _ _|Hr _ Hd _ _] Hdef (y & Hy & Hle); rewrite Hd.
  - rewrite lookup_insert_eq. eexists. split; [done|].
    rewrite Hx in Hy. injection Hy as ->. lia.
  - pose proof (Hr _ Hy) as Hlt.
    destruct (jslt_false_fin _ _ Hlt Hdef) as (z & Hz & Hzle).
    exists z. split; [done|lia].
Qed.

Lemma bf_edge_is_Some st e st' v :
  bf_edge_outcome st e st' →
  is_Some (b_distances st !! v) → is_Some (b_distances st' !! v).
Proof.
  intros [x Hx Hlt Hd _ _|_ Hd _ _] Hv; rewrite Hd; [|done].
  destruct (decide (v = to e)) as [->|Hne].
  - by rewrite lookup_insert_eq.
  - by rewrite lookup_insert_ne.
Qed.

Lemma bf_fold_relaxes K i st :
  K + Z.of_nat (length edges) * W <= 2 ^ 53 → small K (b_distances st) →
  let st' := fold_left (bf_edge i) (indexed edges) st in
  (∀ v, is_Some (b_distances st !! v) → is_Some (b_distances st' !! v)) ∧
  (∀ v w, bound (b_distances st) v w → bound (b_distances st') v w) ∧
  (∀ e w, e ∈ edges → is_Some (b_distances st !! to e) →
          bound (b_distances st) (from e) w →
          bound (b_distances st') (to e) (w + weight e)).
Proof.
  intros HK Hsmall. cbv zeta.
  cut ((fun done st' =>
       (length done <= length edges)%nat →
       small (K + Z.of_nat (length done) * W) (b_distances st') ∧
       (∀ v, is_Some (b_distances st !! v) → is_Some (b_distances st' !! v)) ∧
       (∀ v w, bound (b_distances st) v w → bound (b_distances st') v w) ∧
       (∀ e w, e ∈ done.*2 → is_Some (b_distances st !! to e) →
               bound (b_distances st) (from e) w →
               bound (b_distances st') (to e) (w + weight e)))
         (indexed edges) (fold_left (bf_edge i) (indexed edges) st)).
  { intros H. cbv beta in H. rewrite length_indexed in H.
    destruct (H ltac:(lia)) as (_ & H1 & H2 & H3). split; [done|]. split; [done|].
    intros e w He. apply H3.
    destruct (elem_of_indexed_2 edges e He) as (k & Hk).
    apply list_elem_of_fmap. by exists (k, e). }
  apply (fold_left_prefix_ind (bf_edge i)).
  - intros _. split; [simpl; by rewrite Z.add_0_r|].
    split; [done|]. split; [done|]. by intros e w ?%elem_of_nil.
  - intros done [k e] st' Hin IH Hlen.
    rewrite length_app in Hlen. simpl in Hlen.
    destruct (IH ltac:(lia)) as (Hs' & Hsome & Hmono & Hrel).
    assert (K + Z.of_nat (length done) * W + W <= 2 ^ 53) as Hroom by nia.
    pose proof (elem_of_indexed_1 _ _ _ Hin) as He.
    destruct (bf_edge_exact _ i st' k e He Hs' Hroom) as [Hout Hs''].
    split; [|split; [|split]].
    + replace (K + Z.of_nat (length (done ++ [(k, e)])) * W)
        with (K + Z.of_nat (length done) * W + W)
        by (rewrite length_app; simpl; lia).
      done.
    + intros v Hv. eapply bf_edge_is_Some; [apply bf_edge_spec|]. auto.
    + intros v w Hb. eapply bf_edge_bound; [done|]. auto.
    + intros e' w. rewrite fmap_app.
      intros [He'|He'%list_elem_of_singleton]%elem_of_app Hdef Hb.
      * eapply bf_edge_bound; [done|]. auto.
      * simpl in He'. subst e'. eapply bf_edge_relaxes; [done|auto|auto].
Qed.

(** A pass that reports no update leaves no edge to relax. *)
Lemma bf_fold_no_update i st :
  b_updated st = false →
  let st' := fold_left (bf_edge i) (indexed edges) st in
  b_updated st' = false →
  b_distances st' = b_distances st ∧ b_previous st' = b_previous st ∧
  ∀ e, e ∈ edges → relaxable (b_distances st) e = false.
Proof.
  intros Hu0. cbv zeta.
  cut ((fun done st' =>
       b_updated st' = false →
       b_distances st' = b_distances st ∧ b_previous st' = b_previous st ∧
       ∀ e, e ∈ done.*2 → relaxable (b_distances st) e = false)
         (indexed edges) (fold_left (bf_edge i) (indexed edges) st)).
  { intros H Hu. destruct (H Hu) as (H1 & H2 & H3).
    split; [done|]. split; [done|]. intros e He. apply H3.
    destruct (elem_of_indexed_2 edges e He) as (k & Hk).
    apply list_elem_of_fmap. by exists (k, e). }
  apply (fold_left_prefix_ind (bf_edge i)).
  - intros _. split; [done|]. split; [done|]. by intros e ?%elem_of_nil.
  - intros done [k e] st' Hin IH Hu.
    destruct (bf_edge_spec i st' k e) as [x _ _ _ _ Hup|Hr Hd Hp Hup]; [congruence|].
    rewrite Hup in Hu. destruct (IH Hu) as (Hd' & Hp' & Hall).
    split; [congruence|]. split; [congruence|].
    intros e'. rewrite fmap_app.
    intros [He'|He'%list_elem_of_singleton]%elem_of_app; [auto|].
    simpl in He'. subst e'. by rewrite <-Hd'.
Qed.

End BellmanFord.

(** * Bellman-Ford on a well-formed graph *)

Section BellmanFordGraph.
Context (nodes : list node) (edges : list edge) (source : string).
Hypothesis Hwf : graph_wf nodes edges.
Hypothesis Hsrc : source ∈ ids nodes.
Hypothesis Hsafe : safe_weights nodes edges.

Local Abbreviation W := (weight_bound nodes edges).

Lemma safe_le e : e ∈ edges → Z.abs (weight e) <= W.
Proof. by apply safe_weights_le. Qed.

Lemma safe_nonneg : 0 <= W.
Proof. apply weight_bound_nonneg. Qed.

(** The bound that the numbers can reach in [|V| - 1] passes. *)
Definition final_bound : Z :=
  Z.of_nat (length nodes - 1) * (Z.of_nat (length edges) * W).

Lemma final_room : final_bound + W <= 2 ^ 53.
Proof.
  unfold final_bound. pose proof safe_nonneg.
  etrans; [|apply (weight_bound_room nodes edges
                     (Z.of_nat (length nodes - 1) * Z.of_nat (length edges) + 1))];
    nia.
Qed.

Definition no_negative_cycle : Prop :=
  ∀ es1 v es2,
    is_path edges source es1 v → is_path edges v es2 v → 0 <= total_weight es2.

Lemma no_negative_cycle_iff :
  no_negative_cycle ↔ ¬ negative_cycle_reachable edges source.
Proof.
  split.
  - intros Hnn (es1 & v & es2 & H1 & H2 & Hlt).
    specialize (Hnn es1 v es2 H1 H2). lia.
  - intros Hn es1 v es2 H1 H2.
    destruct (decide (0 <= total_weight es2)) as [|Hlt]; [done|].
    exfalso. apply Hn. exists es1, v, es2. split; [done|]. split; [done|lia].
Qed.

(** ** When no edge can be relaxed any more *)

Definition settled (d : gmap string dist) : Prop :=
  ∀ e, e ∈ edges → relaxable d e = false.

Lemma settled_potential K d es u v xu :
  small K d → K + W <= 2 ^ 53 →
  settled d → (∀ k, k ∈ ids nodes → is_Some (d !! k)) →
  is_path edges u es v → d !! u = Some (Fin xu) →
  bound d v (xu + total_weight es).
Proof.
  intros Hsmall HK Hset Hdef. revert u xu.
  induction es as [|e es IH]; intros u xu [Hall Hch] Hu.
  - simpl in Hch. subst v. exists xu. simpl. split; [done|lia].
  - simpl in Hch. destruct Hch as [<- Hch].
    apply Forall_cons in Hall as [He Hall].
    pose proof (relaxable_false_exact edges W safe_le K d e xu He Hsmall HK
                  (Hset e He) Hu) as Hlt.
    destruct (jslt_false_fin _ _ Hlt (Hdef _ (proj2 (Hwf e He)))) as (y & Hy & Hle).
    destruct (IH (to e) y (conj Hall Hch) Hy) as (z & Hz & Hzle).
    exists z. split; [done|]. simpl. lia.
Qed.

Lemma settled_no_negative_cycle K d :
  small K d → K + W <= 2 ^ 53 →
  settled d → (∀ k, k ∈ ids nodes → is_Some (d !! k)) →
  is_Some (d !! source) → (∀ x, d !! source = Some x → x ≠ Infinity) →
  no_negative_cycle.
Proof.
  intros Hsmall HK Hset Hdef [[xs|] Hs] Hfin; [|by destruct (Hfin _ Hs)].
  intros es1 v es2 H1 H2.
  destruct (settled_potential K d es1 source v xs Hsmall HK Hset Hdef H1 Hs)
    as (xv & Hv & _).
  destruct (settled_potential K d es2 v v xv Hsmall HK Hset Hdef H2 Hv)
    as (xv' & Hv' & Hle).
  rewrite Hv in Hv'. injection Hv' as <-. lia.
Qed.

Lemma settled_source_zero K st :
  bf_inv_at nodes edges source K st → K + W <= 2 ^ 53 →
  settled (b_distances st) →
  b_distances st !! source = Some (Fin 0).
Proof.
  intros [Hinv Hsmall] HK Hset.
  destruct (bf_source _ _ _ _ Hinv) as (xs & Hxs & Hxs0).
  assert (no_negative_cycle) as Hnn.
  { apply (settled_no_negative_cycle K (b_distances st)); [done|done|done| |by eexists|].
    - apply Hinv.
    - intros x Hx. rewrite Hxs in Hx. by injection Hx as <-. }
  destruct (bf_path _ _ _ _ Hinv _ _ Hxs) as (es & Hes & Hw).
  pose proof (Hnn [] source es (is_path_nil edges source) Hes).
  rewrite Hxs. do 2 f_equal. lia.
Qed.

(** With settled distances, each one is the weight of a shortest path. *)
Lemma settled_shortest K st v :
  bf_inv_at nodes edges source K st → K + W <= 2 ^ 53 →
  settled (b_distances st) → v ∈ ids nodes →
  reports_shortest edges source (b_distances st !! v) v.
Proof.
  intros [Hinv Hsmall] HK Hset Hv.
  destruct (bf_source _ _ _ _ Hinv) as (xs & Hxs & Hxs0).
  pose proof (bf_defined _ _ _ _ Hinv) as Hdef.
  assert (no_negative_cycle) as Hnn.
  { apply (settled_no_negative_cycle K (b_distances st));
      [done|done|done|done|by eexists|].
    intros x Hx. rewrite Hxs in Hx. by injection Hx as <-. }
  assert (xs = 0) as ->.
  { destruct (bf_path _ _ _ _ Hinv _ _ Hxs) as (es & Hes & Hw).
    pose proof (Hnn [] source es (is_path_nil edges source) Hes). lia. }
  destruct (Hdef v Hv) as [[x|] Hx]; rewrite Hx; simpl.
  - split; [by eapply bf_path|].
    intros es Hes.
    destruct (settled_potential K _ es source v 0 Hsmall HK Hset Hdef Hes Hxs)
      as (x' & Hx' & Hle).
    rewrite Hx in Hx'. injection Hx' as <-. lia.
  - intros es Hes.
    destruct (settled_potential K _ es source v 0 Hsmall HK Hset Hdef Hes Hxs)
      as (x' & Hx' & _).
    by rewrite Hx in Hx'.
Qed.

(** ** The predecessor map has no cycle unless the graph has a negative one *)

Section Acyclic.
Hypothesis Hnn : no_negative_cycle.

Definition bf_acyclic (st : bstate) : Prop :=
  ∀ v, Acc (pred_of (b_previous st)) v.

Lemma bf_acyclic_edge K i st k e :
  e ∈ edges → K + W <= 2 ^ 53 →
  bf_inv_at nodes edges source K st → bf_acyclic st →
  bf_acyclic (bf_edge i st (k, e)).
Proof.
  intros He HK [Hinv Hsmall] Hacc. unfold bf_acyclic.
  destruct (bf_edge_exact edges W safe_le safe_nonneg K i st k e He Hsmall HK)
    as [[x Hx Hlt _ Hp _|_ _ _ Hp _] _];
    rewrite Hp; [|done].
  set (t := to e) in *. set (u := from e) in *.
  set (R' := pred_of (<[t := Some u]> (b_previous st))).
  (* every node either keeps a well-founded chain, or descends from [t] *)
  assert (∀ z, ∀ xz, b_distances st !! z = Some (Fin xz) →
            Acc R' z ∨
            ∃ yt es, b_distances st !! t = Some (Fin yt) ∧
                     is_path edges t es z ∧ yt + total_weight es <= xz) as Hanc.
  { intros z. induction (Hacc z) as [z _ IH]. intros xz Hz.
    destruct (decide (z = t)) as [->|Hzt].
    { right. exists xz, []. split; [done|]. split; [apply is_path_nil|simpl; lia]. }
    destruct (b_previous st !! z) as [[p|]|] eqn:Hpz.
    - destruct (bf_pred _ _ _ _ Hinv p z Hpz) as (c & xp & yz & Hc & Hxp & Hyz & Hle).
      rewrite Hz in Hyz. injection Hyz as <-.
      destruct (IH p Hpz xp Hxp) as [Hap|(yt & es & Hyt & Hes & Hw)].
      + left. constructor. intros q Hq. unfold R', pred_of in Hq.
        rewrite lookup_insert_ne in Hq by done.
        rewrite Hpz in Hq. by injection Hq as <-.
      + right. exists yt, (es ++ [mkEdge p z c]). split; [done|]. split.
        * by apply (is_path_snoc edges t es (mkEdge p z c)).
        * rewrite total_weight_snoc. simpl. lia.
    - left. constructor. intros q Hq. unfold R', pred_of in Hq.
      rewrite lookup_insert_ne in Hq by done. congruence.
    - left. constructor. intros q Hq. unfold R', pred_of in Hq.
      rewrite lookup_insert_ne in Hq by done. congruence. }
  assert (Acc R' u) as Hu.
  { destruct (Hanc u x Hx) as [?|(yt & es & Hyt & Hes & Hw)]; [done|].
    exfalso.
    rewrite Hyt in Hlt. simpl in Hlt. apply bool_decide_eq_true in Hlt.
    destruct (bf_path _ _ _ _ Hinv _ _ Hyt) as (es0 & Hes0 & _).
    assert (is_path edges t (es ++ [e]) t) as Hcyc
      by (by apply (is_path_snoc edges t es e)).
    pose proof (Hnn es0 t _ Hes0 Hcyc) as Hge.
    rewrite total_weight_snoc in Hge. lia. }
  assert (Acc R' t) as Ht.
  { constructor. intros q Hq. unfold R', pred_of in Hq.
    rewrite lookup_insert_eq in Hq. by injection Hq as <-. }
  intros z. induction (Hacc z) as [z _ IH].
  destruct (decide (z = t)) as [->|Hzt]; [done|].
  constructor. intros q Hq. apply IH.
  unfold R', pred_of in Hq. by rewrite lookup_insert_ne in Hq.
Qed.

Lemma bf_acyclic_fold K i st :
  K + Z.of_nat (length edges) * W <= 2 ^ 53 →
  bf_inv_at nodes edges source K st → bf_acyclic st →
  bf_acyclic (fold_left (bf_edge i) (indexed edges) st).
Proof.
  intros HK [Hinv Hsmall] Hacc.
  destruct (bf_fold_at edges W safe_le safe_nonneg
              (fun _ st' => bf_inv nodes edges source st' ∧ bf_acyclic st') K i st)
    as [[_ H] _]; [|exact HK|exact Hsmall|split; [exact Hinv|exact Hacc]|exact H].
  intros K' k e st' He HK' Hs' [Hinv' Hacc'].
  split; [|apply (bf_acyclic_edge K'); [exact He|exact HK'|by split|exact Hacc']].
  apply (bf_inv_edge nodes edges source W safe_le safe_nonneg K' i st' k e He HK').
  by split.
Qed.

Lemma bf_acyclic_pass K i st :
  K + Z.of_nat (length edges) * W <= 2 ^ 53 →
  bf_inv_at nodes edges source K st → bf_acyclic st →
  bf_acyclic (bf_pass edges i st).
Proof.
  intros HK [Hinv Hsmall] Hacc. unfold bf_pass, bf_acyclic. cbn [b_previous].
  apply (bf_acyclic_fold K); [done| |done]. split; [|done].
  destruct Hinv. constructor; cbn [b_distances b_previous b_steps]; try done.
  intros s [?| ->%list_elem_of_singleton]%elem_of_app; [auto|done].
Qed.

Lemma bf_acyclic_passes K remaining i st :
  K + Z.of_nat remaining * (Z.of_nat (length edges) * W) <= 2 ^ 53 →
  bf_inv_at nodes edges source K st → bf_acyclic st →
  bf_acyclic (bf_passes remaining edges i st).
Proof.
  revert K i st. induction remaining as [|r IH]; intros K i st HK Hinv Hacc;
    cbn [bf_passes]; [done|].
  pose proof safe_nonneg.
  assert (0 <= Z.of_nat (length edges) * W) as Hpos by nia.
  pose proof (bf_inv_pass nodes edges source W safe_le safe_nonneg K i st
                ltac:(nia) Hinv).
  pose proof (bf_acyclic_pass K i st ltac:(nia) Hinv Hacc).
  destruct (negb _); [done|].
  apply (IH (K + Z.of_nat (length edges) * W)); [nia|done|done].
Qed.

Lemma bf_acyclic_init : bf_acyclic (bf_init nodes edges source).
Proof.
  unfold bf_init, bf_acyclic.
  pose proof (init_maps_lookup nodes) as Hl.
  destruct (init_maps nodes) as [d0 p0]. cbn [fst snd] in Hl. cbn [b_previous].
  intros v. constructor. intros u Hu. unfold pred_of in Hu.
  destruct (Hl v) as [_ H2]. rewrite H2 in Hu. by case_decide.
Qed.

End Acyclic.


(** ** After [k] passes, paths of at most [k] edges are accounted for *)

Definition covered (k : nat) (d : gmap string dist) : Prop :=
  ∀ es v, is_path edges source es v → (length es <= k)%nat →
          bound d v (total_weight es).

(** The state in which the edges of pass [i + 1] are visited. *)
Definition pass_start (i : nat) (st : bstate) : bstate :=
  mkBstate (b_distances st) (b_previous st)
    (b_steps st ++
     [mkStep iteration_start (b_distances st) (b_previous st) None [] [] [] None
        (Some (i + 1)%nat) None None [] [] []
        ("Iteration " +:+ pretty (i + 1)%nat +:+ ": Relaxing all "
           +:+ pretty (length edges) +:+ " edges")])
    false.

Lemma bf_pass_unfold i st :
  let st2 := fold_left (bf_edge i) (indexed edges) (pass_start i st) in
  b_distances (bf_pass edges i st) = b_distances st2 ∧
  b_previous (bf_pass edges i st) = b_previous st2 ∧
  b_updated (bf_pass edges i st) = b_updated st2.
Proof. done. Qed.

Lemma covered_pass K i st k :
  K + Z.of_nat (length edges) * W <= 2 ^ 53 →
  bf_inv_at nodes edges source K st → covered k (b_distances st) →
  covered (S k) (b_distances (bf_pass edges i st)).
Proof.
  intros HK [Hinv Hsmall] Hcov.
  destruct (bf_pass_unfold i st) as (-> & _ & _).
  destruct (bf_fold_relaxes edges W safe_le safe_nonneg K i (pass_start i st) HK Hsmall)
    as (_ & Hmono & Hrel).
  cbn [pass_start b_distances] in Hmono, Hrel.
  intros es v Hes Hlen.
  destruct es as [|e es _] using rev_ind.
  - apply Hmono. apply Hcov; [done|simpl; lia].
  - apply is_path_snoc_inv in Hes as (Hes & He & <-).
    rewrite total_weight_snoc. rewrite length_app in Hlen. simpl in Hlen.
    apply Hrel; [done| |].
    + apply (bf_defined _ _ _ _ Hinv). by apply (Hwf e He).
    + apply Hcov; [done|lia].
Qed.

Lemma bf_pass_settled i st :
  b_updated (bf_pass edges i st) = false →
  settled (b_distances (bf_pass edges i st)).
Proof.
  destruct (bf_pass_unfold i st) as (-> & _ & ->).
  intros Hu.
  destruct (bf_fold_no_update edges i (pass_start i st) eq_refl Hu) as (-> & _ & H).
  done.
Qed.

Lemma bf_passes_covered K remaining i st k :
  K + Z.of_nat remaining * (Z.of_nat (length edges) * W) <= 2 ^ 53 →
  bf_inv_at nodes edges source K st → covered k (b_distances st) →
  let st' := bf_passes remaining edges i st in
  settled (b_distances st') ∨ covered (k + remaining) (b_distances st').
Proof.
  cbv zeta. revert K i st k.
  induction remaining as [|r IH]; intros K i st k HK Hinv Hcov; cbn [bf_passes].
  - right. by rewrite Nat.add_0_r.
  - pose proof safe_nonneg.
    assert (0 <= Z.of_nat (length edges) * W) as Hpos by nia.
    destruct (b_updated (bf_pass edges i st)) eqn:Hu; simpl.
    + replace (k + S r)%nat with (S k + r)%nat by lia.
      apply (IH (K + Z.of_nat (length edges) * W)); [nia| |].
      * apply (bf_inv_pass nodes edges source W safe_le safe_nonneg); [nia|done].
      * apply (covered_pass K); [nia|done|done].
    + left. by apply bf_pass_settled.
Qed.

Lemma covered_init : covered 0 (b_distances (bf_init nodes edges source)).
Proof.
  intros es v Hes Hlen. destruct es; [|simpl in Hlen; lia].
  destruct Hes as [_ Hc]. simpl in Hc. subst v.
  destruct (bf_source _ _ _ _ (proj1 (bf_inv_init nodes edges source)))
    as (x & Hx & Hle).
  by exists x.
Qed.

(** ** Removing cycles from a path *)

Lemma chained_split u es v i m :
  chained u es v → visited u es !! i = Some m →
  chained u (take i es) m ∧ chained m (drop i es) v.
Proof.
  revert u i. induction es as [|e es IH]; intros u i Hc Hi.
  - destruct i as [|i]; [|done]. simpl in *. by injection Hi as <-.
  - destruct i as [|i].
    + simpl in Hi. injection Hi as <-. done.
    + destruct Hc as [Hf Hc]. destruct (IH (to e) i Hc Hi) as [H1 H2]. done.
Qed.

Lemma visited_drop u es i j m :
  visited u es !! i = Some m → (i <= j)%nat →
  visited m (drop i es) !! (j - i)%nat = visited u es !! j.
Proof.
  revert u i j. induction es as [|e es IH]; intros u i j Hi Hij.
  - destruct i as [|i]; [|done]. simpl in Hi. injection Hi as <-.
    by rewrite Nat.sub_0_r.
  - destruct i as [|i].
    + simpl in Hi. injection Hi as <-. by rewrite Nat.sub_0_r.
    + destruct j as [|j]; [lia|]. apply (IH (to e) i j); [done|lia].
Qed.

Lemma dup_split (l : list string) :
  NoDup l ∨ ∃ i j x, (i < j)%nat ∧ l !! i = Some x ∧ l !! j = Some x.
Proof.
  induction l as [|a l IH]; [left; constructor|].
  destruct (decide (a ∈ l)) as [Hin|Hnin].
  - right. apply list_elem_of_lookup in Hin as [j Hj].
    exists 0%nat, (S j), a. split; [lia|done].
  - destruct IH as [Hnd|(i & j & x & Hij & Hi & Hj)].
    + left. by constructor.
    + right. exists (S i), (S j), x. split; [lia|done].
Qed.

(** A path can be replaced by one that is not heavier and visits no
    node twice, unless it goes round a negative cycle. *)
Lemma shorten es v :
  is_path edges source es v →
  negative_cycle_reachable edges source ∨
  ∃ es', is_path edges source es' v ∧ total_weight es' <= total_weight es ∧
         NoDup (visited source es').
Proof.
  remember (length es) as n eqn:Hn. revert es Hn.
  induction (lt_wf n) as [n _ IH]. intros es -> Hes.
  destruct (dup_split (visited source es)) as [Hnd|(i & j & x & Hij & Hi & Hj)].
  { right. exists es. split; [done|]. split; [lia|done]. }
  destruct Hes as [Hall Hch].
  destruct (chained_split _ _ _ _ _ Hch Hi) as [Hc1 Hc23].
  pose proof (visited_drop source es i j x Hi ltac:(lia)) as Hj'.
  rewrite Hj in Hj'.
  destruct (chained_split _ _ _ _ _ Hc23 Hj') as [Hc2 Hc3].
  set (es1 := take i es) in *.
  set (es2 := take (j - i) (drop i es)) in *.
  set (es3 := drop (j - i) (drop i es)) in *.
  assert (es = es1 ++ es2 ++ es3) as Hsplit.
  { unfold es1, es2, es3. by rewrite !take_drop. }
  assert (Forall (fun e => e ∈ edges) es1 ∧ Forall (fun e => e ∈ edges) es2 ∧
          Forall (fun e => e ∈ edges) es3) as (Ha1 & Ha2 & Ha3).
  { rewrite Hsplit in Hall. by apply Forall_app in Hall as [? [? ?]%Forall_app]. }
  assert (0 < length es2)%nat as Hlen2.
  { apply lookup_lt_Some in Hj. unfold visited in Hj. simpl in Hj.
    rewrite length_map in Hj. unfold es2.
    rewrite length_take, length_drop. lia. }
  destruct (decide (total_weight es2 < 0)) as [Hneg|Hpos].
  { left. exists es1, x, es2. done. }
  destruct (IH (length (es1 ++ es3))
              ltac:(rewrite Hsplit, !length_app; lia) (es1 ++ es3) eq_refl)
    as [?|(es' & Hes' & Hw & Hnd)].
  - by apply (is_path_app edges source es1 x es3 v).
  - by left.
  - right. exists es'. split; [done|]. split; [|done].
    rewrite Hsplit, !total_weight_app in *. lia.
Qed.

Lemma simple_short es v :
  is_path edges source es v → NoDup (visited source es) →
  (length es < length nodes)%nat.
Proof.
  intros [Hall _] Hnd.
  assert (length (visited source es) <= length (ids nodes))%nat as Hle.
  { apply submseteq_length, NoDup_submseteq; [done|].
    intros k [->|Hk]%elem_of_cons; [done|].
    apply list_elem_of_fmap in Hk as (e & -> & He).
    rewrite Forall_forall in Hall. by apply (Hwf e), Hall. }
  unfold visited, ids in Hle. simpl in Hle. rewrite !length_map in Hle. lia.
Qed.

(** An edge that can be relaxed after all the passes betrays a
    negative cycle. *)
Lemma relaxable_after_passes K st e :
  bf_inv_at nodes edges source K st → K + W <= 2 ^ 53 →
  covered (length nodes - 1) (b_distances st) →
  e ∈ edges → relaxable (b_distances st) e = true →
  negative_cycle_reachable edges source.
Proof.
  intros [Hinv Hsmall] HK Hcov He Hr.
  apply (relaxable_true_exact edges W safe_le K) in Hr as (x & Hx & Hlt);
    [|done..].
  destruct (bf_path _ _ _ _ Hinv _ _ Hx) as (es & Hes & Hw).
  pose proof (is_path_snoc edges source es e Hes He) as Hes1.
  destruct (shorten _ _ Hes1) as [?|(es' & Hes' & Hle & Hnd)]; [done|].
  exfalso.
  pose proof (simple_short es' _ Hes' Hnd) as Hlen.
  destruct (Hcov es' _ Hes' ltac:(lia)) as (y & Hy & Hyle).
  rewrite Hy in Hlt. simpl in Hlt. apply bool_decide_eq_true in Hlt.
  rewrite total_weight_snoc in Hle. lia.
Qed.

(** ** The state after the passes *)

Definition bf_final : bstate :=
  bf_passes (length nodes - 1) edges 0 (bf_init nodes edges source).

Lemma bf_final_struct : bf_struct nodes source bf_final.
Proof. apply bf_struct_passes, bf_struct_init. Qed.

Lemma bf_final_inv_at : bf_inv_at nodes edges source final_bound bf_final.
Proof.
  pose proof final_room. pose proof safe_nonneg.
  pose proof (bf_inv_passes nodes edges source W safe_le safe_nonneg 0
                (length nodes - 1) 0 (bf_init nodes edges source)) as H1.
  rewrite Z.add_0_l in H1. apply H1; [|apply bf_inv_init].
  unfold final_bound in *. lia.
Qed.

Lemma bf_final_inv : bf_inv nodes edges source bf_final.
Proof. apply bf_final_inv_at. Qed.

Lemma bf_final_small : small final_bound (b_distances bf_final).
Proof. apply bf_final_inv_at. Qed.

Lemma bf_final_negative_cycle :
  is_Some (negativeCycleEdge (b_distances bf_final) edges) ↔
  negative_cycle_reachable edges source.
Proof.
  split.
  - intros [e [He Hr]%negativeCycleEdge_Some].
    pose proof final_room as Hroom. pose proof safe_nonneg.
    destruct (bf_passes_covered 0 (length nodes - 1) 0 (bf_init nodes edges source) 0
                ltac:(unfold final_bound in Hroom; lia)
                (bf_inv_init _ _ _) covered_init) as [Hset|Hcov].
    + fold bf_final in Hset. rewrite (Hset e He) in Hr. done.
    + by apply (relaxable_after_passes final_bound bf_final e bf_final_inv_at).
  - intros Hneg.
    destruct (negativeCycleEdge (b_distances bf_final) edges) eqn:Hn; [done|].
    exfalso. apply no_negative_cycle_iff; [|done].
    pose proof (proj1 (negativeCycleEdge_None _ _) Hn) as Hset.
    destruct (bf_source _ _ _ _ bf_final_inv) as (x & Hx & _).
    apply (settled_no_negative_cycle final_bound (b_distances bf_final));
      [apply bf_final_small|apply final_room|done| | |].
    + apply bf_final_inv.
    + by eexists.
    + intros y Hy. rewrite Hx in Hy. by injection Hy as <-.
Qed.

Lemma bf_final_acyclic :
  negativeCycleEdge (b_distances bf_final) edges = None → bf_acyclic bf_final.
Proof.
  intros Hn. pose proof final_room as Hroom. pose proof safe_nonneg.
  assert (no_negative_cycle) as Hnn.
  { apply no_negative_cycle_iff. intros Hneg%bf_final_negative_cycle.
    rewrite Hn in Hneg. by destruct Hneg. }
  apply (bf_acyclic_passes Hnn 0); [|apply bf_inv_init|apply bf_acyclic_init].
  unfold final_bound in Hroom. lia.
Qed.

End BellmanFordGraph.

(** * The reconstructed path is a path of the graph *)

Section PathOfChain.
Context (edges : list edge) (source : string).
Context (d : gmap string dist) (prev : gmap string (option string)).
Hypothesis Htight : ∀ u v, pred_of prev u v →
  ∃ c x, mkEdge u v c ∈ edges ∧ d !! u = Some (Fin x) ∧ d !! v = Some (Fin (x + c)).
Hypothesis Hroot : ∀ v x, d !! v = Some (Fin x) → prev !! v = Some None → v = source.
Hypothesis Hzero : d !! source = Some (Fin 0).
Hypothesis Hdef : ∀ v, is_Some (d !! v) → is_Some (prev !! v).

Lemma visited_snoc u es e : visited u (es ++ [e]) = visited u es ++ [to e].
Proof. unfold visited. by rewrite map_app. Qed.

Lemma pchain_is_path r l :
  pchain prev r l → ∀ v x, r = Id v → d !! v = Some (Fin x) →
  ∃ es, is_path edges source es v ∧ total_weight es = x ∧
        reverse l = map Id (visited source es).
Proof.
  induction 1 as [|r l Hr Hch IH]; intros v x Hv Hx; [done|]. subst r.
  destruct (Hdef v ltac:(by eexists)) as [o Ho].
  assert (get_previous prev (Id v) = match o with Some u => Id u | None => Null end)
    as Hg by (unfold get_previous; cbn [show_ref]; by rewrite Ho).
  rewrite Hg in Hch, IH. clear Hg.
  destruct o as [u|].
  - destruct (Htight u v Ho) as (c & xu & He & Hxu & Hxv).
    rewrite Hx in Hxv. injection Hxv as ->.
    destruct (IH u xu eq_refl Hxu) as (es & Hes & Hw & Hl).
    exists (es ++ [mkEdge u v c]). split; [|split].
    + by apply (is_path_snoc edges source es (mkEdge u v c)).
    + rewrite total_weight_snoc. simpl. lia.
    + rewrite reverse_cons, Hl, visited_snoc, map_app. done.
  - inversion Hch; subst; [|done].
    assert (v = source) as -> by (by eapply Hroot).
    rewrite Hzero in Hx. injection Hx as <-.
    exists []. split; [apply is_path_nil|]. split; done.
Qed.

Lemma path_loop_is_path fuel v x p :
  d !! v = Some (Fin x) → path_loop fuel prev (Id v) [] = Some p →
  ∃ es, is_path edges source es v ∧ total_weight es = x ∧
        p = map Id (visited source es).
Proof.
  intros Hx (l & Hl & ->)%path_loop_Some. rewrite app_nil_r.
  by eapply pchain_is_path.
Qed.

End PathOfChain.

(** * The tracers as a whole *)

Lemma dijkstra_Some fuel nodes edges source dest steps :
  dijkstra fuel nodes edges source dest = Some steps →
  ∃ st path,
    dijkstra_loop fuel edges dest (dijkstra_init nodes source) = Some st ∧
    path_loop fuel (d_previous st) (Id dest) [] = Some path ∧
    steps = d_steps st ++ [dijkstra_complete dest st path].
Proof.
  unfold dijkstra.
  destruct (dijkstra_loop _ _ _ _) as [st|]; [|done].
  destruct (path_loop _ _ _ _) as [path|] eqn:Hpath; [|done].
  intros [= <-]. by exists st, path.
Qed.

Lemma dijkstra_total fuel nodes edges source dest :
  source ∈ ids nodes → dest ∈ ids nodes →
  (length nodes + length edges + 1 <= fuel)%nat →
  ∃ st path,
    dijkstra_loop fuel edges dest (dijkstra_init nodes source) = Some st ∧
    path_loop fuel (d_previous st) (Id dest) [] = Some path ∧ NoDup path ∧
    dijkstra fuel nodes edges source dest
      = Some (d_steps st ++ [dijkstra_complete dest st path]).
Proof.
  intros Hs Hd Hf.
  destruct (dijkstra_loop_terminates edges dest fuel (dijkstra_init nodes source))
    as [st Hst].
  { rewrite potential_init. lia. }
  pose proof (dijkstra_loop_inv nodes edges source dest fuel _ _
                (inv_init nodes edges source) Hst) as Hinv.
  destruct (dijkstra_path_terminates nodes edges source dest st fuel Hinv Hs Hd ltac:(lia))
    as (path & Hpath & Hnd).
  exists st, path. split; [done|]. split; [done|]. split; [done|].
  unfold dijkstra. by rewrite Hst, Hpath.
Qed.

Lemma bellmanFord_unfold fuel nodes edges source dest :
  bellmanFord fuel nodes edges source dest =
  let st := bf_final nodes edges source in
  match negativeCycleEdge (b_distances st) edges with
  | Some e =>
    Some (b_steps st ++
          [mkStep negative_cycle (b_distances st) (b_previous st) None [] [] [] None
             None None None [] []
             [edgeKey (from e) (to e)]
             ("Negative cycle detected! Edge " +:+ from e +:+ "→" +:+ to e
                +:+ " can still be relaxed. Shortest paths undefined.")])
  | None =>
    match path_loop fuel (b_previous st) (Id dest) [] with
    | None => None
    | Some path => Some (b_steps st ++ [bf_complete source dest st path])
    end
  end.
Proof. reflexivity. Qed.

Lemma bf_path_terminates fuel nodes edges source dest :
  graph_wf nodes edges → source ∈ ids nodes → dest ∈ ids nodes →
  safe_weights nodes edges →
  negativeCycleEdge (b_distances (bf_final nodes edges source)) edges = None →
  (length nodes <= fuel)%nat →
  ∃ path, path_loop fuel (b_previous (bf_final nodes edges source)) (Id dest) []
            = Some path ∧ NoDup path.
Proof.
  intros Hwf Hs Hd Hsafe Hn Hf.
  pose proof (bf_final_inv nodes edges source Hsafe) as Hinv.
  apply (path_loop_terminates _ (ids nodes)).
  - apply Hinv.
  - intros u k Hu.
    destruct (bf_pred _ _ _ _ Hinv u k Hu) as (c & x & y & _ & Hx & _).
    assert (u ∈ source :: ids nodes) as [->|?]%elem_of_cons; [|done..].
    apply (bf_dom_d _ _ _ _ Hinv). by eexists.
  - done.
  - by apply bf_final_acyclic.
  - unfold ids. by rewrite length_map.
Qed.

Lemma pathEdges_replay path : pathEdges path = replay path.
Proof.
  unfold pathEdges, replay.
  induction path as [|a [|b tl] IH]; [done..|].
  change (consecutive_pairs (a :: b :: tl))
    with ((a, b) :: consecutive_pairs (b :: tl)).
  rewrite map_cons, <-IH.
  replace (length (a :: b :: tl) - 1)%nat with (S (length (b :: tl) - 1))%nat
    by (simpl; lia).
  cbn [seq]. rewrite map_cons. f_equal.
  rewrite <-seq_shift, map_map. apply map_ext. intros i.
  by replace (S i + 1)%nat with (S (i + 1)) by lia.
Qed.

Lemma prefix_of_subseteq {A} (l1 l2 : list A) : l1 `prefix_of` l2 → l1 ⊆ l2.
Proof. intros [k ->] x Hx. apply elem_of_app. by left. Qed.

Lemma pnode_permanent_entries d perm : map pnode (permanent_entries d perm) = perm.
Proof.
  unfold permanent_entries. rewrite map_map. simpl. apply map_id.
Qed.


(** Hypotheses on concrete graphs are settled by evaluation. *)
Lemma graph_wf_Forall nodes edges :
  Forall (fun e => from e ∈ ids nodes ∧ to e ∈ ids nodes) edges →
  graph_wf nodes edges.
Proof. intros H e He. by apply (proj1 (Forall_forall _ _) H). Qed.

(** A loop of two in the predecessor map is never left. *)
Lemma path_loop_cycle (previous : gmap string (option string)) b c fuel :
  previous !! b = Some (Some c) → previous !! c = Some (Some b) →
  ∀ acc, path_loop fuel previous (Id b) acc = None ∧
         path_loop fuel previous (Id c) acc = None.
Proof.
  intros Hb Hc. induction fuel as [|fuel IH]; intros acc; [done|].
  cbn [path_loop]. unfold get_previous. cbn [show_ref]. rewrite Hb, Hc.
  split; apply IH.
Qed.

(** Node potentials that no edge undercuts rule out negative cycles. *)
Lemma potential_path (phi : string → Z) edges u es v :
  (∀ e, e ∈ edges → phi (to e) <= phi (from e) + weight e) →
  is_path edges u es v → phi v <= phi u + total_weight es.
Proof.
  intros Hphi. revert u. induction es as [|e es IH]; intros u [Hall Hch].
  - simpl in Hch. subst v. simpl. lia.
  - simpl in Hch. destruct Hch as [<- Hch].
    apply Forall_cons in Hall as [He Hall].
    specialize (IH (to e) (conj Hall Hch)). specialize (Hphi e He).
    simpl. lia.
Qed.

Lemma potential_no_negative_cycle (phi : string → Z) edges source :
  Forall (fun e => phi (to e) <= phi (from e) + weight e) edges →
  ¬ negative_cycle_reachable edges source.
Proof.
  intros Hphi (es1 & v & es2 & _ & Hcyc & Hlt).
  pose proof (potential_path phi edges v es2 v
                (proj1 (Forall_forall _ _) Hphi) Hcyc). lia.
Qed.

Lemma nonneg_Forall (edges : list edge) :
  Forall (fun e => 0 <= weight e) edges → ∀ e, e ∈ edges → 0 <= weight e.
Proof. intros H e He. by apply (proj1 (Forall_forall _ _) H). Qed.

Ltac evaluate := apply (bool_decide_unpack _); vm_compute; exact I.

(** * The properties *)

(** ** The priority queue *)

Lemma run_ops_ok ops : HeapFacts.heap_ok (run_ops ops).
Proof.
  unfold run_ops.
  assert (∀ h, HeapFacts.heap_ok h → HeapFacts.heap_ok (fold_left apply_op ops h)) as H.
  { induction ops as [|op ops IH]; intros h Hh; [done|]. cbn [fold_left].
    apply IH. destruct op as [n p|]; simpl.
    - by apply HeapFacts.push_ok.
    - destruct (MinHeap.pop h) as [[m h']|] eqn:Hp; [|done].
      by destruct (HeapFacts.pop_Some _ _ _ Hh Hp) as (_ & ? & _). }
  apply H, HeapFacts.heap_ok_nil.
Qed.

(** C6. After any sequence of pushes (and pops), [pop] on a non-empty
    queue removes one entry and returns it, and the priority of that
    entry is at most the priority of every entry that was in the queue;
    on the empty queue it returns [null]. *)
Theorem pop_returns_minimum (ops : list heap_op) :
  let h := run_ops ops in
  (h = [] → MinHeap.pop h = None) ∧
  (h ≠ [] →
   ∃ m h', MinHeap.pop h = Some (m, h') ∧
           h ≡ₚ m :: h' ∧
           ∀ e, e ∈ h → priority m <= priority e).
Proof.
  cbv zeta. split; [by intros ->|].
  intros Hne.
  destruct (MinHeap.pop (run_ops ops)) as [[m h']|] eqn:Hp.
  - exists m, h'. split; [done|].
    destruct (HeapFacts.pop_Some _ _ _ (run_ops_ok ops) Hp) as (? & _ & ?). done.
  - by apply HeapFacts.pop_None in Hp.
Qed.

Lemma pop_returns_minimum_witness :
  let h := run_ops [Push "a" 3; Push "b" 1; Push "c" 2; Pop; Push "d" 0] in
  h ≠ [] ∧
  ∃ m h', MinHeap.pop h = Some (m, h') ∧
          h ≡ₚ m :: h' ∧
          ∀ e, e ∈ h → priority m <= priority e.
Proof.
  cbv zeta.
  assert (run_ops [Push "a" 3; Push "b" 1; Push "c" 2; Pop; Push "d" 0] ≠ [])
    as Hne by (vm_compute; discriminate).
  split; [exact Hne|].
  exact (proj2 (pop_returns_minimum
                  [Push "a" 3; Push "b" 1; Push "c" 2; Pop; Push "d" 0]) Hne).
Defined.

(** ** The permanent set *)

(** C5. Along the steps returned by [dijkstra], the permanent set of an
    [extract] step is contained in the permanent set of every later
    [extract] step (so of the next one), and no node id occurs twice in
    the permanent set of a step. *)
Theorem dijkstra_permanent_monotone fuel nodes edges source dest steps :
  dijkstra fuel nodes edges source dest = Some steps →
  (∀ i j s1 s2,
     (i < j)%nat → steps !! i = Some s1 → steps !! j = Some s2 →
     type s1 = extract → type s2 = extract →
     permanent s1 ⊆ permanent s2) ∧
  (∀ s, s ∈ steps → NoDup (map pnode (permanent s))).
Proof.
  intros (st & path & Hst & _ & ->)%dijkstra_Some.
  pose proof (dijkstra_loop_inv nodes edges source dest fuel _ _
                (inv_init nodes edges source) Hst) as Hinv.
  destruct (dijkstra_loop_trace edges dest fuel _ _ (trace_init nodes source) Hst)
    as [Hpre Hsorted].
  split.
  - intros i j s1 s2 Hij Hi Hj _ Hty2.
    destruct (decide (j < length (d_steps st))%nat) as [Hjl|Hjl].
    + rewrite lookup_app_l in Hi by lia. rewrite lookup_app_l in Hj by lia.
      apply prefix_of_subseteq. apply (Hsorted i j); [lia|done..].
    + rewrite lookup_app_r in Hj by lia.
      apply list_elem_of_lookup_2, list_elem_of_singleton in Hj as ->.
      destruct (decide (i < length (d_steps st))%nat) as [Hil|Hil].
      * rewrite lookup_app_l in Hi by lia.
        apply list_elem_of_lookup_2, Hpre in Hi as [Hp _].
        by apply prefix_of_subseteq.
      * rewrite lookup_app_r in Hi by lia.
        by apply list_elem_of_lookup_2, list_elem_of_singleton in Hi as ->.
  - assert (NoDup (map pnode (permanent_entries (d_distances st) (d_permanent st))))
      as Hnd by (rewrite pnode_permanent_entries; apply Hinv).
    intros s [Hs| ->%list_elem_of_singleton]%elem_of_app; [|done].
    destruct (Hpre s Hs) as [[k Hk] _]. rewrite Hk, map_app in Hnd.
    by apply NoDup_app in Hnd as [? _].
Qed.

Lemma dijkstra_permanent_monotone_witness :
  ∃ steps,
    dijkstra 10 ex1_nodes ex1_edges "A" "B" = Some steps ∧
    (∀ i j s1 s2,
       (i < j)%nat → steps !! i = Some s1 → steps !! j = Some s2 →
       type s1 = extract → type s2 = extract →
       permanent s1 ⊆ permanent s2) ∧
    (∀ s, s ∈ steps → NoDup (map pnode (permanent s))).
Proof.
  eexists. split; [vm_compute; reflexivity|].
  apply (dijkstra_permanent_monotone 10%nat ex1_nodes ex1_edges "A" "B").
  vm_compute. reflexivity.
Defined.

(** ** The path and the highlighted edges of a [complete] step *)

Lemma path_loop_root fuel previous v path :
  previous !! v = Some None →
  path_loop fuel previous (Id v) [] = Some path → path = [Id v].
Proof.
  intros Hv. destruct fuel as [|fuel]; [done|]. simpl.
  unfold get_previous. simpl. rewrite Hv. destruct fuel; by intros [= <-].
Qed.

Lemma complete_fields (reached : bool) (p : list ref) (d : gmap string dist) dest :
  reached = not_Infinity (d !! dest) →
  (d !! dest = Some Infinity → p = [Id dest]) →
  pathEdges p = replay (if reached then p else []) ∧
  (d !! dest = Some Infinity →
   (if reached then p else []) = [] ∧ pathEdges p = []).
Proof.
  intros -> Hroot. destruct (d !! dest) as [[x|]|] eqn:Hd; simpl.
  - split; [apply pathEdges_replay|done].
  - rewrite (Hroot eq_refl). done.
  - split; [apply pathEdges_replay|done].
Qed.

(** C7. In a [complete] step of either tracer, the [path] field read as
    its consecutive ordered pairs gives exactly the [activeEdges] field;
    both are empty when the distance of the destination is [Infinity]. *)
Theorem complete_step_path_edges fuel nodes edges source dest steps s :
  dijkstra fuel nodes edges source dest = Some steps ∨
  bellmanFord fuel nodes edges source dest = Some steps →
  s ∈ steps → type s = complete →
  activeEdges s = replay (path s) ∧
  (distances s !! dest = Some Infinity → path s = [] ∧ activeEdges s = []).
Proof.
  intros [Hrun|Hrun] Hs Hty.
  - apply dijkstra_Some in Hrun as (st & p & Hst & Hp & ->).
    pose proof (dijkstra_loop_inv nodes edges source dest fuel _ _
                  (inv_init nodes edges source) Hst) as Hinv.
    destruct (dijkstra_loop_trace edges dest fuel _ _ (trace_init nodes source) Hst)
      as [Hpre _].
    apply elem_of_app in Hs as [Hs| ->%list_elem_of_singleton].
    { by destruct (Hpre s Hs) as [_ ?]. }
    cbn [dijkstra_complete activeEdges path distances].
    apply complete_fields; [done|].
    intros Hinf. eapply path_loop_root; [|done]. by apply Hinv.
  - rewrite bellmanFord_unfold in Hrun. cbv zeta in Hrun.
    pose proof (bf_final_struct nodes edges source) as Hinv.
    destruct (negativeCycleEdge _ _) as [e|].
    { injection Hrun as <-.
      apply elem_of_app in Hs as [Hs| ->%list_elem_of_singleton]; [|done].
      by destruct (s_types _ _ _ Hinv s Hs). }
    destruct (path_loop _ _ _ _) as [p|] eqn:Hp; [|done].
    injection Hrun as <-.
    apply elem_of_app in Hs as [Hs| ->%list_elem_of_singleton].
    { by destruct (s_types _ _ _ Hinv s Hs). }
    cbn [bf_complete activeEdges path distances].
    apply complete_fields; [done|].
    intros Hinf. eapply path_loop_root; [|done]. by apply Hinv.
Qed.

Lemma complete_step_path_edges_witness :
  ∃ steps s,
    dijkstra 10 ex1_nodes ex1_edges "A" "B" = Some steps ∧
    s ∈ steps ∧ type s = complete ∧
    activeEdges s = replay (path s) ∧
    (distances s !! "B" = Some Infinity → path s = [] ∧ activeEdges s = []).
Proof.
  assert (∃ steps s, dijkstra 10 ex1_nodes ex1_edges "A" "B" = Some steps ∧
                     last steps = Some s ∧ type s = complete)
    as (steps & s & Hrun & Hlast & Hty).
  { eexists _, _. split; [vm_compute; reflexivity|]. split; vm_compute; reflexivity. }
  exists steps, s. split; [done|].
  assert (s ∈ steps) as Hs by (by apply last_Some_elem_of).
  split; [done|]. split; [done|].
  exact (complete_step_path_edges 10%nat ex1_nodes ex1_edges "A" "B" steps s
           (or_introl Hrun) Hs Hty).
Defined.

(** ** Termination *)

(** C10 does not hold for Bellman-Ford when sums are rounded.  With
    edges (A,B,2^53), (B,C,1), (C,B,-1), source A and destination B, the
    first pass sets B to 2^53 from A, C to 2^53 from B, since 2^53 + 1
    rounds to 2^53, and B to 2^53 - 1 from C; the second pass changes
    nothing and no edge can be relaxed, so no negative cycle is
    reported, but B and C are each other's predecessor and the
    reconstruction loop never ends. *)
Lemma bellmanFord_loops_counterexample :
  let edges := [mkEdge "A" "B" (2 ^ 53); mkEdge "B" "C" 1; mkEdge "C" "B" (-1)] in
  graph_wf ex1_nodes edges ∧ "A" ∈ ids ex1_nodes ∧ "B" ∈ ids ex1_nodes ∧
  negativeCycleEdge (b_distances (bf_final ex1_nodes edges "A")) edges = None ∧
  pred_of (b_previous (bf_final ex1_nodes edges "A")) "C" "B" ∧
  pred_of (b_previous (bf_final ex1_nodes edges "A")) "B" "C" ∧
  ∀ fuel, bellmanFord fuel ex1_nodes edges "A" "B" = None.
Proof.
  cbv zeta.
  split; [apply graph_wf_Forall; evaluate|].
  split; [evaluate|]. split; [evaluate|].
  assert (negativeCycleEdge
            (b_distances
               (bf_final ex1_nodes
                  [mkEdge "A" "B" (2 ^ 53); mkEdge "B" "C" 1; mkEdge "C" "B" (-1)] "A"))
            [mkEdge "A" "B" (2 ^ 53); mkEdge "B" "C" 1; mkEdge "C" "B" (-1)] = None)
    as Hn by (vm_compute; reflexivity).
  assert (pred_of
            (b_previous
               (bf_final ex1_nodes
                  [mkEdge "A" "B" (2 ^ 53); mkEdge "B" "C" 1; mkEdge "C" "B" (-1)] "A"))
            "C" "B") as Hb by (vm_compute; reflexivity).
  assert (pred_of
            (b_previous
               (bf_final ex1_nodes
                  [mkEdge "A" "B" (2 ^ 53); mkEdge "B" "C" 1; mkEdge "C" "B" (-1)] "A"))
            "B" "C") as Hc by (vm_compute; reflexivity).
  split; [exact Hn|]. split; [exact Hb|]. split; [exact Hc|].
  intros fuel. rewrite bellmanFord_unfold. cbv zeta. rewrite Hn.
  by rewrite (proj1 (path_loop_cycle _ "B" "C" fuel Hb Hc [])).
Qed.

(** C10, amended.  On a graph with source and destination among its
    nodes, whatever the weights, [dijkstra] returns: its main loop ends
    within [length edges + 1] rounds, and in its [complete] step the
    predecessor relation is well founded (the map has no cycle), so the
    reconstruction loop ends, and the path it builds visits no node
    twice.  When every weight is at most [2^53 / (|V| * |E| + 1)] in
    absolute value, so that no sum is rounded, [bellmanFord] returns as
    well, and the same holds of its [complete] step. *)
Theorem tracers_terminate nodes edges source dest fuel :
  graph_wf nodes edges → source ∈ ids nodes → dest ∈ ids nodes →
  (length nodes + length edges + 1 <= fuel)%nat →
  is_Some (dijkstra_loop (length edges + 1) edges dest (dijkstra_init nodes source)) ∧
  (∃ steps c,
     dijkstra fuel nodes edges source dest = Some steps ∧
     last steps = Some c ∧ type c = complete ∧
     (∀ v, Acc (pred_of (previous c)) v) ∧
     ∃ p, path_loop fuel (previous c) (Id dest) [] = Some p ∧ NoDup p) ∧
  (safe_weights nodes edges →
   ∃ steps c,
     bellmanFord fuel nodes edges source dest = Some steps ∧
     last steps = Some c ∧
     (type c = negative_cycle ∨
      (type c = complete ∧
       (∀ v, Acc (pred_of (previous c)) v) ∧
       ∃ p, path_loop fuel (previous c) (Id dest) [] = Some p ∧ NoDup p))).
Proof.
  intros Hwf Hs Hd Hf. split; [|split].
  - apply dijkstra_loop_terminates. rewrite potential_init. lia.
  - destruct (dijkstra_total fuel nodes edges source dest Hs Hd Hf)
      as (st & p & Hst & Hp & Hnd & Hrun).
    pose proof (dijkstra_loop_inv nodes edges source dest fuel _ _
                  (inv_init nodes edges source) Hst) as Hinv.
    eexists _, _. split; [done|]. split; [apply last_snoc|].
    split; [done|]. split; [apply Hinv|]. by exists p.
  - intros Hsafe. rewrite bellmanFord_unfold. cbv zeta.
    destruct (negativeCycleEdge _ _) as [e|] eqn:Hn.
    { eexists _, _. split; [done|]. split; [apply last_snoc|]. by left. }
    destruct (bf_path_terminates fuel nodes edges source dest Hwf Hs Hd Hsafe Hn
                ltac:(lia)) as (p & Hp & Hnd).
    rewrite Hp. eexists _, _. split; [done|]. split; [apply last_snoc|].
    right. split; [done|]. split; [by apply bf_final_acyclic|]. by exists p.
Qed.

Lemma tracers_terminate_witness :
  is_Some (dijkstra_loop (length ex1_edges + 1) ex1_edges "B"
             (dijkstra_init ex1_nodes "A")) ∧
  (∃ steps c,
     dijkstra 10 ex1_nodes ex1_edges "A" "B" = Some steps ∧
     last steps = Some c ∧ type c = complete ∧
     (∀ v, Acc (pred_of (previous c)) v) ∧
     ∃ p, path_loop 10 (previous c) (Id "B") [] = Some p ∧ NoDup p) ∧
  (∃ steps c,
     bellmanFord 10 ex1_nodes ex1_edges "A" "B" = Some steps ∧
     last steps = Some c ∧
     (type c = negative_cycle ∨
      (type c = complete ∧
       (∀ v, Acc (pred_of (previous c)) v) ∧
       ∃ p, path_loop 10 (previous c) (Id "B") [] = Some p ∧ NoDup p))).
Proof.
  destruct (tracers_terminate ex1_nodes ex1_edges "A" "B" 10%nat)
    as (H1 & H2 & H3).
  - apply graph_wf_Forall. evaluate.
  - evaluate.
  - evaluate.
  - vm_compute. lia.
  - split; [exact H1|]. split; [exact H2|]. apply H3. evaluate.
Defined.

(** ** The distances reported by Dijkstra *)

(** C1 does not hold for every node: the loop stops as soon as the
    destination is extracted.  With edges A→B and B→C, source A and
    destination B, the [complete] step reports [Infinity] for C although
    A→B→C is a path of weight 2. *)
Lemma dijkstra_all_nodes_counterexample :
  graph_wf chain_nodes chain_edges ∧
  (∀ e, e ∈ chain_edges → 0 <= weight e) ∧
  "A" ∈ ids chain_nodes ∧ "B" ∈ ids chain_nodes ∧ "C" ∈ ids chain_nodes ∧
  ∃ steps c,
    dijkstra 10 chain_nodes chain_edges "A" "B" = Some steps ∧
    last steps = Some c ∧ type c = complete ∧
    ¬ reports_shortest chain_edges "A" (distances c !! "C") "C".
Proof.
  split; [apply graph_wf_Forall; evaluate|].
  split; [apply nonneg_Forall; evaluate|].
  split; [evaluate|]. split; [evaluate|]. split; [evaluate|].
  eexists _, _. split; [vm_compute; reflexivity|].
  split; [vm_compute; reflexivity|]. split; [reflexivity|].
  assert (distances
            (dijkstra_complete "B"
               (default (dijkstra_init chain_nodes "A")
                  (dijkstra_loop 10 chain_edges "B" (dijkstra_init chain_nodes "A")))
               [Id "A"; Id "B"]) !! "C" = Some Infinity) as Hc
    by (vm_compute; reflexivity).
  vm_compute in Hc. vm_compute (distances _ !! "C"). simpl.
  intros Hun. apply (Hun [mkEdge "A" "B" 1; mkEdge "B" "C" 1]).
  split; [evaluate|done].
Qed.

(** Nor does it hold for the destination when a sum is rounded: with
    edges (A,B,2^53) and (B,C,1), source A and destination C, the
    [complete] step reports 2^53 for C, since 2^53 + 1 is not a double,
    although the only path weighs 2^53 + 1. *)
Lemma dijkstra_rounding_example :
  let edges := [mkEdge "A" "B" (2 ^ 53); mkEdge "B" "C" 1] in
  graph_wf chain_nodes edges ∧ (∀ e, e ∈ edges → 0 <= weight e) ∧
  ∃ steps c,
    dijkstra 10 chain_nodes edges "A" "C" = Some steps ∧
    last steps = Some c ∧ type c = complete ∧
    distances c !! "C" = Some (Fin (2 ^ 53)) ∧
    ¬ reports_shortest edges "A" (distances c !! "C") "C".
Proof.
  cbv zeta.
  split; [apply graph_wf_Forall; evaluate|].
  split; [apply nonneg_Forall; evaluate|].
  eexists _, _. split; [vm_compute; reflexivity|].
  split; [vm_compute; reflexivity|]. split; [reflexivity|].
  assert (distances
            (dijkstra_complete "C"
               (default (dijkstra_init chain_nodes "A")
                  (dijkstra_loop 10 [mkEdge "A" "B" (2 ^ 53); mkEdge "B" "C" 1] "C"
                     (dijkstra_init chain_nodes "A")))
               [Id "A"; Id "B"; Id "C"]) !! "C" = Some (Fin (2 ^ 53))) as Hc
    by (vm_compute; reflexivity).
  vm_compute in Hc. vm_compute (distances _ !! "C").
  split; [reflexivity|].
  intros [(es & Hes & Hw) _].
  assert (Forall (fun e => rounding_potential (to e)
                           <= rounding_potential (from e) + weight e)
            [mkEdge "A" "B" (2 ^ 53); mkEdge "B" "C" 1]) as Hphi by evaluate.
  pose proof (potential_path rounding_potential _ "A" es "C"
                (proj1 (Forall_forall _ _) Hphi) Hes) as Hle.
  change (rounding_potential "C") with (2 ^ 53 + 1) in Hle.
  change (rounding_potential "A") with 0 in Hle.
  change (Z.pos 9007199254740992) with (2 ^ 53) in Hw. lia.
Qed.

Lemma dijkstra_final_report nodes edges source dest fuel :
  graph_wf nodes edges → source ∈ ids nodes → dest ∈ ids nodes →
  (∀ e, e ∈ edges → 0 <= weight e) → safe_weights nodes edges →
  (length nodes + length edges + 1 <= fuel)%nat →
  ∃ steps c,
    dijkstra fuel nodes edges source dest = Some steps ∧
    last steps = Some c ∧ type c = complete ∧
    reports_shortest edges source (distances c !! dest) dest ∧
    (∀ p, p ∈ permanent c →
          pdistance p = distances c !! pnode p ∧
          reports_shortest edges source (pdistance p) (pnode p)) ∧
    (∀ v x, distances c !! v = Some (Fin x) →
            ∃ es, is_path edges source es v ∧ total_weight es = x) ∧
    (distances c !! dest = Some Infinity →
     ∀ v, v ∈ ids nodes → reports_shortest edges source (distances c !! v) v).
Proof.
  intros Hwf Hs Hd Hnn Hsafe Hf.
  destruct (dijkstra_total fuel nodes edges source dest Hs Hd Hf)
    as (st & p & Hst & Hp & Hnd & Hrun).
  destruct (dijkstra_loop_opt nodes edges source dest Hwf Hs Hnn Hsafe fuel st Hst)
    as (Hpath & Hperm & Hdest).
  eexists _, _. split; [done|]. split; [apply last_snoc|].
  cbn [dijkstra_complete type distances permanent].
  split; [done|]. split; [apply Hdest; auto|]. split; [|split; [done|]].
  - intros q Hq. unfold permanent_entries in Hq.
    apply list_elem_of_fmap in Hq as (v & -> & Hv). simpl. split; [done|].
    destruct (Hperm v Hv) as (x & -> & Hx). done.
  - intros Hinf v Hv. apply Hdest; auto.
Qed.

(** C1, amended.  On a graph in which source and destination exist and
    every weight is non-negative and at most [2^53 / (|V| * |E| + 1)],
    so that no sum is rounded, [dijkstra] returns, and its [complete]
    step reports: for the destination, the least total weight of a path from
    the source, or [Infinity] if there is none; for every node of its
    permanent set, the least total weight of a path; for any other node,
    [Infinity] or the weight of some path from the source; and when the
    destination is reported unreachable, the right distance for every
    node.  On nodes A, B, C with edges (A,B,4), (A,C,1), (C,B,1), source
    A and destination B, the step reports distance 2 for B and the path
    A, C, B. *)
Theorem dijkstra_complete_distances :
  (∀ nodes edges source dest fuel,
     graph_wf nodes edges → source ∈ ids nodes → dest ∈ ids nodes →
     (∀ e, e ∈ edges → 0 <= weight e) → safe_weights nodes edges →
     (length nodes + length edges + 1 <= fuel)%nat →
     ∃ steps c,
       dijkstra fuel nodes edges source dest = Some steps ∧
       last steps = Some c ∧ type c = complete ∧
       reports_shortest edges source (distances c !! dest) dest ∧
       (∀ p, p ∈ permanent c →
             pdistance p = distances c !! pnode p ∧
             reports_shortest edges source (pdistance p) (pnode p)) ∧
       (∀ v x, distances c !! v = Some (Fin x) →
               ∃ es, is_path edges source es v ∧ total_weight es = x) ∧
       (distances c !! dest = Some Infinity →
        ∀ v, v ∈ ids nodes → reports_shortest edges source (distances c !! v) v)) ∧
  (∃ steps c,
     dijkstra 10 ex1_nodes ex1_edges "A" "B" = Some steps ∧
     last steps = Some c ∧ type c = complete ∧
     distances c !! "B" = Some (Fin 2) ∧
     path c = [Id "A"; Id "C"; Id "B"]).
Proof.
  split.
  - apply dijkstra_final_report.
  - eexists _, _. split; [vm_compute; reflexivity|].
    split; [vm_compute; reflexivity|]. split; [reflexivity|].
    split; [vm_compute; reflexivity|]. reflexivity.
Qed.

Lemma dijkstra_complete_distances_witness :
  ∃ steps c,
    dijkstra 10 chain_nodes chain_edges "A" "C" = Some steps ∧
    last steps = Some c ∧ type c = complete ∧
    reports_shortest chain_edges "A" (distances c !! "C") "C" ∧
    (∀ p, p ∈ permanent c →
          pdistance p = distances c !! pnode p ∧
          reports_shortest chain_edges "A" (pdistance p) (pnode p)) ∧
    (∀ v x, distances c !! v = Some (Fin x) →
            ∃ es, is_path chain_edges "A" es v ∧ total_weight es = x) ∧
    (distances c !! "C" = Some Infinity →
     ∀ v, v ∈ ids chain_nodes →
          reports_shortest chain_edges "A" (distances c !! v) v).
Proof.
  apply (proj1 dijkstra_complete_distances chain_nodes chain_edges "A" "C" 10%nat).
  - apply graph_wf_Forall. evaluate.
  - evaluate.
  - evaluate.
  - apply nonneg_Forall. evaluate.
  - evaluate.
  - vm_compute. lia.
Defined.

(** ** Negative cycles *)

(** C2 does not hold when sums are rounded, in either direction.  With
    edges (C,B,-1), (B,C,1), (A,B,2^53) and source A, the second pass
    sets C to 2^53, since 2^53 + 1 rounds to 2^53, and the last scan
    finds that C→B can still be relaxed: the tracer ends on a
    [negative-cycle] step although the only cycle weighs 0.  With edges
    (A,B,2^55+8), (B,C,2), (C,B,-3) and source A, both 2^55 + 10 and
    2^55 + 5 round to 2^55 + 8, nothing can be relaxed after the first
    pass, and the tracer ends on a [complete] step although the cycle
    B→C→B weighs -1. *)
Lemma negative_cycle_rounding_counterexample :
  let edges1 := [mkEdge "C" "B" (-1); mkEdge "B" "C" 1; mkEdge "A" "B" (2 ^ 53)] in
  let edges2 := [mkEdge "A" "B" (2 ^ 55 + 8); mkEdge "B" "C" 2; mkEdge "C" "B" (-3)] in
  (graph_wf ex1_nodes edges1 ∧ "A" ∈ ids ex1_nodes ∧
   (∃ steps c,
      bellmanFord 10 ex1_nodes edges1 "A" "C" = Some steps ∧
      last steps = Some c ∧ type c = negative_cycle) ∧
   ¬ negative_cycle_reachable edges1 "A") ∧
  (graph_wf ex1_nodes edges2 ∧
   (∃ steps c,
      bellmanFord 10 ex1_nodes edges2 "A" "B" = Some steps ∧
      last steps = Some c ∧ type c = complete) ∧
   negative_cycle_reachable edges2 "A").
Proof.
  cbv zeta. split.
  - split; [apply graph_wf_Forall; evaluate|]. split; [evaluate|]. split.
    + eexists _, _. split; [vm_compute; reflexivity|].
      split; [vm_compute; reflexivity|]. reflexivity.
    + apply (potential_no_negative_cycle rounding_potential). evaluate.
  - split; [apply graph_wf_Forall; evaluate|]. split.
    + eexists _, _. split; [vm_compute; reflexivity|].
      split; [vm_compute; reflexivity|]. reflexivity.
    + exists [mkEdge "A" "B" (2 ^ 55 + 8)], "B",
        [mkEdge "B" "C" 2; mkEdge "C" "B" (-3)].
      split; [split; [evaluate|done]|]. split; [split; [evaluate|done]|].
      reflexivity.
Qed.

(** C2, amended.  On a graph in which the source exists and every weight
    is at most [2^53 / (|V| * |E| + 1)] in absolute value, so that no
    sum is rounded, [bellmanFord] ends on a [negative-cycle] step exactly
    when a cycle of negative weight can be reached from the source.
    Whatever the weights, a returned sequence that holds a
    [negative-cycle] step holds no [complete] step.  On nodes A, B with
    edges (A,B,1), (B,A,-3) it ends on a [negative-cycle] step for either
    source and any destination. *)
Theorem bellmanFord_negative_cycle :
  (∀ nodes edges source dest fuel,
     graph_wf nodes edges → source ∈ ids nodes →
     (safe_weights nodes edges →
      ((∃ steps c,
          bellmanFord fuel nodes edges source dest = Some steps ∧
          last steps = Some c ∧ type c = negative_cycle) ↔
       negative_cycle_reachable edges source)) ∧
     (∀ steps,
        bellmanFord fuel nodes edges source dest = Some steps →
        (∃ c, c ∈ steps ∧ type c = negative_cycle) →
        ∀ s, s ∈ steps → type s ≠ complete)) ∧
  (∀ source dest fuel,
     source ∈ ids ex3_nodes →
     ∃ steps c,
       bellmanFord fuel ex3_nodes ex3_edges source dest = Some steps ∧
       last steps = Some c ∧ type c = negative_cycle).
Proof.
  split.
  - intros nodes edges source dest fuel Hwf Hs.
    pose proof (bf_final_struct nodes edges source) as Hinv.
    rewrite bellmanFord_unfold. cbv zeta. split.
    + intros Hsafe.
      rewrite <-(bf_final_negative_cycle nodes edges source Hwf Hs Hsafe).
      destruct (negativeCycleEdge _ _) as [e|].
      * split; [by eexists|]. intros _.
        eexists _, _. split; [done|]. split; [apply last_snoc|done].
      * split; [|by intros [? ?]].
        intros (steps & c & Hrun & Hlast & Hty).
        destruct (path_loop _ _ _ _) as [p|]; [|done].
        injection Hrun as <-. rewrite last_snoc in Hlast.
        injection Hlast as <-. done.
    + intros steps Hrun (c & Hc & Hty) s Hs'.
      destruct (negativeCycleEdge _ _) as [e|].
      * injection Hrun as <-.
        apply elem_of_app in Hs' as [Hs'| ->%list_elem_of_singleton]; [|done].
        by destruct (s_types _ _ _ Hinv s Hs').
      * destruct (path_loop _ _ _ _) as [p|]; [|done].
        injection Hrun as <-.
        apply elem_of_app in Hc as [Hc| ->%list_elem_of_singleton]; [|done].
        by destruct (s_types _ _ _ Hinv c Hc).
  - intros source dest fuel Hs.
    assert (source = "A" ∨ source = "B") as [-> | ->].
    { unfold ids, ex3_nodes in Hs. simpl in Hs.
      apply elem_of_cons in Hs as [->|Hs]; [by left|].
      apply list_elem_of_singleton in Hs as ->. by right. }
    + rewrite bellmanFord_unfold. cbv zeta.
      assert (is_Some (negativeCycleEdge (b_distances (bf_final ex3_nodes ex3_edges "A"))
                         ex3_edges)) as [e ->]
        by (vm_compute; by eexists).
      eexists _, _. split; [done|]. split; [apply last_snoc|done].
    + rewrite bellmanFord_unfold. cbv zeta.
      assert (is_Some (negativeCycleEdge (b_distances (bf_final ex3_nodes ex3_edges "B"))
                         ex3_edges)) as [e ->]
        by (vm_compute; by eexists).
      eexists _, _. split; [done|]. split; [apply last_snoc|done].
Qed.

Lemma bellmanFord_negative_cycle_witness :
  ((∃ steps c,
      bellmanFord 10 ex3_nodes ex3_edges "A" "B" = Some steps ∧
      last steps = Some c ∧ type c = negative_cycle) ↔
   negative_cycle_reachable ex3_edges "A") ∧
  (∀ steps,
     bellmanFord 10 ex3_nodes ex3_edges "A" "B" = Some steps →
     (∃ c, c ∈ steps ∧ type c = negative_cycle) →
     ∀ s, s ∈ steps → type s ≠ complete) ∧
  ∃ steps c,
    bellmanFord 10 ex3_nodes ex3_edges "B" "A" = Some steps ∧
    last steps = Some c ∧ type c = negative_cycle.
Proof.
  destruct (proj1 bellmanFord_negative_cycle ex3_nodes ex3_edges "A" "B" 10%nat)
    as [H1 H2].
  - apply graph_wf_Forall. evaluate.
  - evaluate.
  - split; [apply H1; evaluate|]. split; [exact H2|].
    apply (proj2 bellmanFord_negative_cycle "B" "A" 10%nat).
    evaluate.
Defined.

(** ** Dijkstra against Bellman-Ford *)


Lemma dijkstra_path_is_path nodes edges source dest st fuel x p :
  dijkstra_inv nodes edges source st → d_small nodes edges st →
  source ∈ ids nodes → safe_weights nodes edges →
  d_distances st !! dest = Some (Fin x) →
  path_loop fuel (d_previous st) (Id dest) [] = Some p →
  ∃ es, is_path edges source es dest ∧ total_weight es = x ∧
        p = map Id (visited source es).
Proof.
  intros Hinv Hsmall Hs Hsafe Hx Hp.
  apply (path_loop_is_path edges source (d_distances st) (d_previous st))
    with (fuel := fuel); try done; try apply Hinv.
  - intros u v Hu. by apply (tight_exact nodes edges source Hs Hsafe st).
  - intros v Hv. apply (inv_dom_prev _ _ _ _ Hinv).
    by apply (inv_dom_d _ _ _ _ Hinv) in Hv as [->|?]%elem_of_cons.
Qed.

Lemma bf_path_is_path nodes edges source dest fuel x p :
  graph_wf nodes edges → source ∈ ids nodes → safe_weights nodes edges →
  negativeCycleEdge (b_distances (bf_final nodes edges source)) edges = None →
  b_distances (bf_final nodes edges source) !! dest = Some (Fin x) →
  path_loop fuel (b_previous (bf_final nodes edges source)) (Id dest) [] = Some p →
  ∃ es, is_path edges source es dest ∧ total_weight es = x ∧
        p = map Id (visited source es).
Proof.
  intros Hwf Hs Hsafe Hn Hx Hp.
  pose proof (bf_final_inv nodes edges source Hsafe) as Hinv.
  pose proof (proj1 (negativeCycleEdge_None _ _) Hn) as Hset.
  apply (path_loop_is_path edges source (b_distances (bf_final nodes edges source))
           (b_previous (bf_final nodes edges source))) with (fuel := fuel);
    try done.
  - intros u v Hu.
    destruct (bf_pred _ _ _ _ Hinv u v Hu) as (c & xu & yv & He & Hxu & Hyv & Hle).
    exists c, xu. split; [done|]. split; [done|].
    pose proof (relaxable_false_exact edges (weight_bound nodes edges)
                  (safe_le nodes edges Hsafe) (final_bound nodes edges)
                  _ _ xu He (bf_final_small nodes edges source Hsafe)
                  (final_room nodes edges) (Hset _ He) Hxu) as Hlt.
    simpl in Hlt. rewrite Hyv in Hlt. simpl in Hlt.
    apply bool_decide_eq_false in Hlt. rewrite Hyv. do 2 f_equal. lia.
  - apply Hinv.
  - apply (settled_source_zero nodes edges source Hwf Hsafe (final_bound nodes edges));
      [by apply bf_final_inv_at|apply final_room|done].
  - intros v Hv. apply (bf_dom_prev _ _ _ _ Hinv).
    by apply (bf_dom_d _ _ _ _ Hinv) in Hv as [->|?]%elem_of_cons.
Qed.



(** ** Running a tracer from the component *)

Lemma handleWeightSubmit_safe st : dijkstra_safe st → dijkstra_safe (handleWeightSubmit st).
Proof.
  unfold dijkstra_safe, handleWeightSubmit. intros Hsafe.
  destruct (bool_decide (ui_algorithm st = Dijkstra) && negative_num _) eqn:Hneg.
  { exact Hsafe. }
  destruct (parseInt (ui_weightInput st)) as [w|] eqn:Hw; [|exact Hsafe].
  destruct (ui_pendingEdge st) as [[pfrom pto]|]; [|exact Hsafe].
  destruct (truthy_num (Some w)); [|exact Hsafe].
  assert (ui_algorithm st = Dijkstra → 0 <= w) as Hpos.
  { intros Ha. rewrite Ha in Hneg. simpl in Hneg.
    apply bool_decide_eq_false in Hneg. lia. }
  destruct (ui_direction st); cbn; intros Ha e He.
  - apply elem_of_app in He as [He| ->%list_elem_of_singleton]; [auto|].
    simpl. auto.
  - apply elem_of_app in He as [He|He]; [auto|].
    apply elem_of_cons in He as [->|He]; [simpl; auto|].
    apply list_elem_of_singleton in He as ->. simpl. auto.
Qed.

Lemma algorithmChange_safe value st :
  dijkstra_safe st → dijkstra_safe (algorithmChange value st).
Proof.
  unfold dijkstra_safe, algorithmChange. intros Hsafe.
  destruct (bool_decide (value = Dijkstra) && _) eqn:Hb; [exact Hsafe|].
  cbn. intros -> e He. rewrite bool_decide_eq_true_2 in Hb by done. simpl in Hb.
  apply bool_decide_eq_false in Hb.
  destruct (decide (weight e < 0)) as [Hneg|]; [|lia].
  exfalso. apply Hb.
  assert (e ∈ filter (fun e => weight e < 0) (ui_edges st)) as Hin
    by (by apply list_elem_of_filter).
  destruct (filter _ _); [by apply elem_of_nil in Hin|simpl; lia].
Qed.

Lemma handleCanvasMouseDown_safe px py st :
  dijkstra_safe st → dijkstra_safe (handleCanvasMouseDown px py st).
Proof.
  unfold dijkstra_safe, handleCanvasMouseDown. intros Hsafe.
  destruct (ui_isAnimating st); [exact Hsafe|].
  destruct (find (hit px py) (ui_nodes st)) as [c|], (ui_mode st);
    try exact Hsafe.
  - destruct (ui_connectingFrom st) as [cf|]; [|exact Hsafe].
    destruct (truthy_id (Some cf)); [|exact Hsafe].
    case_bool_decide; exact Hsafe.
  - assert (∀ e, e ∈ filter (fun e => from e ≠ id c ∧ to e ≠ id c) (ui_edges st) →
                 e ∈ ui_edges st) as Hsub
      by (by intros e [_ ?]%list_elem_of_filter).
    repeat case_bool_decide; cbn; intros Ha e He; apply Hsafe; auto.
Qed.

(** The handlers keep negative weights away from Dijkstra. *)
Lemma ui_step_safe st ev st' : ui_step st ev st' → dijkstra_safe st → dijkstra_safe st'.
Proof.
  intros Hstep Hsafe. destruct Hstep; try exact Hsafe.
  - by apply handleCanvasMouseDown_safe.
  - unfold handleCanvasMouseMove. destruct (ui_draggingNode st) as [d|]; [|done].
    destruct (truthy_id (Some d)); done.
  - by apply handleWeightSubmit_safe.
  - by apply algorithmChange_safe.
  - by destruct m.
  - unfold runAlgorithm in *.
    destruct (ui_sourceNode st) as [s|], (ui_destNode st) as [d|];
      try (injection H0 as <-; exact Hsafe).
    destruct (_ || _); [injection H0 as <-; exact Hsafe|].
    destruct (match ui_algorithm st with Dijkstra => _ | BellmanFord => _ end);
      [|done].
    injection H0 as <-. exact Hsafe.
  - unfold nextStep. case_bool_decide; done.
  - intros _ e He. cbn in He. by apply elem_of_nil in He.
Qed.

Lemma ui_reachable_safe st : ui_reachable st → dijkstra_safe st.
Proof.
  induction 1 as [|st ev st' _ IH Hstep].
  - intros _ e He. by apply elem_of_nil in He.
  - by eapply ui_step_safe.
Qed.

(** C4 does not hold for negative weights: neither [runAlgorithm] nor
    [dijkstra] looks at the weights.  Handed a graph with the edge
    N0→N1 of weight -1, the tracer runs and returns its steps. *)
Lemma dijkstra_negative_edge_counterexample :
  (∃ e, e ∈ ui_edges negative_state ∧ weight e < 0) ∧
  ui_algorithm negative_state = Dijkstra ∧
  ∃ steps st',
    dijkstra 10 (ui_nodes negative_state) (ui_edges negative_state) "N0" "N1"
      = Some steps ∧
    steps ≠ [] ∧
    runAlgorithm 10 negative_state = Some st' ∧
    ui_steps st' = steps ∧ ui_toasts st' = [] ∧ ui_isAnimating st' = true.
Proof.
  split.
  { exists (mkEdge "N0" "N1" (-1)). split; [evaluate|simpl; lia]. }
  split; [done|].
  eexists _, _. split; [vm_compute; reflexivity|]. split; [done|].
  split; [vm_compute; reflexivity|]. done.
Qed.

(** C4, amended.  [runAlgorithm] refuses to run (it reports an error and
    changes nothing else, so no step is emitted) when the source or the
    destination is unset or the edge set is empty, and only then:
    otherwise it stores the steps of the selected tracer, whatever the
    weights.  Negative weights are kept away from Dijkstra before that:
    in every state the component can reach, if Dijkstra is selected then
    no edge has a negative weight. *)
Theorem runAlgorithm_refusal :
  (∀ fuel st,
     truthy_id (ui_sourceNode st) = false ∨ truthy_id (ui_destNode st) = false ∨
     ui_edges st = [] →
     runAlgorithm fuel st = Some (toast_error refusal_message st)) ∧
  (∀ fuel st s d,
     ui_sourceNode st = Some s → ui_destNode st = Some d →
     truthy_id (Some s) = true → truthy_id (Some d) = true → ui_edges st ≠ [] →
     runAlgorithm fuel st =
       match (match ui_algorithm st with
              | Dijkstra => dijkstra fuel (ui_nodes st) (ui_edges st) s d
              | BellmanFord => bellmanFord fuel (ui_nodes st) (ui_edges st) s d
              end) with
       | Some steps => Some (set_isAnimating true (set_currentStep 0 (set_steps steps st)))
       | None => None
       end) ∧
  (∀ st, ui_reachable st → ui_algorithm st = Dijkstra →
         ∀ e, e ∈ ui_edges st → 0 <= weight e).
Proof.
  split; [|split].
  - intros fuel st H. unfold runAlgorithm.
    destruct (ui_sourceNode st) as [s|], (ui_destNode st) as [d|]; try done.
    destruct H as [Hs|[Hd|He]].
    + by rewrite Hs.
    + rewrite Hd. by rewrite orb_true_r.
    + rewrite He. simpl. by rewrite orb_true_r.
  - intros fuel st s d Hs Hd Hts Htd He. unfold runAlgorithm.
    rewrite Hs, Hd, Hts, Htd. simpl.
    rewrite bool_decide_eq_false_2; [done|]. by destruct (ui_edges st).
  - intros st Hr. by apply ui_reachable_safe.
Qed.

Lemma ui_run_reachable fuel evs st st' :
  ui_reachable st → ui_run fuel evs st = Some st' → ui_reachable st'.
Proof.
  revert st. induction evs as [|ev evs IH]; intros st Hr; simpl.
  { by intros [= <-]. }
  destruct (ui_handle fuel st ev) as [st1|] eqn:Hh; [|done].
  apply IH.
  destruct ev; simpl in Hh;
    try (injection Hh as <-;
         repeat match goal with
                | |- context [if ?b then _ else _] => destruct b eqn:?
                end;
         try done;
         eapply reach_step; [exact Hr|]; by constructor).
  - injection Hh as <-. destruct (ui_showWeightModal st) eqn:?; simpl; [|done].
    destruct (ui_isAnimating st) eqn:?; simpl; [done|].
    eapply reach_step; [exact Hr|]. by constructor.
  - destruct (ui_isAnimating st) eqn:?; [by injection Hh as <-|].
    eapply reach_step; [exact Hr|]. by econstructor.
  - injection Hh as <-. destruct (ui_isAnimating st) eqn:?; simpl; [|done].
    case_bool_decide; [|done].
    eapply reach_step; [exact Hr|]. by constructor.
  - injection Hh as <-. case_bool_decide; [|done].
    eapply reach_step; [exact Hr|]. by constructor.
Qed.

Lemma runAlgorithm_refusal_witness :
  runAlgorithm 10 ui_initial = Some (toast_error refusal_message ui_initial) ∧
  ∃ st,
    ui_run 10 one_edge_events ui_initial = Some st ∧
    ui_edges st = [mkEdge "N0" "N1" 5] ∧
    (∀ e, e ∈ ui_edges st → 0 <= weight e).
Proof.
  split.
  - apply (proj1 runAlgorithm_refusal 10%nat ui_initial). left. reflexivity.
  - assert (∃ st, ui_run 10 one_edge_events ui_initial = Some st ∧
                  ui_edges st = [mkEdge "N0" "N1" 5] ∧
                  ui_algorithm st = Dijkstra) as (st & Hrun & He & Ha).
    { eexists. split; [vm_compute; reflexivity|]. split; reflexivity. }
    exists st. split; [done|]. split; [done|].
    apply (proj2 (proj2 runAlgorithm_refusal) st); [|done].
    by eapply ui_run_reachable; [apply reach_initial|].
Defined.

(** ** Authoring edges and nodes *)

(** What [handleWeightSubmit] does with the parsed weight [w]: a negative
    weight under Dijkstra is reported and nothing else changes; a weight
    that is [NaN] or 0 inserts nothing and reports nothing; any other
    weight inserts one edge, or two for a bidirectional one. *)
Lemma handleWeightSubmit_edges st :
  let w := parseInt (ui_weightInput st) in
  if bool_decide (ui_algorithm st = Dijkstra) && negative_num w then
    handleWeightSubmit st
      = toast_error "Dijkstra's algorithm must have positive weight edges only." st
  else
    ui_toasts (handleWeightSubmit st) = ui_toasts st ∧
    ui_edges (handleWeightSubmit st) =
      match w, ui_pendingEdge st with
      | Some z, Some (a, b) =>
        if bool_decide (z = 0) then ui_edges st
        else match ui_direction st with
             | Uni => ui_edges st ++ [mkEdge a b z]
             | Bi => ui_edges st ++ [mkEdge a b z; mkEdge b a z]
             end
      | _, _ => ui_edges st
      end.
Proof.
  cbv zeta. unfold handleWeightSubmit.
  destruct (bool_decide (ui_algorithm st = Dijkstra) && negative_num _); [done|].
  destruct (parseInt (ui_weightInput st)) as [z|]; [|done].
  destruct (ui_pendingEdge st) as [[a b]|]; [|done].
  unfold truthy_num. destruct (decide (z = 0)) as [->|Hz].
  - done.
  - rewrite bool_decide_eq_true_2 by done. rewrite bool_decide_eq_false_2 by done.
    by destruct (ui_direction st).
Qed.

(** C8 at weight 0.  Two nodes are placed, Bellman-Ford is selected, an
    edge N0→N1 is proposed and the weight 0 is submitted: the dialog
    closes, nothing is reported, and no edge has been inserted. *)
Theorem zero_weight_edge_dropped :
  parseInt "0" = Some 0 ∧
  ∃ st1 st2,
    ui_run 10 (removelast zero_weight_events) ui_initial = Some st1 ∧
    ui_pendingEdge st1 = Some ("N0", "N1") ∧ ui_weightInput st1 = "0" ∧
    ui_showWeightModal st1 = true ∧ ui_algorithm st1 = BellmanFord ∧
    ui_run 10 zero_weight_events ui_initial = Some st2 ∧
    st2 = handleWeightSubmit st1 ∧
    ui_edges st2 = [] ∧ ui_toasts st2 = [] ∧ ui_showWeightModal st2 = false.
Proof.
  split; [reflexivity|].
  eexists _, _. split; [vm_compute; reflexivity|].
  split; [reflexivity|]. split; [reflexivity|]. split; [reflexivity|].
  split; [reflexivity|]. split; [vm_compute; reflexivity|].
  split; [vm_compute; reflexivity|].
  split; [reflexivity|]. split; reflexivity.
Qed.

(** C9 after a deletion.  Two nodes N0 and N1 are placed, N0 is deleted,
    and a new node is placed: it receives the id N1, which the remaining
    node already has. *)
Theorem node_id_reused_after_delete :
  ∃ st0 st,
    ui_run 10 (removelast delete_then_add_events) ui_initial = Some st0 ∧
    ids (ui_nodes st0) = ["N1"] ∧
    ui_run 10 delete_then_add_events ui_initial = Some st ∧
    st = handleCanvasMouseDown 100 100 st0 ∧
    ids (ui_nodes st) = ["N1"; "N1"] ∧
    ¬ NoDup (ids (ui_nodes st)).
Proof.
  eexists _, _. split; [vm_compute; reflexivity|].
  split; [reflexivity|]. split; [vm_compute; reflexivity|].
  split; [vm_compute; reflexivity|]. split; [reflexivity|].
  intros Hnd. vm_compute in Hnd. apply NoDup_cons in Hnd as [Hnin _].
  apply Hnin. by left.
Qed.

(** * Further properties *)

(** ** The priority queue as a whole *)

(** A test of the heap order that evaluates. *)
Definition heap_okb (h : list entry) : bool :=
  forallb (fun i => bool_decide (HeapFacts.prio h ((i - 1) / 2) <= HeapFacts.prio h i))
          (seq 1 (length h - 1)).

Lemma heap_okb_ok h : heap_okb h = true → HeapFacts.heap_ok h.
Proof.
  unfold heap_okb. rewrite forallb_forall. intros H k i Hc Hi.
  assert (k = ((i - 1) / 2)%nat ∧ (1 <= i)%nat) as [-> Hi1].
  { unfold HeapFacts.child in Hc.
    destruct Hc as [-> | ->].
    - replace (2 * k + 1 - 1)%nat with (k * 2)%nat by lia.
      rewrite Nat.div_mul by done. lia.
    - replace (2 * k + 2 - 1)%nat with (1 + k * 2)%nat by lia.
      rewrite Nat.div_add by done. simpl. lia. }
  specialize (H i). rewrite bool_decide_eq_true in H. apply H.
  apply in_seq. lia.
Qed.

Lemma push_all_ok l h : HeapFacts.heap_ok h → HeapFacts.heap_ok (push_all l h).
Proof.
  revert h. induction l as [|e l IH]; intros h Hh; [done|].
  apply IH. by apply HeapFacts.push_ok.
Qed.

Lemma push_all_perm l h : push_all l h ≡ₚ l ++ h.
Proof.
  revert h. induction l as [|e l IH]; intros h; [done|].
  cbn [push_all fold_left]. fold (push_all l (MinHeap.push h (enode e) (priority e))).
  rewrite IH, HeapFacts.push_perm. destruct e as [n p]. cbn [enode priority].
  by rewrite <-Permutation_middle.
Qed.

Lemma pop_all_spec fuel h :
  HeapFacts.heap_ok h → (length h <= fuel)%nat →
  pop_all fuel h ≡ₚ h ∧
  StronglySorted (fun a b => priority a <= priority b) (pop_all fuel h).
Proof.
  revert h. induction fuel as [|fuel IH]; intros h Hh Hlen.
  - destruct h; [|simpl in Hlen; lia]. split; [done|constructor].
  - cbn [pop_all]. destruct (MinHeap.pop h) as [[m h']|] eqn:Hp.
    + destruct (HeapFacts.pop_Some _ _ _ Hh Hp) as (Hperm & Hh' & Hmin).
      pose proof (HeapFacts.pop_length _ _ _ Hp) as Hl.
      destruct (IH h' Hh' ltac:(lia)) as [IHp IHs].
      split; [by rewrite IHp, Hperm|].
      constructor; [done|]. apply Forall_forall. intros e He.
      apply Hmin. rewrite Hperm. right. by rewrite <-IHp.
    + apply HeapFacts.pop_None in Hp as ->. split; [done|constructor].
Qed.

(** X1. [push] keeps the heap order (no entry is below its parent),
    inserts exactly the new entry next to the entries that were there,
    and so makes the size grow by one. *)
Theorem push_keeps_heap_order h n p :
  HeapFacts.heap_ok h →
  HeapFacts.heap_ok (MinHeap.push h n p) ∧
  MinHeap.push h n p ≡ₚ mkEntry n p :: h ∧
  MinHeap.size (MinHeap.push h n p) = S (MinHeap.size h).
Proof.
  intros Hh. split; [by apply HeapFacts.push_ok|].
  split; [apply HeapFacts.push_perm|apply HeapFacts.push_length].
Qed.

Lemma push_keeps_heap_order_witness :
  let h := [mkEntry "a" 1; mkEntry "b" 3; mkEntry "c" 2] in
  HeapFacts.heap_ok h ∧
  HeapFacts.heap_ok (MinHeap.push h "d" 0) ∧
  MinHeap.push h "d" 0 ≡ₚ mkEntry "d" 0 :: h ∧
  MinHeap.size (MinHeap.push h "d" 0) = 4%nat.
Proof.
  cbv zeta.
  assert (HeapFacts.heap_ok [mkEntry "a" 1; mkEntry "b" 3; mkEntry "c" 2]) as Hh
    by (apply heap_okb_ok; vm_compute; reflexivity).
  split; [exact Hh|].
  exact (push_keeps_heap_order _ "d" 0 Hh).
Defined.

(** X2. [pop] returns [null] on the empty queue only; on a queue in
    heap order it leaves the remaining entries in heap order, one fewer
    than before. *)
Theorem pop_keeps_heap_order h :
  (MinHeap.pop h = None ↔ h = []) ∧
  ∀ m h', HeapFacts.heap_ok h → MinHeap.pop h = Some (m, h') →
    HeapFacts.heap_ok h' ∧ MinHeap.size h = S (MinHeap.size h') ∧
    head h = Some m.
Proof.
  split; [apply HeapFacts.pop_None|].
  intros m h' Hh Hp.
  destruct (HeapFacts.pop_Some _ _ _ Hh Hp) as (_ & Hh' & _).
  split; [done|]. split; [by eapply HeapFacts.pop_length|].
  destruct (HeapFacts.heap_shape h) as [->|[[a ->]|(a & r & l & ->)]]; [done| |].
  - simpl in Hp. by injection Hp as <- <-.
  - rewrite HeapFacts.pop_cons_snoc in Hp. by injection Hp as <- <-.
Qed.

Lemma pop_keeps_heap_order_witness :
  let h := [mkEntry "a" 1; mkEntry "b" 3; mkEntry "c" 2; mkEntry "d" 4] in
  ∃ m h',
    HeapFacts.heap_ok h ∧ MinHeap.pop h = Some (m, h') ∧
    HeapFacts.heap_ok h' ∧ MinHeap.size h = S (MinHeap.size h') ∧
    head h = Some m.
Proof.
  cbv zeta. eexists _, _.
  assert (HeapFacts.heap_ok
            [mkEntry "a" 1; mkEntry "b" 3; mkEntry "c" 2; mkEntry "d" 4]) as Hh
    by (apply heap_okb_ok; vm_compute; reflexivity).
  split; [exact Hh|].
  split; [vm_compute; reflexivity|].
  apply (proj2 (pop_keeps_heap_order
                  [mkEntry "a" 1; mkEntry "b" 3; mkEntry "c" 2; mkEntry "d" 4])).
  - exact Hh.
  - vm_compute. reflexivity.
Defined.

(** X3. Pushing the entries of any list on an empty queue and then
    popping until the queue is empty returns every entry exactly once,
    in non-decreasing order of priority. *)
Theorem heap_drains_in_order (l : list entry) :
  pop_all (length l) (push_all l []) ≡ₚ l ∧
  StronglySorted (fun a b => priority a <= priority b)
                 (pop_all (length l) (push_all l [])).
Proof.
  pose proof (push_all_perm l []) as Hperm. rewrite app_nil_r in Hperm.
  destruct (pop_all_spec (length l) (push_all l [])) as [H1 H2].
  - apply push_all_ok, HeapFacts.heap_ok_nil.
  - by rewrite Hperm.
  - split; [by rewrite H1|done].
Qed.

(** ** The loops of the queue are logarithmic *)

Lemma bubbleUp_loop_more f g h k :
  (k + 1 < 2 ^ (f + 1))%nat →
  MinHeap.bubbleUp_loop f h k = MinHeap.bubbleUp_loop (f + g) h k.
Proof.
  revert h k. induction f as [|f IH]; intros h k Hk.
  - assert (k = 0)%nat as -> by (simpl in Hk; lia).
    destruct g; done.
  - change (S f + g)%nat with (S (f + g)). cbn [MinHeap.bubbleUp_loop].
    case_bool_decide as Hpos; [|done].
    destruct (h !! ((k - 1) / 2)%nat), (h !! k); try done.
    case_bool_decide; [done|]. apply IH.
    pose proof (HeapFacts.parent_child k Hpos) as Hc. unfold HeapFacts.child in Hc.
    replace (S f + 1)%nat with (S (f + 1)) in Hk by lia.
    rewrite Nat.pow_succ_r' in Hk. lia.
Qed.

Lemma bubbleDown_loop_more f g h k :
  (length h < (k + 1) * 2 ^ (f + 1))%nat →
  MinHeap.bubbleDown_loop f h k = MinHeap.bubbleDown_loop (f + g) h k.
Proof.
  revert h k. induction f as [|f IH]; intros h k Hk.
  - simpl in Hk. destruct g as [|g]; [done|].
    cbn [MinHeap.bubbleDown_loop Nat.add]. cbv zeta.
    destruct (MinHeap.lower h (2 * k + 1) k) eqn:HL;
      [apply HeapFacts.lower_true in HL; lia|].
    destruct (MinHeap.lower h (2 * k + 2) k) eqn:HR;
      [apply HeapFacts.lower_true in HR; lia|].
    by rewrite bool_decide_eq_true_2.
  - change (S f + g)%nat with (S (f + g)). cbn [MinHeap.bubbleDown_loop]. cbv zeta.
    case_bool_decide as Hs; [done|].
    apply IH. rewrite HeapFacts.swap_length.
    replace (S f + 1)%nat with (S (f + 1)) in Hk by lia.
    rewrite Nat.pow_succ_r' in Hk.
    repeat match goal with
           | |- context [MinHeap.lower ?a ?b ?c] => destruct (MinHeap.lower a b c)
           end; nia.
Qed.

(** X4. The loops of the queue end after logarithmically many
    rounds: [bubbleUp] from [index] has come to rest after [f] rounds as
    soon as [index + 1 < 2^(f+1)], and [bubbleDown] from [index] as soon
    as [length < (index + 1) * 2^(f+1)]; further rounds change
    nothing. *)
Theorem heap_loops_logarithmic (h : list entry) (index f : nat) :
  ((index + 1 < 2 ^ (f + 1))%nat →
   ∀ fuel, (f <= fuel)%nat →
     MinHeap.bubbleUp_loop fuel h index = MinHeap.bubbleUp h index) ∧
  ((length h < (index + 1) * 2 ^ (f + 1))%nat →
   ∀ fuel, (f <= fuel)%nat →
     MinHeap.bubbleDown_loop fuel h index = MinHeap.bubbleDown h index).
Proof.
  split.
  - intros Hk fuel Hf.
    replace fuel with (f + (fuel - f))%nat by lia.
    rewrite <-bubbleUp_loop_more by done.
    rewrite (bubbleUp_loop_more f index) by done.
    apply HeapFacts.bubbleUp_loop_fuel. lia.
  - intros Hk fuel Hf.
    replace fuel with (f + (fuel - f))%nat by lia.
    rewrite <-bubbleDown_loop_more by done.
    rewrite (bubbleDown_loop_more f (length h)) by done.
    apply HeapFacts.bubbleDown_loop_fuel. lia.
Qed.

Lemma heap_loops_logarithmic_witness :
  let h := [mkEntry "a" 1; mkEntry "b" 3; mkEntry "c" 2; mkEntry "d" 4;
            mkEntry "e" 5; mkEntry "f" 6; mkEntry "g" 0] in
  ((6 + 1 < 2 ^ (2 + 1))%nat ∧
   MinHeap.bubbleUp_loop 2 h 6 = MinHeap.bubbleUp h 6) ∧
  ((length h < (0 + 1) * 2 ^ (2 + 1))%nat ∧
   MinHeap.bubbleDown_loop 2 h 0 = MinHeap.bubbleDown h 0).
Proof.
  cbv zeta. split.
  - split; [vm_compute; lia|].
    apply (proj1 (heap_loops_logarithmic _ 6 2)); [vm_compute; lia|lia].
  - split; [vm_compute; lia|].
    apply (proj2 (heap_loops_logarithmic _ 0 2)); [vm_compute; lia|lia].
Defined.

(** ** What the tracers write on [steps] *)

Lemma dist_le_refl a : dist_le a a.
Proof. destruct a as [[x|]|]; simpl; done || lia. Qed.

Lemma dist_le_trans a b c : dist_le a b → dist_le b c → dist_le a c.
Proof.
  destruct a as [[x|]|], b as [[y|]|], c as [[z|]|]; simpl; try done; lia.
Qed.

Lemma dist_le_insert (d : gmap string dist) t a v :
  jslt (Some (Fin a)) (d !! t) = true → dist_le (<[t := Fin a]> d !! v) (d !! v).
Proof.
  intros Hlt. destruct (decide (v = t)) as [->|Hne].
  - rewrite lookup_insert_eq.
    apply jslt_true in Hlt as (x & [= <-] & [->|(y & -> & Hxy)]); simpl; [done|lia].
  - rewrite lookup_insert_ne by done. apply dist_le_refl.
Qed.

(** A later step [s2] shows no distance above the one shown by [s1],
    and shows the nodes that [s1] lists as permanent at the distance
    listed there. *)
Definition step_down (s1 s2 : step) : Prop :=
  (∀ v, dist_le (distances s2 !! v) (distances s1 !! v)) ∧
  (∀ p, p ∈ permanent s1 → distances s2 !! pnode p = pdistance p).

(** The steps written so far, against the current distances [d] and
    the current permanent set [perm]. *)
Definition dist_log (steps : list step) (d : gmap string dist) (perm : list string) : Prop :=
  StronglySorted step_down steps ∧
  ∀ s, s ∈ steps →
    (∀ v, dist_le (d !! v) (distances s !! v)) ∧
    (∀ p, p ∈ permanent s →
       pnode p ∈ perm ∧ pdistance p = distances s !! pnode p ∧
       d !! pnode p = pdistance p).

Lemma dist_log_weaken steps d perm d' perm' :
  dist_log steps d perm →
  (∀ v, dist_le (d' !! v) (d !! v)) →
  (∀ v, v ∈ perm → d' !! v = d !! v) →
  (∀ v, v ∈ perm → v ∈ perm') →
  dist_log steps d' perm'.
Proof.
  intros [Hs Hall] Hle Hagree Hsub. split; [done|].
  intros s Hin. destruct (Hall s Hin) as [H1 H2]. split.
  - intros v. eapply dist_le_trans; [apply Hle|apply H1].
  - intros p Hp. destruct (H2 p Hp) as (Hperm & Hself & Hd).
    split; [auto|]. split; [done|]. by rewrite Hagree.
Qed.

Lemma dist_log_snoc steps d perm s :
  dist_log steps d perm →
  distances s = d →
  (∀ p, p ∈ permanent s → pnode p ∈ perm ∧ pdistance p = d !! pnode p) →
  dist_log (steps ++ [s]) d perm.
Proof.
  intros [Hs Hall] Hd Hp. split.
  - apply StronglySorted_app_2; [|done|repeat constructor].
    intros s1 s2 H1 ->%list_elem_of_singleton.
    destruct (Hall s1 H1) as [Hle Hfro]. split.
    + intros v. rewrite Hd. apply Hle.
    + intros p Hin. rewrite Hd. by apply Hfro.
  - intros s' [Hin| ->%list_elem_of_singleton]%elem_of_app; [by apply Hall|].
    split.
    + intros v. rewrite Hd. apply dist_le_refl.
    + intros p Hin. destruct (Hp p Hin) as [H1 H2].
      split; [done|]. split; [by rewrite Hd|done].
Qed.

(** Reading a strongly sorted list by positions. *)
Lemma StronglySorted_lookup {A} (R : A → A → Prop) (l : list A) i j a b :
  StronglySorted R l → (i < j)%nat → l !! i = Some a → l !! j = Some b → R a b.
Proof.
  intros Hs. revert i j. induction Hs as [|x l Hs IH Hall]; intros i j Hij Hi Hj; [done|].
  destruct j as [|j]; [lia|]. destruct i as [|i].
  - injection Hi as <-. rewrite Forall_forall in Hall.
    apply Hall. by eapply list_elem_of_lookup_2.
  - apply (IH i j); [lia|done..].
Qed.

Section DijkstraLog.
Context (nodes : list node) (edges : list edge) (source dest : string).

(** *** The step written by [relax] *)

Inductive relax_pushed (cur : string) (pA tA : list pentry) (st : dstate)
          (t : string) (w : Z) (st' : dstate) : Prop :=
| pushed_nothing :
    t ∈ d_permanent st → st' = st →
    relax_pushed cur pA tA st t w st'
| pushed_update s a :
    t ∉ d_permanent st →
    jsadd (d_distances st !! cur) w = Some (Fin a) →
    jslt (Some (Fin a)) (d_distances st !! t) = true →
    d_distances st' = <[t := Fin a]> (d_distances st) →
    d_previous st' = <[t := Some cur]> (d_previous st) →
    d_heap st' = MinHeap.push (d_heap st) t a →
    d_permanent st' = d_permanent st →
    d_steps st' = d_steps st ++ [s] →
    type s = update → current s = Some cur → updated s = Some (UNode t) →
    distances s = d_distances st' → previous s = d_previous st' →
    permanent s = pA → tentative s = getAll (d_heap st') →
    activeEdges s = [edgeKey cur t] →
    relax_pushed cur pA tA st t w st'
| pushed_no_update s :
    t ∉ d_permanent st →
    jslt (jsadd (d_distances st !! cur) w) (d_distances st !! t) = false →
    d_distances st' = d_distances st →
    d_previous st' = d_previous st →
    d_heap st' = d_heap st →
    d_permanent st' = d_permanent st →
    d_steps st' = d_steps st ++ [s] →
    type s = no_update → current s = Some cur → updated s = None →
    distances s = d_distances st' → previous s = d_previous st' →
    permanent s = pA → tentative s = tA →
    activeEdges s = [edgeKey cur t] →
    relax_pushed cur pA tA st t w st'.

Lemma relax_pushed_spec cur pA tA st t w :
  relax_pushed cur pA tA st t w (relax cur pA tA st (t, w)).
Proof.
  unfold relax. destruct (has (d_permanent st) t) eqn:Hhas.
  { apply pushed_nothing; [by apply has_true|done]. }
  apply has_false in Hhas.
  destruct (jsadd (d_distances st !! cur) w) as [[a|]|] eqn:Halt.
  - destruct (jslt (Some (Fin a)) (d_distances st !! t)) eqn:Hlt.
    + by eapply pushed_update.
    + eapply pushed_no_update; try done. by rewrite Halt.
  - eapply pushed_no_update; try done. by rewrite Halt.
  - eapply pushed_no_update; try done. by rewrite Halt.
Qed.

(** *** The step written when a node is extracted *)

Lemma dijkstra_round_stale st e heap' :
  enode e ∈ d_permanent st →
  dijkstra_round edges dest st e heap' =
    (mkDstate (d_distances st) (d_previous st) (d_permanent st) heap' (d_steps st),
     false).
Proof.
  intros Hin. unfold dijkstra_round.
  by rewrite (proj2 (has_true _ _) Hin).
Qed.

Lemma dijkstra_round_extract st e heap' :
  enode e ∉ d_permanent st →
  let pA := permanent_entries (d_distances st) (d_permanent st ++ [enode e]) in
  ∃ x,
    type x = extract ∧ current x = Some (enode e) ∧
    distances x = d_distances st ∧ previous x = d_previous st ∧
    permanent x = pA ∧ tentative x = getAll heap' ∧
    neighbors x = map fst (neighbors_of edges (enode e)) ∧
    dijkstra_round edges dest st e heap' =
      let st1 := mkDstate (d_distances st) (d_previous st)
                   (d_permanent st ++ [enode e]) heap' (d_steps st ++ [x]) in
      if bool_decide (enode e = dest) then (st1, true)
      else (fold_left (relax (enode e) pA (getAll heap'))
                      (neighbors_of edges (enode e)) st1, false).
Proof.
  intros Hnin. cbv zeta. unfold dijkstra_round.
  rewrite (proj2 (has_false _ _) Hnin).
  match goal with
  | |- context [d_steps st ++ [?s]] => exists s
  end.
  repeat (split; [reflexivity|]). reflexivity.
Qed.

(** *** The distances along the trace *)

Definition dist_logged (st : dstate) : Prop :=
  dist_log (d_steps st) (d_distances st) (d_permanent st).

Lemma dist_logged_relax cur pA tA st t w :
  (∀ p, p ∈ pA → pnode p ∈ d_permanent st ∧ pdistance p = d_distances st !! pnode p) →
  dist_logged st →
  let st' := relax cur pA tA st (t, w) in
  dist_logged st' ∧
  (∀ p, p ∈ pA → pnode p ∈ d_permanent st' ∧ pdistance p = d_distances st' !! pnode p).
Proof.
  intros HpA Hlog. cbv zeta. unfold dist_logged.
  destruct (relax_pushed_spec cur pA tA st t w)
    as [_ ->|s a Ht _ Hlt Hd _ _ Hperm Hs _ _ _ Hds _ Hps _ _
           |s _ _ Hd _ _ Hperm Hs _ _ _ Hds _ Hps _ _]; [done|..].
  - assert (∀ v, v ∈ d_permanent st →
              <[t := Fin a]> (d_distances st) !! v = d_distances st !! v) as Hagree.
    { intros v Hv. apply lookup_insert_ne. by intros ->. }
    assert (∀ p, p ∈ pA → pnode p ∈ d_permanent st ∧
              pdistance p = <[t := Fin a]> (d_distances st) !! pnode p) as HpA'.
    { intros p Hp. destruct (HpA p Hp) as [H1 H2]. split; [done|]. by rewrite Hagree. }
    rewrite Hs, Hd, Hperm. split; [|done].
    apply dist_log_snoc; [|by rewrite Hds, Hd|by rewrite Hps].
    eapply dist_log_weaken; [exact Hlog| |done|done].
    intros v. by apply dist_le_insert.
  - rewrite Hs, Hd, Hperm. split; [|done].
    apply dist_log_snoc; [done|by rewrite Hds, Hd|by rewrite Hps].
Qed.

Lemma dist_logged_round st e heap' :
  dist_logged st → dist_logged (fst (dijkstra_round edges dest st e heap')).
Proof.
  intros Hlog. destruct (decide (enode e ∈ d_permanent st)) as [Hin|Hnin].
  { by rewrite dijkstra_round_stale. }
  destruct (dijkstra_round_extract st e heap' Hnin)
    as (x & _ & _ & Hdx & _ & Hpx & _ & _ & ->). cbv zeta.
  set (pA := permanent_entries (d_distances st) (d_permanent st ++ [enode e])) in *.
  assert (∀ p, p ∈ pA → pnode p ∈ d_permanent st ++ [enode e] ∧
            pdistance p = d_distances st !! pnode p) as HpA.
  { intros p (v & -> & Hv)%list_elem_of_fmap. done. }
  set (st1 := mkDstate _ _ _ _ _).
  assert (dist_logged st1) as H1.
  { unfold dist_logged, st1. cbn [d_steps d_distances d_permanent].
    apply dist_log_snoc; [|done|by rewrite Hpx].
    eapply dist_log_weaken; [exact Hlog|intros v; apply dist_le_refl|done|].
    intros v Hv. apply elem_of_app. by left. }
  case_bool_decide; [done|]. cbn [fst].
  cut ((fun (_ : list (string * Z)) st' =>
          dist_logged st' ∧
          ∀ p, p ∈ pA → pnode p ∈ d_permanent st' ∧
                        pdistance p = d_distances st' !! pnode p)
         (neighbors_of edges (enode e))
         (fold_left (relax (enode e) pA (getAll heap'))
                    (neighbors_of edges (enode e)) st1)).
  { by intros [? _]. }
  apply (fold_left_prefix_ind (relax (enode e) pA (getAll heap'))); [done|].
  intros _ [t w] st' _ [Hl Hp]. by apply dist_logged_relax.
Qed.

Lemma dist_logged_init : dist_logged (dijkstra_init nodes source).
Proof.
  unfold dist_logged, dijkstra_init. destruct (init_maps nodes) as [d0 p0].
  cbn [d_steps d_distances d_permanent]. split; [repeat constructor|].
  intros s ->%list_elem_of_singleton. cbn [distances permanent]. split.
  - intros v. apply dist_le_refl.
  - by intros p ?%elem_of_nil.
Qed.

Lemma dist_logged_loop fuel st st' :
  dist_logged st → dijkstra_loop fuel edges dest st = Some st' → dist_logged st'.
Proof.
  apply (dijkstra_loop_rule edges dest dist_logged dist_logged); [done|].
  intros st0 e heap' Hlog _. cbv zeta.
  pose proof (dist_logged_round st0 e heap' Hlog).
  by destruct (snd _).
Qed.

(** *** The size of the trace *)

Lemma steps_of_snoc t l s :
  steps_of t (l ++ [s]) = steps_of t l ++ (if decide (type s = t) then [s] else []).
Proof.
  unfold steps_of. by rewrite filter_app.
Qed.

(** As many [extract] steps as permanent nodes, and at most one
    [update] or [no-update] step for each edge that leaves a permanent
    node. *)
Definition size_logged (st : dstate) : Prop :=
  length (steps_of extract (d_steps st)) = length (d_permanent st) ∧
  (length (steps_of update (d_steps st)) + length (steps_of no_update (d_steps st)) +
   length (filter (fun e => from e ∉ d_permanent st) edges) <= length edges)%nat.

Lemma size_fold_relax cur pA tA l st :
  let st' := fold_left (relax cur pA tA) l st in
  length (steps_of extract (d_steps st')) = length (steps_of extract (d_steps st)) ∧
  (length (steps_of update (d_steps st')) + length (steps_of no_update (d_steps st'))
   <= length (steps_of update (d_steps st)) + length (steps_of no_update (d_steps st))
      + length l)%nat.
Proof.
  cbv zeta. revert st. induction l as [|[t w] l IH]; intros st; cbn [fold_left length].
  { split; [done|lia]. }
  destruct (IH (relax cur pA tA st (t, w))) as [IH1 IH2].
  destruct (relax_pushed_spec cur pA tA st t w)
    as [_ Hs|s a _ _ _ _ _ _ _ Hs Hty _ _ _ _ _ _ _
           |s _ _ _ _ _ _ Hs Hty _ _ _ _ _ _ _].
  - rewrite Hs in *. split; [done|lia].
  - rewrite Hs, !steps_of_snoc, Hty in *. simpl in *.
    rewrite ?length_app, ?app_nil_r in *. simpl in *. split; lia.
  - rewrite Hs, !steps_of_snoc, Hty in *. simpl in *.
    rewrite ?length_app, ?app_nil_r in *. simpl in *. split; lia.
Qed.

Lemma size_logged_round st e heap' :
  size_logged st → size_logged (fst (dijkstra_round edges dest st e heap')).
Proof.
  unfold size_logged. intros [Hx Hr].
  destruct (decide (enode e ∈ d_permanent st)) as [Hin|Hnin].
  { by rewrite dijkstra_round_stale. }
  destruct (dijkstra_round_extract st e heap' Hnin)
    as (x & Hty & _ & _ & _ & _ & _ & _ & ->).
  cbv zeta.
  pose proof (filter_permanent_snoc (d_permanent st) (enode e) edges Hnin) as Hf.
  case_bool_decide; cbn [fst d_steps d_permanent].
  - rewrite !steps_of_snoc, Hty. simpl.
    rewrite ?length_app, ?app_nil_r. simpl. lia.
  - rewrite fold_relax_permanent. cbn [d_permanent].
    match goal with
    | |- context [fold_left (relax ?c ?a ?b) ?l ?s] =>
        destruct (size_fold_relax c a b l s) as [-> Hs]
    end.
    cbn [d_steps] in *. unfold neighbors_of in Hs at 3.
    rewrite length_map in Hs.
    rewrite !steps_of_snoc, Hty in *. simpl in *.
    rewrite !length_app, ?app_nil_r in *. simpl in *. lia.
Qed.

Lemma size_logged_init : size_logged (dijkstra_init nodes source).
Proof.
  pose proof (potential_init nodes edges source) as Hp.
  unfold potential, size_logged, dijkstra_init in *.
  destruct (init_maps nodes) as [d0 p0].
  cbn [d_steps d_heap d_permanent] in *.
  rewrite HeapFacts.push_length in Hp. split; [done|]. simpl in *. lia.
Qed.

Lemma size_logged_loop fuel st st' :
  size_logged st → dijkstra_loop fuel edges dest st = Some st' → size_logged st'.
Proof.
  apply (dijkstra_loop_rule edges dest size_logged size_logged); [done|].
  intros st0 e heap' Hlog _. cbv zeta.
  pose proof (size_logged_round st0 e heap' Hlog).
  by destruct (snd _).
Qed.

(** The permanent set lies within the source and the nodes. *)
Lemma permanent_bound st :
  dijkstra_inv nodes edges source st → source ∈ ids nodes →
  (length (d_permanent st) <= length nodes)%nat.
Proof.
  intros Hinv Hs. rewrite <-(length_fmap id nodes).
  apply submseteq_length, NoDup_submseteq; [apply Hinv|].
  intros v Hv.
  assert (v ∈ source :: ids nodes) as [->|?]%elem_of_cons; [|done..].
  by apply (inv_dom_d _ _ _ _ Hinv), (inv_perm_dom _ _ _ _ Hinv).
Qed.

(** *** The keys of the two maps *)

Definition dom_logged (st : dstate) : Prop :=
  (∀ v, v ∈ ids nodes → is_Some (d_distances st !! v)) ∧
  (∀ v, is_Some (d_previous st !! v) → v ∈ ids nodes).

Lemma dom_logged_relax cur pA tA st t w :
  cur ∈ d_permanent st → dijkstra_inv nodes edges source st → dom_logged st →
  dom_logged (relax cur pA tA st (t, w)).
Proof.
  intros Hcur Hinv [Hd Hp].
  destruct (relax_spec cur pA tA st t w)
    as [a Ht Halt Hlt Hd' Hp' _ _|_ Hd' Hp' _ _]; unfold dom_logged;
    rewrite Hd', Hp'; [|done].
  assert (t ∈ ids nodes) as Htn.
  { assert (is_Some (d_distances st !! t)) as Hdef.
    { apply jslt_true in Hlt as (x & _ & [->|(y & -> & _)]); by eexists. }
    apply (inv_dom_d _ _ _ _ Hinv) in Hdef as [->|?]%elem_of_cons; [|done].
    exfalso. apply Ht.
    destruct (inv_source_first _ _ _ _ Hinv) as [?|[Hnil _]]; [done|].
    rewrite Hnil in Hcur. by apply elem_of_nil in Hcur. }
  split.
  - intros v Hv. destruct (decide (v = t)) as [->|Hne].
    + by rewrite lookup_insert_eq.
    + rewrite lookup_insert_ne by done. auto.
  - intros v. destruct (decide (v = t)) as [->|Hne]; [done|].
    rewrite lookup_insert_ne by done. auto.
Qed.

Lemma dom_logged_round st e heap' :
  dijkstra_inv nodes edges source st → dom_logged st →
  MinHeap.pop (d_heap st) = Some (e, heap') →
  let r := fst (dijkstra_round edges dest st e heap') in
  dijkstra_inv nodes edges source r ∧ dom_logged r.
Proof.
  intros Hinv Hdom Hpop. cbv zeta.
  split; [by apply inv_round|].
  destruct (dijkstra_round_spec edges dest st e heap')
    as [_ _ Hd Hp _ _ _|st1 s Hnin Hd Hp Hperm Hh Hs _ _ Hst].
  { unfold dom_logged. by rewrite Hd, Hp. }
  assert (dom_logged st1) as Hdom1 by (unfold dom_logged; by rewrite Hd, Hp).
  assert (∀ x, x ∈ heap' → x ∈ d_heap st) as Hsub
    by (intros x Hx; rewrite (HeapFacts.pop_perm _ _ _ Hpop); by right).
  assert (e ∈ d_heap st) as He
    by (rewrite (HeapFacts.pop_perm _ _ _ Hpop); by left).
  assert (dijkstra_inv nodes edges source st1) as Hinv1.
  { destruct Hinv as [Hnd ? Hpp ? ? ? Hhd Hpd ? ? ? Hsf].
    constructor; rewrite ?Hd, ?Hp, ?Hh, ?Hperm; auto.
    - apply NoDup_app. split; [done|]. split; [|apply NoDup_singleton].
      by intros x Hx ->%list_elem_of_singleton.
    - intros u v Hu. apply elem_of_app. left. by eapply Hpp.
    - intros v [Hv| ->%list_elem_of_singleton]%elem_of_app; auto.
    - left. apply elem_of_app.
      destruct Hsf as [?|[_ Hall]]; [by left|].
      right. apply list_elem_of_singleton. symmetry. by apply Hall. }
  destruct (snd (dijkstra_round edges dest st e heap')).
  - by destruct Hst as [_ ->].
  - destruct Hst as [_ ->].
    cut ((fun (_ : list (string * Z)) st' =>
            enode e ∈ d_permanent st' ∧ dijkstra_inv nodes edges source st' ∧
            dom_logged st')
           (neighbors_of edges (enode e))
           (fold_left (relax (enode e)
                         (permanent_entries (d_distances st)
                            (d_permanent st ++ [enode e]))
                         (getAll heap'))
                      (neighbors_of edges (enode e)) st1)).
    { by intros (_ & _ & ?). }
    apply (fold_left_prefix_ind (relax (enode e) _ _)).
    + split; [|done]. rewrite Hperm. apply elem_of_app. right.
      by apply list_elem_of_singleton.
    + intros _ [t w] st' Hin (Hc & Hi & Hdm).
      apply elem_of_neighbors_of in Hin.
      split; [|split].
      * by destruct (relax_spec (enode e)
                       (permanent_entries (d_distances st) (d_permanent st ++ [enode e]))
                       (getAll heap') st' t w) as [|]; congruence.
      * by apply inv_relax.
      * by apply dom_logged_relax.
Qed.

Lemma dom_logged_init : dom_logged (dijkstra_init nodes source).
Proof.
  unfold dom_logged, dijkstra_init.
  pose proof (init_maps_lookup nodes) as Hl.
  destruct (init_maps nodes) as [d0 p0]. cbn [fst snd] in Hl.
  cbn [d_distances d_previous]. split.
  - intros v Hv. destruct (decide (v = source)) as [->|Hne].
    + by rewrite lookup_insert_eq.
    + rewrite lookup_insert_ne by done. destruct (Hl v) as [-> _].
      by rewrite decide_True.
  - intros v. destruct (Hl v) as [_ ->]. case_decide; [done|by intros [? ?]].
Qed.

Lemma dom_logged_loop fuel st' :
  dijkstra_loop fuel edges dest (dijkstra_init nodes source) = Some st' →
  dijkstra_inv nodes edges source st' ∧ dom_logged st'.
Proof.
  apply (dijkstra_loop_rule edges dest
           (fun st => dijkstra_inv nodes edges source st ∧ dom_logged st)
           (fun st => dijkstra_inv nodes edges source st ∧ dom_logged st)); [done| |].
  - intros st0 e heap' [Hinv Hdom] Hpop. cbv zeta.
    pose proof (dom_logged_round st0 e heap' Hinv Hdom Hpop).
    by destruct (snd _).
  - split; [apply inv_init|apply dom_logged_init].
Qed.

End DijkstraLog.

(** *** The rounds of the Dijkstra trace *)

(** A step written while the neighbours of a node are relaxed. *)
Definition relax_kind (s : step) : Prop := type s = update ∨ type s = no_update.

Definition mid_kind (s : step) : Prop := type s = extract ∨ relax_kind s.

(** An [extract] step names the node it extracts, and lists it last in
    its permanent set, at the distance the step shows for it. *)
Definition extract_ok (x : step) : Prop :=
  ∃ v, current x = Some v ∧
       last (permanent x) = Some (mkPentry v (distances x !! v)).

(** The step [s] at position [j] belongs to the round opened by the
    nearest [extract] step before it. *)
Definition round_of (l : list step) (j : nat) (s : step) : Prop :=
  ∃ i x, (i < j)%nat ∧ l !! i = Some x ∧ type x = extract ∧
         current s = current x ∧ permanent s = permanent x ∧
         (type s = no_update → tentative s = tentative x) ∧
         ∀ k y, (i < k < j)%nat → l !! k = Some y → relax_kind y.

(** The round of [x] is still open at the end of [l]. *)
Definition open_round (l : list step) (x : step) : Prop :=
  ∃ i, l !! i = Some x ∧ type x = extract ∧
       ∀ k y, (i < k)%nat → l !! k = Some y → relax_kind y.

Section DijkstraShape.
Context (nodes : list node) (edges : list edge) (source dest : string).

Record shape_ok (l : list step) : Prop := {
  shape_head : ∃ s0 rest,
    l = s0 :: rest ∧ type s0 = init ∧ Forall mid_kind rest ∧
    ∀ x, head rest = Some x → type x = extract ∧ current x = Some source;
  shape_round : ∀ j s, l !! j = Some s → relax_kind s → round_of l j s;
  shape_extract : ∀ x, x ∈ l → type x = extract → extract_ok x
}.

Lemma round_of_app l l' j s :
  (j <= length l)%nat → round_of l j s → round_of (l ++ l') j s.
Proof.
  intros Hj (i & x & Hij & Hi & Hty & Hc & Hp & Ht & Hk).
  exists i, x. split; [done|]. split; [by apply lookup_app_l_Some|].
  do 4 (split; [done|]).
  intros k y Hik Hy. apply (Hk k y Hik).
  by rewrite lookup_app_l in Hy by lia.
Qed.

Lemma shape_snoc_extract l x :
  shape_ok l → type x = extract → extract_ok x →
  (length l = 1%nat → current x = Some source) →
  shape_ok (l ++ [x]) ∧ open_round (l ++ [x]) x.
Proof.
  intros [(s0 & rest & -> & Hs0 & Hall & Hhead) Hround Hext] Hty Hx Hfirst.
  split; [constructor|].
  - exists s0, (rest ++ [x]). split; [done|]. split; [done|].
    split; [apply Forall_app; split; [done|]; apply Forall_singleton; by left|].
    destruct rest as [|r rest]; [|done].
    simpl. intros ? [= <-]. split; [done|]. by apply Hfirst.
  - intros j s Hj Hk.
    destruct (decide (j < length (s0 :: rest))%nat) as [Hlt|Hge].
    + rewrite lookup_app_l in Hj by done.
      apply round_of_app; [lia|]. by apply Hround.
    + rewrite lookup_app_r in Hj by lia.
      apply list_elem_of_lookup_2, list_elem_of_singleton in Hj as ->.
      destruct Hk as [Hk|Hk]; congruence.
  - intros y [Hy| ->%list_elem_of_singleton]%elem_of_app; [by apply Hext|done].
  - exists (length (s0 :: rest)). split; [|split; [done|]].
    + rewrite lookup_app_r by lia. by rewrite Nat.sub_diag.
    + intros k y Hk Hy. apply lookup_lt_Some in Hy.
      rewrite length_app in Hy. simpl in *. lia.
Qed.

Lemma shape_snoc_relax l x s :
  shape_ok l → open_round l x → relax_kind s →
  current s = current x → permanent s = permanent x →
  (type s = no_update → tentative s = tentative x) →
  shape_ok (l ++ [s]) ∧ open_round (l ++ [s]) x.
Proof.
  intros [(s0 & rest & -> & Hs0 & Hall & Hhead) Hround Hext]
         (i & Hi & Hxty & Hopen) Hk Hc Hp Ht.
  assert (rest ≠ []) as Hne.
  { intros ->. destruct i as [|i]; [|done]. simpl in Hi. injection Hi as <-.
    congruence. }
  split; [constructor|].
  - exists s0, (rest ++ [s]). split; [done|]. split; [done|].
    split; [apply Forall_app; split; [done|]; apply Forall_singleton; by right|].
    by destruct rest.
  - intros j s' Hj Hk'.
    destruct (decide (j < length (s0 :: rest))%nat) as [Hlt|Hge].
    + rewrite lookup_app_l in Hj by done.
      apply round_of_app; [lia|]. by apply Hround.
    + rewrite lookup_app_r in Hj by lia.
      assert (j = length (s0 :: rest)) as ->.
      { apply lookup_lt_Some in Hj. simpl in *. lia. }
      apply list_elem_of_lookup_2, list_elem_of_singleton in Hj as ->.
      exists i, x. split; [by apply lookup_lt_Some in Hi|].
      split; [by apply lookup_app_l_Some|]. do 4 (split; [done|]).
      intros k y Hik Hy. apply (Hopen k y); [lia|].
      by rewrite lookup_app_l in Hy by lia.
  - intros y [Hy| ->%list_elem_of_singleton]%elem_of_app; [by apply Hext|].
    intros Hty. destruct Hk as [Hk|Hk]; congruence.
  - exists i. split; [by apply lookup_app_l_Some|]. split; [done|].
    intros k y Hik Hy.
    destruct (decide (k < length (s0 :: rest))%nat) as [Hlt|Hge].
    + rewrite lookup_app_l in Hy by done. by apply (Hopen k).
    + rewrite lookup_app_r in Hy by lia.
      by apply list_elem_of_lookup_2, list_elem_of_singleton in Hy as ->.
Qed.

(** Inside a round: the trace is well formed and the round of [x] is
    open. *)
Lemma shape_relax cur pA tA x st t w :
  current x = Some cur → permanent x = pA → tentative x = tA →
  shape_ok (d_steps st) ∧ open_round (d_steps st) x →
  shape_ok (d_steps (relax cur pA tA st (t, w))) ∧
  open_round (d_steps (relax cur pA tA st (t, w))) x.
Proof.
  intros Hc Hp Ht [Hshape Hopen].
  destruct (relax_pushed_spec cur pA tA st t w)
    as [_ ->|s a _ _ _ _ _ _ _ -> Hty Hcs _ _ _ Hps _ _
           |s _ _ _ _ _ _ -> Hty Hcs _ _ _ Hps Hts _]; [done|..].
  - apply (shape_snoc_relax _ x s); try done; try congruence.
    by left.
  - apply (shape_snoc_relax _ x s); try done; try congruence.
    by right.
Qed.

(** Either nothing was extracted yet, or the trace has its first
    [extract] step. *)
Definition started (st : dstate) : Prop :=
  (length (d_steps st) = 1%nat ∧ d_permanent st = [] ∧ d_heap st ≠ []) ∨
  (2 <= length (d_steps st))%nat.

Definition shaped (st : dstate) : Prop :=
  dijkstra_inv nodes edges source st ∧ shape_ok (d_steps st) ∧ started st.

Lemma shape_fold_relax_length cur pA tA l st :
  (length (d_steps st) <= length (d_steps (fold_left (relax cur pA tA) l st)))%nat.
Proof.
  revert st. induction l as [|[t w] l IH]; intros st; cbn [fold_left]; [done|].
  etrans; [|apply IH].
  destruct (relax_pushed_spec cur pA tA st t w)
    as [_ ->|s a _ _ _ _ _ _ _ -> _ _ _ _ _ _ _ _
           |s _ _ _ _ _ _ -> _ _ _ _ _ _ _ _];
    rewrite ?length_app; simpl; lia.
Qed.

Lemma shaped_round st e heap' :
  shaped st → MinHeap.pop (d_heap st) = Some (e, heap') →
  let r := fst (dijkstra_round edges dest st e heap') in
  shaped r ∧ (2 <= length (d_steps r))%nat.
Proof.
  intros (Hinv & Hshape & Hstart) Hpop. cbv zeta.
  assert (e ∈ d_heap st) as He
    by (rewrite (HeapFacts.pop_perm _ _ _ Hpop); by left).
  pose proof (inv_round nodes edges source dest st e heap' Hinv Hpop) as Hinv'.
  destruct (decide (enode e ∈ d_permanent st)) as [Hin|Hnin].
  { rewrite dijkstra_round_stale in * by done. cbn [fst d_steps] in *.
    assert (2 <= length (d_steps st))%nat as Hlen.
    { destruct Hstart as [(_ & Hnil & _)|?]; [|done].
      rewrite Hnil in Hin. by apply elem_of_nil in Hin. }
    split; [|done]. split; [done|]. split; [done|]. by right. }
  destruct (dijkstra_round_extract edges dest st e heap' Hnin)
    as (x & Hxty & Hxc & Hxd & _ & Hxp & Hxt & _ & Hround).
  cbv zeta in Hround. rewrite Hround in *. clear Hround.
  set (pA := permanent_entries (d_distances st) (d_permanent st ++ [enode e])) in *.
  assert (extract_ok x) as Hxok.
  { exists (enode e). split; [done|]. rewrite Hxp, Hxd. unfold pA, permanent_entries.
    rewrite map_app. apply last_snoc. }
  assert (length (d_steps st) = 1%nat → current x = Some source) as Hfirst.
  { intros Hlen. rewrite Hxc. f_equal.
    destruct Hstart as [(_ & Hnil & _)|?]; [|lia].
    destruct (inv_source_first _ _ _ _ Hinv) as [Hs|[_ Hall]]; [|by apply Hall].
    rewrite Hnil in Hs. by apply elem_of_nil in Hs. }
  destruct (shape_snoc_extract _ x Hshape Hxty Hxok Hfirst) as [Hshape1 Hopen1].
  assert (1 <= length (d_steps st))%nat as Hpos.
  { destruct Hshape as [(s0 & rest & -> & _) _ _]. simpl. lia. }
  case_bool_decide; cbn [fst] in *.
  - cbn [d_steps]. rewrite length_app. simpl.
    split; [|lia]. split; [done|]. split; [done|]. right.
    cbn [d_steps]. rewrite length_app. simpl. lia.
  - set (st1 := mkDstate _ _ _ _ _) in *.
    assert (2 <= length (d_steps
              (fold_left (relax (enode e) pA (getAll heap'))
                         (neighbors_of edges (enode e)) st1)))%nat as Hlen.
    { etrans; [|apply shape_fold_relax_length].
      unfold st1. cbn [d_steps]. rewrite length_app. simpl. lia. }
    split; [|done]. split; [done|]. split; [|by right].
    cut ((fun (_ : list (string * Z)) st' =>
            shape_ok (d_steps st') ∧ open_round (d_steps st') x)
           (neighbors_of edges (enode e))
           (fold_left (relax (enode e) pA (getAll heap'))
                      (neighbors_of edges (enode e)) st1)).
    { by intros [? _]. }
    apply (fold_left_prefix_ind (relax (enode e) pA (getAll heap'))); [done|].
    intros _ [t w] st' _ Hst'. by apply (shape_relax _ _ _ x).
Qed.

Lemma shaped_init : shaped (dijkstra_init nodes source).
Proof.
  split; [apply inv_init|]. unfold dijkstra_init.
  destruct (init_maps nodes) as [d0 p0]. cbn [d_steps d_permanent d_heap].
  split; [constructor|].
  - eexists _, []. split; [done|]. split; [done|]. split; [constructor|done].
  - intros [|j] s; [|done]. intros [= <-] [?|?]; done.
  - intros x ->%list_elem_of_singleton. done.
  - left. split; [done|]. split; [done|].
    intros Hnil. apply (f_equal length) in Hnil. cbn [d_heap] in Hnil.
    by rewrite HeapFacts.push_length in Hnil.
Qed.

Lemma shaped_loop fuel st' :
  dijkstra_loop fuel edges dest (dijkstra_init nodes source) = Some st' →
  shaped st' ∧ (2 <= length (d_steps st'))%nat.
Proof.
  apply (dijkstra_loop_rule edges dest shaped
           (fun st => shaped st ∧ (2 <= length (d_steps st))%nat)).
  - intros st Hsh Hempty. split; [done|].
    destruct Hsh as (_ & _ & [(_ & _ & Hne)|?]); done.
  - intros st e heap' Hsh Hpop. cbv zeta.
    pose proof (shaped_round st e heap' Hsh Hpop) as [H1 H2].
    by destruct (snd _).
  - apply shaped_init.
Qed.

End DijkstraShape.

(** ** What the Bellman-Ford tracer writes on [steps] *)

Lemma negativeCycleEdge_last d edges e :
  negativeCycleEdge d edges = Some e →
  ∃ l1 l2, edges = l1 ++ e :: l2 ∧ relaxable d e = true ∧
           ∀ e', e' ∈ l2 → relaxable d e' = false.
Proof.
  unfold negativeCycleEdge. revert e.
  induction edges as [|x l IH] using rev_ind; intros e; [done|].
  rewrite fold_left_app. cbn [fold_left].
  destruct (relaxable d x) eqn:Hx.
  - intros [= <-]. exists l, []. split; [done|]. split; [done|].
    by intros e' ?%elem_of_nil.
  - intros (l1 & l2 & -> & Hr & Hl2)%IH.
    exists l1, (l2 ++ [x]). split; [by rewrite <-app_assoc|]. split; [done|].
    intros e' [?| ->%list_elem_of_singleton]%elem_of_app; auto.
Qed.

Section BellmanFordLog.
Context (nodes : list node) (edges : list edge) (source dest : string).

(** *** The step written for one edge *)

Inductive bf_pushed (i : nat) (st : bstate) (k : nat) (e : edge) (st' : bstate) : Prop :=
| bf_pushed_step s :
    b_steps st' = b_steps st ++ [s] →
    distances s = b_distances st' → previous s = b_previous st' →
    permanent s = [] → edge_step i (k, e) s →
    (type s = update ∧ relaxable (b_distances st) e = true ∧ b_updated st' = true ∨
     type s = no_update ∧ relaxable (b_distances st) e = false ∧
       not_Infinity (b_distances st !! from e) = true ∧ b_updated st' = b_updated st ∨
     type s = skip ∧ b_distances st !! from e = Some Infinity ∧
       b_updated st' = b_updated st) →
    bf_pushed i st k e st'.

Lemma bf_pushed_spec i st k e : bf_pushed i st k e (bf_edge i st (k, e)).
Proof.
  unfold bf_edge.
  destruct (not_Infinity (b_distances st !! from e)) eqn:Hn.
  2:{ eapply bf_pushed_step; try done.
      - split; [by right; right|done].
      - right. right. split; [done|]. split; [|done].
        by destruct (b_distances st !! from e) as [[?|]|]. }
  destruct (b_distances st !! from e) as [[x|]|] eqn:Hf; [|done|].
  - cbn [jsadd].
    destruct (jslt (Some (Fin (double (x + weight e)))) (b_distances st !! to e)) eqn:Hlt.
    + eapply bf_pushed_step; try done.
      * split; [by left|done].
      * left. split; [done|]. split; [|done]. unfold relaxable. by rewrite Hf.
    + eapply bf_pushed_step; try done.
      * split; [by right; left|done].
      * right. left. split; [done|].
        split; [unfold relaxable; rewrite Hf; by simpl|]. by rewrite Hf.
  - cbn [jsadd]. eapply bf_pushed_step; try done.
    + split; [by right; left|done].
    + right. left. split; [done|].
      split; [unfold relaxable; by rewrite Hf|]. by rewrite Hf.
Qed.

(** *** The distances along the trace *)

Definition bf_dist_logged (st : bstate) : Prop :=
  dist_log (b_steps st) (b_distances st) [].

Lemma bf_dist_logged_edge i st k e :
  bf_dist_logged st → bf_dist_logged (bf_edge i st (k, e)).
Proof.
  unfold bf_dist_logged. intros Hlog.
  destruct (bf_pushed_spec i st k e) as [s Hs Hd _ Hp _ _].
  rewrite Hs. apply dist_log_snoc; [|done|by rewrite Hp; intros p ?%elem_of_nil].
  eapply dist_log_weaken; [exact Hlog| |by intros v ?%elem_of_nil|done].
  intros v.
  destruct (bf_edge_spec i st k e) as [x Hx Hlt -> _ _|_ -> _ _].
  - by apply dist_le_insert.
  - apply dist_le_refl.
Qed.

Lemma bf_dist_logged_pass i st :
  bf_dist_logged st → bf_dist_logged (bf_pass edges i st).
Proof.
  unfold bf_dist_logged. intros Hlog. unfold bf_pass.
  cbn [b_steps b_distances].
  match goal with
  | |- context [fold_left _ _ ?s1] => assert (bf_dist_logged s1) as H1
  end.
  { unfold bf_dist_logged. cbn [b_steps b_distances].
    apply dist_log_snoc; [done|done|by intros p ?%elem_of_nil]. }
  match goal with
  | |- context [fold_left ?f ?l ?s1] => assert (bf_dist_logged (fold_left f l s1)) as H2
  end.
  { apply (fold_left_prefix_ind (bf_edge i) (fun _ => bf_dist_logged)); [done|].
    intros _ [k e] st' _ Hst'. by apply bf_dist_logged_edge. }
  apply dist_log_snoc; [done|done|by intros p ?%elem_of_nil].
Qed.

Lemma bf_dist_logged_passes remaining i st :
  bf_dist_logged st → bf_dist_logged (bf_passes remaining edges i st).
Proof.
  revert i st. induction remaining as [|r IH]; intros i st Hlog; cbn [bf_passes]; [done|].
  pose proof (bf_dist_logged_pass i st Hlog).
  destruct (negb _); [done|]. by apply IH.
Qed.

Lemma bf_dist_logged_init : bf_dist_logged (bf_init nodes edges source).
Proof.
  unfold bf_dist_logged, bf_init. destruct (init_maps nodes) as [d0 p0].
  cbn [b_steps b_distances].
  apply (dist_log_snoc [_]); [|done|by intros p ?%elem_of_nil].
  apply (dist_log_snoc []); [|done|by intros p ?%elem_of_nil].
  split; [constructor|by intros s ?%elem_of_nil].
Qed.

(** *** The keys of the predecessor map *)






(** *** The passes *)

Lemma bf_fold_steps i l st :
  ∃ mids,
    b_steps (fold_left (bf_edge i) l st) = b_steps st ++ mids ∧
    Forall2 (edge_step i) l mids ∧
    (b_updated (fold_left (bf_edge i) l st) = true ↔
     b_updated st = true ∨ ∃ s, s ∈ mids ∧ type s = update).
Proof.
  revert st. induction l as [|[k e] l IH]; intros st; cbn [fold_left].
  { exists []. rewrite app_nil_r. split; [done|]. split; [constructor|].
    split; [by left|]. intros [?|(s & ?%elem_of_nil & _)]; done. }
  destruct (IH (bf_edge i st (k, e))) as (mids & -> & Hall & Hup).
  destruct (bf_pushed_spec i st k e) as [s Hs _ _ _ Hstep Hcase].
  exists (s :: mids). rewrite Hs, <-app_assoc. split; [done|].
  split; [by constructor|]. rewrite Hup. split.
  - intros [Hu|(s' & Hin & Hty)].
    + destruct Hcase as [(Hty & _)|[(Hty & _ & _ & Heq)|(Hty & _ & Heq)]].
      * right. exists s. split; [by left|done].
      * left. congruence.
      * left. congruence.
    + right. exists s'. split; [by right|done].
  - intros [Hu|(s' & [->|Hin]%elem_of_cons & Hty)].
    + left. destruct Hcase as [(_ & _ & ?)|[(_ & _ & _ & Heq)|(_ & _ & Heq)]];
        congruence.
    + left. destruct Hcase as [(_ & _ & ?)|[(Hty' & _)|(Hty' & _)]];
        congruence.
    + right. by exists s'.
Qed.

Lemma bf_pass_steps i st :
  ∃ p, b_steps (bf_pass edges i st) = b_steps st ++ p ∧
       pass_steps edges i (b_updated (bf_pass edges i st)) p.
Proof.
  unfold bf_pass.
  match goal with
  | |- context [fold_left _ _ ?s1] =>
      destruct (bf_fold_steps i (indexed edges) s1) as (mids & Hs & Hall & Hup);
      set (st1 := s1) in *
  end.
  cbn [b_steps b_updated]. rewrite Hs. unfold st1 at 1. cbn [b_steps].
  eexists (_ :: mids ++ [_]). split; [by rewrite <-!app_assoc|].
  eexists _, mids, _. split; [done|].
  split; [done|]. split; [done|]. split; [done|].
  split; [done|]. split; [done|]. split; [done|].
  rewrite Hup. unfold st1. cbn [b_updated]. split; [by intros [?|?]|by right].
Qed.

Lemma bf_passes_steps remaining i st :
  ∃ passes,
    b_steps (bf_passes remaining edges i st) = b_steps st ++ concat passes ∧
    (length passes <= remaining)%nat ∧
    (∀ k p, passes !! k = Some p →
       ∃ flag, pass_steps edges (i + k) flag p ∧
               (flag = false →
                S k = length passes ∧
                settled edges (b_distances (bf_passes remaining edges i st)))) ∧
    ((length passes < remaining)%nat →
     settled edges (b_distances (bf_passes remaining edges i st))).
Proof.
  revert i st. induction remaining as [|r IH]; intros i st; cbn [bf_passes].
  { exists []. rewrite app_nil_r. split; [done|]. split; [done|].
    split; [done|]. simpl. lia. }
  destruct (bf_pass_steps i st) as (p & Hp & Hshape).
  destruct (b_updated (bf_pass edges i st)) eqn:Hu; cbn [negb].
  - destruct (IH (i + 1)%nat (bf_pass edges i st)) as (passes & Hs & Hlen & Hall & Hset).
    exists (p :: passes). rewrite Hs, Hp, <-app_assoc. split; [done|].
    split; [simpl; lia|]. split.
    + intros [|k] q Hq.
      * injection Hq as <-. exists true. rewrite Nat.add_0_r. done.
      * destruct (Hall k q Hq) as (flag & Hq' & Hlast).
        exists flag. replace (i + S k)%nat with (i + 1 + k)%nat by lia.
        split; [done|]. intros Hf. destruct (Hlast Hf) as [? ?].
        split; [simpl; lia|done].
    + intros Hlt. apply Hset. simpl in Hlt. lia.
  - exists [p]. simpl. rewrite app_nil_r. split; [done|]. split; [lia|].
    pose proof (bf_pass_settled edges i st Hu) as Hsettled.
    split; [|done].
    intros [|k] q Hq; [|done]. injection Hq as <-.
    exists false. rewrite Nat.add_0_r. done.
Qed.

Lemma bf_final_steps :
  ∃ s1 s2 passes,
    b_steps (bf_final nodes edges source) = s1 :: s2 :: concat passes ∧
    type s1 = show_edges ∧ sedges s1 = map show_edge_long edges ∧
    type s2 = init ∧
    (length passes <= length nodes - 1)%nat ∧
    (∀ k p, passes !! k = Some p →
       ∃ flag, pass_steps edges k flag p ∧
               (flag = false →
                S k = length passes ∧
                settled edges (b_distances (bf_final nodes edges source)))) ∧
    ((length passes < length nodes - 1)%nat →
     settled edges (b_distances (bf_final nodes edges source))).
Proof.
  unfold bf_final.
  destruct (bf_passes_steps (length nodes - 1) 0 (bf_init nodes edges source))
    as (passes & Hs & Hlen & Hall & Hset).
  rewrite Hs. unfold bf_init at 1. destruct (init_maps nodes) as [d0 p0].
  cbn [b_steps]. eexists _, _, passes. split; [done|].
  split; [done|]. split; [done|]. split; [done|]. done.
Qed.

End BellmanFordLog.

(** ** The trace of the Dijkstra tracer *)

(** Every finite distance recorded by [dijkstra] belongs to a node that
    a path joins to the source, whatever the weights. *)
Lemma inv_reach nodes edges source st v x :
  dijkstra_inv nodes edges source st →
  d_distances st !! v = Some (Fin x) →
  ∃ es, is_path edges source es v.
Proof.
  intros Hinv. revert x.
  induction (inv_acc _ _ _ _ Hinv v) as [v _ IH]. intros x Hx.
  destruct (d_previous st !! v) as [[u|]|] eqn:Hp.
  - destruct (inv_tight _ _ _ _ Hinv u v Hp) as (c & xu & He & Hxu & Hxv).
    destruct (IH u Hp xu Hxu) as (es & Hes).
    exists (es ++ [mkEdge u v c]).
    by apply (is_path_snoc edges source es (mkEdge u v c)).
  - assert (v = source) as -> by (by eapply (inv_root _ _ _ _ Hinv)).
    exists []. apply is_path_nil.
  - assert (v ∈ source :: ids nodes) as [->|Hin]%elem_of_cons
      by (apply (inv_dom_d _ _ _ _ Hinv); by eexists).
    + exists []. apply is_path_nil.
    + apply (inv_dom_prev _ _ _ _ Hinv) in Hin as [? Hin]. congruence.
Qed.

(** When no sum is rounded, it is the weight of such a path. *)
Lemma inv_paths nodes edges source st v x :
  source ∈ ids nodes → safe_weights nodes edges →
  dijkstra_inv nodes edges source st → d_small nodes edges st →
  d_distances st !! v = Some (Fin x) →
  ∃ es, is_path edges source es v ∧ total_weight es = x.
Proof.
  intros Hs Hsafe Hinv Hsmall. revert x.
  induction (inv_acc _ _ _ _ Hinv v) as [v _ IH]. intros x Hx.
  destruct (d_previous st !! v) as [[u|]|] eqn:Hp.
  - destruct (tight_exact nodes edges source Hs Hsafe st u v Hinv Hsmall Hp)
      as (c & xu & He & Hxu & Hxv).
    rewrite Hx in Hxv. injection Hxv as ->.
    destruct (IH u Hp xu Hxu) as (es & Hes & Hw).
    exists (es ++ [mkEdge u v c]). split.
    + by apply (is_path_snoc edges source es (mkEdge u v c)).
    + rewrite total_weight_snoc. simpl. lia.
  - assert (v = source) as -> by (by eapply (inv_root _ _ _ _ Hinv)).
    rewrite (inv_source_zero _ _ _ _ Hinv) in Hx. injection Hx as <-.
    exists []. split; [apply is_path_nil|done].
  - assert (v ∈ source :: ids nodes) as [->|Hin]%elem_of_cons
      by (apply (inv_dom_d _ _ _ _ Hinv); by eexists).
    + rewrite (inv_source_zero _ _ _ _ Hinv) in Hx. injection Hx as <-.
      exists []. split; [apply is_path_nil|done].
    + apply (inv_dom_prev _ _ _ _ Hinv) in Hin as [? Hin]. congruence.
Qed.

Lemma dijkstra_dist_log fuel nodes edges source dest steps :
  dijkstra fuel nodes edges source dest = Some steps →
  ∃ d perm, dist_log steps d perm.
Proof.
  intros (st & p & Hst & _ & ->)%dijkstra_Some.
  pose proof (dist_logged_loop edges dest fuel _ _ (dist_logged_init nodes source) Hst)
    as Hlog.
  exists (d_distances st), (d_permanent st).
  apply dist_log_snoc; [done|done|].
  cbn [dijkstra_complete permanent].
  intros q (v & -> & Hv)%list_elem_of_fmap. done.
Qed.

Lemma dist_log_sorted steps d perm i j si sj :
  dist_log steps d perm → (i <= j)%nat →
  steps !! i = Some si → steps !! j = Some sj →
  (∀ v, dist_le (distances sj !! v) (distances si !! v)) ∧
  (∀ p, p ∈ permanent si → distances sj !! pnode p = pdistance p).
Proof.
  intros [Hs Hall] Hij Hi Hj.
  destruct (decide (i = j)) as [->|Hne].
  - rewrite Hi in Hj. injection Hj as <-. split.
    + intros v. apply dist_le_refl.
    + intros p Hp.
      destruct (Hall si (list_elem_of_lookup_2 _ _ _ Hi)) as [_ H2].
      by destruct (H2 p Hp) as (_ & -> & _).
  - apply (StronglySorted_lookup _ _ i j si sj Hs); [lia|done..].
Qed.

(** Counting the steps of a list by kind. *)
Lemma mid_kind_count l :
  Forall mid_kind l →
  length l = (length (steps_of extract l) + length (steps_of update l)
              + length (steps_of no_update l))%nat.
Proof.
  induction 1 as [|s l Hs _ IH]; [done|].
  unfold steps_of in *. rewrite !filter_cons. simpl.
  destruct Hs as [Hs|[Hs|Hs]]; rewrite Hs; simpl; lia.
Qed.

(** X5. The steps returned by [dijkstra] are an [init] step, the
    [extract] step of the source, then [extract], [update] and
    [no-update] steps, and one [complete] step at the end.  Every
    [update] or [no-update] step belongs to the round of the nearest
    [extract] step before it: it shows the same current node and the
    same permanent set, and a [no-update] step also shows the tentative
    set of that [extract] step, as it was before the round's updates.
    An [extract] step lists the node it extracts last in its permanent
    set, at the distance the step records for it. *)
Theorem dijkstra_trace_shape fuel nodes edges source dest steps :
  dijkstra fuel nodes edges source dest = Some steps →
  (∃ s0 x0 mid c,
     steps = s0 :: x0 :: mid ++ [c] ∧
     type s0 = init ∧ type x0 = extract ∧ current x0 = Some source ∧
     Forall (fun s => type s = extract ∨ type s = update ∨ type s = no_update) mid ∧
     type c = complete) ∧
  (∀ j s, steps !! j = Some s → type s = update ∨ type s = no_update →
     ∃ i x, (i < j)%nat ∧ steps !! i = Some x ∧ type x = extract ∧
            current s = current x ∧ permanent s = permanent x ∧
            (type s = no_update → tentative s = tentative x) ∧
            ∀ k y, (i < k < j)%nat → steps !! k = Some y → type y ≠ extract) ∧
  (∀ x, x ∈ steps → type x = extract →
     ∃ v, current x = Some v ∧
          last (permanent x) = Some (mkPentry v (distances x !! v))).
Proof.
  intros (st & p & Hst & _ & ->)%dijkstra_Some.
  destruct (shaped_loop nodes edges source dest fuel st Hst)
    as [(_ & [Hhead Hround Hext] & _) Hlen].
  split; [|split].
  - destruct Hhead as (s0 & rest & Hsteps & Hs0 & Hall & Hfirst).
    rewrite Hsteps in *. destruct rest as [|x0 mid]; [simpl in Hlen; lia|].
    destruct (Hfirst x0 eq_refl) as [Hx0 Hc0].
    exists s0, x0, mid, (dijkstra_complete dest st p).
    split; [done|]. split; [done|]. split; [done|]. split; [done|].
    split; [by apply Forall_cons in Hall as [_ ?]|done].
  - intros j s Hj Hk.
    assert (d_steps st !! j = Some s) as Hj'.
    { destruct (decide (j < length (d_steps st))%nat) as [Hlt|Hge].
      - by rewrite lookup_app_l in Hj.
      - rewrite lookup_app_r in Hj by lia.
        apply list_elem_of_lookup_2, list_elem_of_singleton in Hj as ->.
        destruct Hk as [Hk|Hk]; discriminate Hk. }
    destruct (round_of_app (d_steps st) [dijkstra_complete dest st p] j s
                ltac:(apply lookup_lt_Some in Hj'; lia) (Hround j s Hj' Hk))
      as (i & x & Hij & Hi & Hty & Hc & Hp & Ht & Hbetween).
    exists i, x. do 6 (split; [done|]).
    intros k y Hik Hy Hyx. destruct (Hbetween k y Hik Hy); congruence.
  - intros x [Hx| ->%list_elem_of_singleton]%elem_of_app; [by apply Hext|done].
Qed.

Lemma dijkstra_trace_shape_witness :
  ∃ steps,
    dijkstra 10 ex1_nodes ex1_edges "A" "B" = Some steps ∧
    (∃ s0 x0 mid c,
       steps = s0 :: x0 :: mid ++ [c] ∧
       type s0 = init ∧ type x0 = extract ∧ current x0 = Some "A" ∧
       Forall (fun s => type s = extract ∨ type s = update ∨ type s = no_update) mid ∧
       type c = complete) ∧
    (∀ j s, steps !! j = Some s → type s = update ∨ type s = no_update →
       ∃ i x, (i < j)%nat ∧ steps !! i = Some x ∧ type x = extract ∧
              current s = current x ∧ permanent s = permanent x ∧
              (type s = no_update → tentative s = tentative x) ∧
              ∀ k y, (i < k < j)%nat → steps !! k = Some y → type y ≠ extract) ∧
    (∀ x, x ∈ steps → type x = extract →
       ∃ v, current x = Some v ∧
            last (permanent x) = Some (mkPentry v (distances x !! v))).
Proof.
  eexists. split; [vm_compute; reflexivity|].
  apply (dijkstra_trace_shape 10%nat ex1_nodes ex1_edges "A" "B").
  vm_compute. reflexivity.
Defined.

(** X6. The trace of [dijkstra] holds at most one [extract] step
    for each node and at most one [update] or [no-update] step for each
    edge, besides its [init] and [complete] steps: at most
    [|V| + |E| + 2] steps in all. *)
Theorem dijkstra_trace_length fuel nodes edges source dest steps :
  source ∈ ids nodes →
  dijkstra fuel nodes edges source dest = Some steps →
  (length (steps_of extract steps) <= length nodes)%nat ∧
  (length (steps_of update steps) + length (steps_of no_update steps)
   <= length edges)%nat ∧
  length steps = (2 + length (steps_of extract steps) + length (steps_of update steps)
                  + length (steps_of no_update steps))%nat ∧
  (3 <= length steps <= length nodes + length edges + 2)%nat.
Proof.
  intros Hs (st & p & Hst & _ & ->)%dijkstra_Some.
  destruct (shaped_loop nodes edges source dest fuel st Hst)
    as [(Hinv & [Hhead _ _] & _) Hlen].
  destruct (size_logged_loop edges dest fuel _ _ (size_logged_init nodes edges source) Hst)
    as [Hx Hr].
  pose proof (permanent_bound nodes edges source st Hinv Hs) as Hperm.
  destruct Hhead as (s0 & rest & Hsteps & Hs0 & Hall & _).
  pose proof (mid_kind_count rest Hall) as Hcount.
  rewrite Hsteps in *. clear Hsteps.
  rewrite !steps_of_snoc. cbn [dijkstra_complete type].
  change (s0 :: rest) with ([s0] ++ rest) in *.
  unfold steps_of in *. rewrite !filter_app in *.
  rewrite !(filter_cons _ s0), !filter_nil in *. rewrite Hs0 in *.
  simpl in *. rewrite ?length_app, ?app_nil_r in *. simpl in *. lia.
Qed.

Lemma dijkstra_trace_length_witness :
  ∃ steps,
    "A" ∈ ids ex1_nodes ∧
    dijkstra 10 ex1_nodes ex1_edges "A" "B" = Some steps ∧
    (length (steps_of extract steps) <= length ex1_nodes)%nat ∧
    (length (steps_of update steps) + length (steps_of no_update steps)
     <= length ex1_edges)%nat ∧
    length steps = (2 + length (steps_of extract steps)
                    + length (steps_of update steps)
                    + length (steps_of no_update steps))%nat ∧
    (3 <= length steps <= length ex1_nodes + length ex1_edges + 2)%nat.
Proof.
  eexists. split; [evaluate|]. split; [vm_compute; reflexivity|].
  apply (dijkstra_trace_length 10%nat ex1_nodes ex1_edges "A" "B").
  - evaluate.
  - vm_compute. reflexivity.
Defined.

(** X7. Once a step of [dijkstra] lists a node in its permanent
    set, that step and every later step record for the node the
    distance listed there: the distance of a permanent node is never
    changed again. *)
Theorem permanent_distance_is_final fuel nodes edges source dest steps :
  dijkstra fuel nodes edges source dest = Some steps →
  ∀ i j si sj p,
    (i <= j)%nat → steps !! i = Some si → steps !! j = Some sj →
    p ∈ permanent si → distances sj !! pnode p = pdistance p.
Proof.
  intros (d & perm & Hlog)%dijkstra_dist_log i j si sj p Hij Hi Hj Hp.
  by apply (dist_log_sorted steps d perm i j si sj Hlog Hij Hi Hj).
Qed.

Lemma permanent_distance_is_final_witness :
  ∃ steps,
    dijkstra 10 ex1_nodes ex1_edges "A" "B" = Some steps ∧
    ∀ i j si sj p,
      (i <= j)%nat → steps !! i = Some si → steps !! j = Some sj →
      p ∈ permanent si → distances sj !! pnode p = pdistance p.
Proof.
  eexists. split; [vm_compute; reflexivity|].
  apply (permanent_distance_is_final 10%nat ex1_nodes ex1_edges "A" "B").
  vm_compute. reflexivity.
Defined.

(** X8. When no path leads from the source to the destination,
    [dijkstra] ends on a [complete] step that records [Infinity] for
    the destination, an empty path, no highlighted edge and the message
    "No path exists"; the weights play no part. *)
Theorem dijkstra_unreachable_destination nodes edges source dest fuel :
  source ∈ ids nodes → dest ∈ ids nodes → unreachable edges source dest →
  (length nodes + length edges + 1 <= fuel)%nat →
  ∃ steps c,
    dijkstra fuel nodes edges source dest = Some steps ∧
    last steps = Some c ∧ type c = complete ∧
    distances c !! dest = Some Infinity ∧
    path c = [] ∧ activeEdges c = [] ∧ message c = "No path exists".
Proof.
  intros Hs Hd Hun Hf.
  destruct (dijkstra_total fuel nodes edges source dest Hs Hd Hf)
    as (st & p & Hst & Hp & _ & Hrun).
  destruct (dom_logged_loop nodes edges source dest fuel st Hst) as [Hinv [Hdef _]].
  assert (d_distances st !! dest = Some Infinity) as Hinf.
  { destruct (Hdef dest Hd) as [[x|] Hx]; [|done].
    destruct (inv_reach nodes edges source st dest x Hinv Hx) as (es & Hes).
    by destruct (Hun es). }
  assert (p = [Id dest]) as ->.
  { eapply path_loop_root; [|done]. by apply (inv_inf_prev _ _ _ _ Hinv). }
  eexists _, _. split; [done|]. split; [apply last_snoc|].
  cbn [dijkstra_complete type distances path activeEdges message].
  rewrite Hinf. done.
Qed.

Lemma dijkstra_unreachable_destination_witness :
  ∃ steps c,
    dijkstra 10 ex3_nodes [] "A" "B" = Some steps ∧
    last steps = Some c ∧ type c = complete ∧
    distances c !! "B" = Some Infinity ∧
    path c = [] ∧ activeEdges c = [] ∧ message c = "No path exists".
Proof.
  apply (dijkstra_unreachable_destination ex3_nodes [] "A" "B" 10%nat).
  - evaluate.
  - evaluate.
  - intros es [Hall Hc]. destruct es as [|e es]; [discriminate Hc|].
    apply Forall_cons in Hall as [He _]. by apply elem_of_nil in He.
  - vm_compute. lia.
Defined.

(** X9. With weights of either sign that are at most
    [2^53 / (|V| * |E| + 1)] in absolute value, so that no sum is
    rounded, [dijkstra] returns, every finite distance of its
    [complete] step is the total
    weight of a path that exists in the graph, each recorded
    predecessor is joined to its node by an edge that accounts exactly
    for the difference of their distances, and the reported path is a
    path of the graph from the source to the destination, without
    repeated node, whose total weight is the reported distance. *)
Theorem dijkstra_reports_real_paths nodes edges source dest fuel :
  source ∈ ids nodes → dest ∈ ids nodes → safe_weights nodes edges →
  (length nodes + length edges + 1 <= fuel)%nat →
  ∃ steps c,
    dijkstra fuel nodes edges source dest = Some steps ∧
    last steps = Some c ∧ type c = complete ∧
    (∀ v x, distances c !! v = Some (Fin x) →
       ∃ es, is_path edges source es v ∧ total_weight es = x) ∧
    (∀ u v, pred_of (previous c) u v →
       ∃ w x, mkEdge u v w ∈ edges ∧ distances c !! u = Some (Fin x) ∧
              distances c !! v = Some (Fin (x + w))) ∧
    (∀ x, distances c !! dest = Some (Fin x) →
       ∃ es, is_path edges source es dest ∧ total_weight es = x ∧
             path c = map Id (visited source es) ∧ NoDup (visited source es)).
Proof.
  intros Hs Hd Hsafe Hf.
  destruct (dijkstra_total fuel nodes edges source dest Hs Hd Hf)
    as (st & p & Hst & Hp & Hnd & Hrun).
  destruct (dijkstra_loop_small nodes edges source dest Hs Hsafe fuel st Hst)
    as [Hinv Hsmall].
  eexists _, _. split; [done|]. split; [apply last_snoc|].
  cbn [dijkstra_complete type distances previous path].
  split; [done|]. split; [|split].
  - intros v x. by apply (inv_paths nodes).
  - intros u v. by apply (tight_exact nodes edges source Hs Hsafe st).
  - intros x Hx. rewrite Hx. simpl.
    destruct (dijkstra_path_is_path nodes edges source dest st fuel x p Hinv Hsmall
                Hs Hsafe Hx Hp) as (es & H1 & H2 & ->).
    exists es. split; [done|]. split; [done|]. split; [done|].
    by apply (NoDup_fmap_1 Id).
Qed.

Lemma dijkstra_reports_real_paths_witness :
  ∃ steps c,
    dijkstra 10 ex1_nodes [mkEdge "A" "B" 4; mkEdge "A" "C" 1; mkEdge "C" "B" (-1)]
             "A" "B" = Some steps ∧
    last steps = Some c ∧ type c = complete ∧
    (∀ v x, distances c !! v = Some (Fin x) →
       ∃ es, is_path [mkEdge "A" "B" 4; mkEdge "A" "C" 1; mkEdge "C" "B" (-1)]
                     "A" es v ∧ total_weight es = x) ∧
    (∀ u v, pred_of (previous c) u v →
       ∃ w x, mkEdge u v w ∈ [mkEdge "A" "B" 4; mkEdge "A" "C" 1; mkEdge "C" "B" (-1)] ∧
              distances c !! u = Some (Fin x) ∧
              distances c !! v = Some (Fin (x + w))) ∧
    (∀ x, distances c !! "B" = Some (Fin x) →
       ∃ es, is_path [mkEdge "A" "B" 4; mkEdge "A" "C" 1; mkEdge "C" "B" (-1)]
                     "A" es "B" ∧ total_weight es = x ∧
             path c = map Id (visited "A" es) ∧ NoDup (visited "A" es)).
Proof.
  apply (dijkstra_reports_real_paths ex1_nodes
           [mkEdge "A" "B" 4; mkEdge "A" "C" 1; mkEdge "C" "B" (-1)] "A" "B" 10%nat).
  - evaluate.
  - evaluate.
  - evaluate.
  - vm_compute. lia.
Defined.

(** ** The trace of the Bellman-Ford tracer *)

(** The last step written by [bellmanFord]. *)
Lemma bellmanFord_Some fuel nodes edges source dest steps :
  bellmanFord fuel nodes edges source dest = Some steps →
  ∃ c,
    steps = b_steps (bf_final nodes edges source) ++ [c] ∧
    distances c = b_distances (bf_final nodes edges source) ∧
    previous c = b_previous (bf_final nodes edges source) ∧
    permanent c = [] ∧
    ((∃ e, negativeCycleEdge (b_distances (bf_final nodes edges source)) edges = Some e ∧
           type c = negative_cycle ∧ activeEdges c = [edgeKey (from e) (to e)]) ∨
     (negativeCycleEdge (b_distances (bf_final nodes edges source)) edges = None ∧
      ∃ p, path_loop fuel (b_previous (bf_final nodes edges source)) (Id dest) []
             = Some p ∧
           c = bf_complete source dest (bf_final nodes edges source) p)).
Proof.
  rewrite bellmanFord_unfold. cbv zeta.
  destruct (negativeCycleEdge _ _) as [e|] eqn:Hn.
  - intros [= <-]. eexists. split; [done|]. do 3 (split; [done|]).
    left. by exists e.
  - destruct (path_loop _ _ _ _) as [p|] eqn:Hp; [|done].
    intros [= <-]. eexists. split; [done|]. do 3 (split; [done|]).
    right. split; [done|]. by exists p.
Qed.

Lemma bellmanFord_dist_log fuel nodes edges source dest steps :
  bellmanFord fuel nodes edges source dest = Some steps →
  ∃ d, dist_log steps d [].
Proof.
  intros (c & -> & Hd & _ & Hp & _)%bellmanFord_Some.
  exists (b_distances (bf_final nodes edges source)).
  apply dist_log_snoc; [|done|by rewrite Hp; intros p ?%elem_of_nil].
  apply bf_dist_logged_passes, bf_dist_logged_init.
Qed.

(** X10. Along the steps returned by either tracer, the distance
    recorded for a node never goes up: a later step records, for every
    node, a distance that is at most the one recorded by an earlier
    step ([Infinity] being the largest). *)
Theorem distances_never_increase fuel nodes edges source dest steps :
  dijkstra fuel nodes edges source dest = Some steps ∨
  bellmanFord fuel nodes edges source dest = Some steps →
  ∀ i j si sj v,
    (i <= j)%nat → steps !! i = Some si → steps !! j = Some sj →
    dist_le (distances sj !! v) (distances si !! v).
Proof.
  intros [(d & perm & Hlog)%dijkstra_dist_log|(d & Hlog)%bellmanFord_dist_log]
         i j si sj v Hij Hi Hj.
  - by apply (dist_log_sorted steps d perm i j si sj Hlog Hij Hi Hj).
  - by apply (dist_log_sorted steps d [] i j si sj Hlog Hij Hi Hj).
Qed.

Lemma distances_never_increase_witness :
  ∃ steps,
    bellmanFord 10 ex1_nodes ex1_edges "A" "B" = Some steps ∧
    ∀ i j si sj v,
      (i <= j)%nat → steps !! i = Some si → steps !! j = Some sj →
      dist_le (distances sj !! v) (distances si !! v).
Proof.
  eexists. split; [vm_compute; reflexivity|].
  apply (distances_never_increase 10%nat ex1_nodes ex1_edges "A" "B").
  right. vm_compute. reflexivity.
Defined.

(** *** A destination that is not a node *)





(** *** The passes *)

Lemma edge_step_kind i l mids : Forall2 (edge_step i) l mids → Forall edge_kind mids.
Proof. induction 1 as [|ke s l mids (Hk & _) _ IH]; by constructor. Qed.

Lemma edge_kind_none t mids :
  t = iteration_start ∨ t = iteration_end →
  Forall edge_kind mids → steps_of t mids = [].
Proof.
  intros Ht. induction 1 as [|s mids Hs _ IH]; [done|].
  unfold steps_of in *. rewrite filter_cons, IH.
  rewrite decide_False; [done|].
  destruct Hs as [Hs|[Hs|Hs]], Ht as [-> | ->]; rewrite Hs; done.
Qed.

Lemma pass_steps_count edges i flag p :
  pass_steps edges i flag p →
  length p = (length edges + 2)%nat ∧
  length (steps_of iteration_start p) = 1%nat ∧
  length (steps_of iteration_end p) = 1%nat.
Proof.
  intros (a & mids & z & -> & Ha & _ & Hall & Hz & _).
  pose proof (Forall2_length _ _ _ Hall) as Hlen. rewrite length_indexed in Hlen.
  pose proof (edge_step_kind _ _ _ Hall) as Hk.
  split; [simpl; rewrite length_app; simpl; lia|].
  change (a :: mids ++ [z]) with ([a] ++ mids ++ [z]).
  unfold steps_of. rewrite !filter_app.
  fold (steps_of iteration_start mids). fold (steps_of iteration_end mids).
  rewrite !edge_kind_none by auto.
  rewrite !filter_cons, !filter_nil, Ha, Hz. done.
Qed.

Lemma passes_count edges passes :
  Forall (fun p => ∃ i flag, pass_steps edges i flag p) passes →
  length (concat passes) = (length passes * (length edges + 2))%nat ∧
  length (steps_of iteration_start (concat passes)) = length passes ∧
  length (steps_of iteration_end (concat passes)) = length passes.
Proof.
  induction 1 as [|p passes (i & flag & Hp) _ (IH1 & IH2 & IH3)]; [done|].
  destruct (pass_steps_count _ _ _ _ Hp) as (H1 & H2 & H3).
  cbn [concat]. unfold steps_of in *. rewrite !filter_app, !length_app.
  simpl. lia.
Qed.

Lemma pass_steps_end edges i flag p z :
  pass_steps edges i flag p → z ∈ p → type z = iteration_end →
  updated z = Some (UFlag flag) ∧ ∃ q, p = q ++ [z].
Proof.
  intros (a & mids & z' & -> & Ha & _ & Hall & Hz & _ & Hup & _) Hin Hty.
  apply elem_of_cons in Hin as [->|Hin]; [congruence|].
  apply elem_of_app in Hin as [Hin| ->%list_elem_of_singleton].
  - pose proof (edge_step_kind _ _ _ Hall) as Hk. rewrite Forall_forall in Hk.
    destruct (Hk z Hin) as [?|[?|?]]; congruence.
  - split; [done|]. by exists (a :: mids).
Qed.

(** What the passes of a returned trace look like. *)
Lemma bellmanFord_steps fuel nodes edges source dest steps :
  bellmanFord fuel nodes edges source dest = Some steps →
  ∃ s1 s2 passes c,
    steps = s1 :: s2 :: concat passes ++ [c] ∧
    type s1 = show_edges ∧ sedges s1 = map show_edge_long edges ∧ type s2 = init ∧
    (length passes <= length nodes - 1)%nat ∧
    (∀ k p, passes !! k = Some p →
       ∃ flag, pass_steps edges k flag p ∧
               (flag = false → S k = length passes ∧ type c = complete)) ∧
    (type c = complete ∨
     type c = negative_cycle ∧ length passes = (length nodes - 1)%nat ∧
     ∃ l1 e l2,
       edges = l1 ++ e :: l2 ∧ relaxable (distances c) e = true ∧
       (∀ e', e' ∈ l2 → relaxable (distances c) e' = false) ∧
       activeEdges c = [edgeKey (from e) (to e)]).
Proof.
  intros (c & -> & Hd & _ & _ & Hcase)%bellmanFord_Some.
  destruct (bf_final_steps nodes edges source)
    as (s1 & s2 & passes & Hs & H1 & Hse & H2 & Hlen & Hall & Hset).
  rewrite Hs. exists s1, s2, passes, c. split; [done|].
  do 4 (split; [done|]).
  assert (settled edges (b_distances (bf_final nodes edges source)) →
          type c = complete) as Hsettled.
  { intros Hsettled. destruct Hcase as [(e & He & _)|(_ & p & _ & ->)]; [|done].
    apply negativeCycleEdge_Some in He as [He Hr].
    by rewrite (Hsettled e He) in Hr. }
  split.
  - intros k p Hp. destruct (Hall k p Hp) as (flag & Hshape & Hf).
    exists flag. split; [done|]. intros Hfalse.
    destruct (Hf Hfalse) as [? ?]. auto.
  - destruct Hcase as [(e & He & Hty & Hact)|(_ & p & _ & ->)]; [|by left].
    right. split; [done|]. split.
    + destruct (decide (length passes < length nodes - 1)%nat) as [Hlt|]; [|lia].
      specialize (Hsettled (Hset Hlt)). congruence.
    + destruct (negativeCycleEdge_last _ _ _ He) as (l1 & l2 & Hl & Hr & Hl2).
      exists l1, e, l2. rewrite Hd. done.
Qed.

(** X12. The steps returned by [bellmanFord] are a [show-edges]
    step listing every edge, an [init] step, the steps of at most
    [|V| - 1] passes, and one terminal step, [complete] or
    [negative-cycle].  Pass number [k + 1] is an [iteration-start] step,
    then one [update], [no-update] or [skip] step for every edge, in
    edge order, carrying the pass number, the edge, its number counted
    from 1 and its key as the only highlighted edge, and then an
    [iteration-end] step whose flag tells whether one of them is an
    [update] step.  Only the last pass can end on a flag that is
    false. *)
Theorem bellmanFord_trace_shape fuel nodes edges source dest steps :
  bellmanFord fuel nodes edges source dest = Some steps →
  ∃ s1 s2 passes c,
    steps = s1 :: s2 :: concat passes ++ [c] ∧
    type s1 = show_edges ∧ sedges s1 = map show_edge_long edges ∧ type s2 = init ∧
    (type c = complete ∨ type c = negative_cycle) ∧
    (length passes <= length nodes - 1)%nat ∧
    ∀ k p, passes !! k = Some p →
      ∃ flag, pass_steps edges k flag p ∧ (flag = false → S k = length passes).
Proof.
  intros (s1 & s2 & passes & c & Hs & H1 & Hse & H2 & Hlen & Hall & Hc)%bellmanFord_steps.
  exists s1, s2, passes, c. do 4 (split; [done|]).
  split; [destruct Hc as [?|[? _]]; auto|]. split; [done|].
  intros k p Hp. destruct (Hall k p Hp) as (flag & Hshape & Hf).
  exists flag. split; [done|]. intros Hfalse. by destruct (Hf Hfalse).
Qed.

Lemma bellmanFord_trace_shape_witness :
  ∃ steps s1 s2 passes c,
    bellmanFord 10 ex1_nodes ex1_edges "A" "B" = Some steps ∧
    steps = s1 :: s2 :: concat passes ++ [c] ∧
    type s1 = show_edges ∧ sedges s1 = map show_edge_long ex1_edges ∧
    type s2 = init ∧
    (type c = complete ∨ type c = negative_cycle) ∧
    (length passes <= length ex1_nodes - 1)%nat ∧
    ∀ k p, passes !! k = Some p →
      ∃ flag, pass_steps ex1_edges k flag p ∧ (flag = false → S k = length passes).
Proof.
  assert (∃ steps, bellmanFord 10 ex1_nodes ex1_edges "A" "B" = Some steps)
    as [steps Hrun] by (eexists; vm_compute; reflexivity).
  destruct (bellmanFord_trace_shape 10%nat ex1_nodes ex1_edges "A" "B" steps Hrun)
    as (s1 & s2 & passes & c & H).
  exists steps, s1, s2, passes, c. split; [exact Hrun|exact H].
Defined.

(** X13. The trace of [bellmanFord] has [3 + k * (|E| + 2)]
    steps, where [k], the number of passes that were run, is the number
    of its [iteration-start] steps and is at most [|V| - 1]. *)
Theorem bellmanFord_trace_length fuel nodes edges source dest steps :
  bellmanFord fuel nodes edges source dest = Some steps →
  let k := length (steps_of iteration_start steps) in
  (k <= length nodes - 1)%nat ∧
  length (steps_of iteration_end steps) = k ∧
  length steps = (3 + k * (length edges + 2))%nat.
Proof.
  intros (s1 & s2 & passes & c & -> & H1 & _ & H2 & Hlen & Hall & Hc)%bellmanFord_steps.
  cbv zeta.
  destruct (passes_count edges passes) as (Hn & Hstart & Hend).
  { apply Forall_lookup_2. intros k p Hp.
    destruct (Hall k p Hp) as (flag & Hshape & _). by exists k, flag. }
  assert (type c ≠ iteration_start ∧ type c ≠ iteration_end) as [Hc1 Hc2].
  { destruct Hc as [Hc|[Hc _]]; rewrite Hc; done. }
  change (s1 :: s2 :: concat passes ++ [c])
    with ([s1; s2] ++ concat passes ++ [c]).
  unfold steps_of in *. rewrite !filter_app, !length_app.
  rewrite !filter_cons, !filter_nil, H1, H2.
  rewrite !(decide_False (P := type c = _)) by done.
  simpl. lia.
Qed.

Lemma bellmanFord_trace_length_witness :
  ∃ steps,
    bellmanFord 10 ex1_nodes ex1_edges "A" "B" = Some steps ∧
    let k := length (steps_of iteration_start steps) in
    (k <= length ex1_nodes - 1)%nat ∧
    length (steps_of iteration_end steps) = k ∧
    length steps = (3 + k * (length ex1_edges + 2))%nat.
Proof.
  eexists. split; [vm_compute; reflexivity|].
  apply (bellmanFord_trace_length 10%nat ex1_nodes ex1_edges "A" "B").
  vm_compute. reflexivity.
Defined.



(** X15. A [negative-cycle] step comes only after all [|V| - 1]
    passes were run, each of them ending on a flag that is true.  With
    the distances it records, the edge it highlights can still be
    relaxed, and it is the last such edge in edge order. *)
Theorem negative_cycle_step fuel nodes edges source dest steps c :
  bellmanFord fuel nodes edges source dest = Some steps →
  last steps = Some c → type c = negative_cycle →
  (∃ l1 e l2,
     edges = l1 ++ e :: l2 ∧ relaxable (distances c) e = true ∧
     (∀ e', e' ∈ l2 → relaxable (distances c) e' = false) ∧
     activeEdges c = [edgeKey (from e) (to e)]) ∧
  length (steps_of iteration_end steps) = (length nodes - 1)%nat ∧
  (∀ z, z ∈ steps → type z = iteration_end → updated z = Some (UFlag true)).
Proof.
  intros Hrun Hlast Hty.
  destruct (bellmanFord_steps _ _ _ _ _ _ Hrun)
    as (s1 & s2 & passes & c' & -> & H1 & _ & H2 & Hlen & Hall & Hc).
  assert (c' = c) as ->.
  { change (s1 :: s2 :: concat passes ++ [c'])
      with ([s1; s2] ++ concat passes ++ [c']) in Hlast.
    rewrite !app_assoc, last_snoc in Hlast. by injection Hlast. }
  destruct Hc as [Hc|(_ & Hfull & Hedge)]; [congruence|].
  split; [done|]. split.
  - destruct (passes_count edges passes) as (_ & _ & Hend).
    { apply Forall_lookup_2. intros k p Hp.
      destruct (Hall k p Hp) as (flag & Hshape & _). by exists k, flag. }
    change (s1 :: s2 :: concat passes ++ [c])
      with ([s1; s2] ++ concat passes ++ [c]).
    unfold steps_of in *. rewrite !filter_app, !length_app.
    rewrite !filter_cons, !filter_nil, H1, H2, Hty. simpl. lia.
  - intros z Hz Hzty.
    assert (z ∈ concat passes) as Hin.
    { apply elem_of_cons in Hz as [->|Hz]; [congruence|].
      apply elem_of_cons in Hz as [->|Hz]; [congruence|].
      apply elem_of_app in Hz as [?| ->%list_elem_of_singleton]; [done|].
      congruence. }
    apply list_elem_of_In, in_concat in Hin as (p & Hp & Hzp).
    apply list_elem_of_In, list_elem_of_lookup in Hp as [k Hk].
    apply list_elem_of_In in Hzp.
    destruct (Hall k p Hk) as (flag & Hshape & Hf).
    destruct (pass_steps_end _ _ _ _ _ Hshape Hzp Hzty) as [-> _].
    destruct flag; [done|]. destruct (Hf eq_refl) as [_ ?]. congruence.
Qed.

Lemma negative_cycle_step_witness :
  ∃ steps c,
    bellmanFord 10 ex3_nodes ex3_edges "A" "B" = Some steps ∧
    last steps = Some c ∧ type c = negative_cycle ∧
    (∃ l1 e l2,
       ex3_edges = l1 ++ e :: l2 ∧ relaxable (distances c) e = true ∧
       (∀ e', e' ∈ l2 → relaxable (distances c) e' = false) ∧
       activeEdges c = [edgeKey (from e) (to e)]) ∧
    length (steps_of iteration_end steps) = (length ex3_nodes - 1)%nat ∧
    (∀ z, z ∈ steps → type z = iteration_end → updated z = Some (UFlag true)).
Proof.
  assert (∃ steps c,
            bellmanFord 10 ex3_nodes ex3_edges "A" "B" = Some steps ∧
            last steps = Some c ∧ type c = negative_cycle)
    as (steps & c & Hrun & Hlast & Hty).
  { eexists _, _. split; [vm_compute; reflexivity|].
    split; [vm_compute; reflexivity|]. reflexivity. }
  exists steps, c. split; [done|]. split; [done|]. split; [done|].
  exact (negative_cycle_step 10%nat ex3_nodes ex3_edges "A" "B" steps c
           Hrun Hlast Hty).
Defined.

(** X16. On a graph whose edges join nodes of the graph, whose
    weights, of either sign, are at most [2^53 / (|V| * |E| + 1)] in
    absolute value, so that no sum is rounded, and in which no cycle of
    negative weight can be reached from the source, [bellmanFord] ends
    on a [complete] step that records for every node the least total
    weight of a path from the source, or [Infinity] when there is none;
    when the destination can be reached, the reported path is a path of
    the graph of that least weight, without repeated node, and
    otherwise the reported path is empty. *)
Theorem bellmanFord_all_distances nodes edges source dest fuel :
  graph_wf nodes edges → source ∈ ids nodes → dest ∈ ids nodes →
  safe_weights nodes edges →
  ¬ negative_cycle_reachable edges source →
  (length nodes <= fuel)%nat →
  ∃ steps c,
    bellmanFord fuel nodes edges source dest = Some steps ∧
    last steps = Some c ∧ type c = complete ∧
    (∀ v, v ∈ ids nodes → reports_shortest edges source (distances c !! v) v) ∧
    match distances c !! dest with
    | Some (Fin x) =>
      ∃ es, is_path edges source es dest ∧ total_weight es = x ∧
            path c = map Id (visited source es) ∧ NoDup (visited source es)
    | _ => path c = []
    end.
Proof.
  intros Hwf Hs Hd Hsafe Hneg Hf.
  assert (negativeCycleEdge (b_distances (bf_final nodes edges source)) edges = None)
    as Hn.
  { destruct (negativeCycleEdge _ _) as [e|] eqn:Hn; [|done].
    destruct Hneg. apply (bf_final_negative_cycle nodes edges source Hwf Hs Hsafe).
    by eexists. }
  destruct (bf_path_terminates fuel nodes edges source dest Hwf Hs Hd Hsafe Hn Hf)
    as (p & Hp & Hnd).
  eexists _, _.
  split; [rewrite bellmanFord_unfold; cbv zeta; rewrite Hn, Hp; done|].
  split; [apply last_snoc|].
  cbn [bf_complete type distances path]. split; [done|]. split.
  - intros v Hv.
    apply (settled_shortest nodes edges source Hwf Hsafe (final_bound nodes edges));
      [by apply bf_final_inv_at|apply final_room| |done].
    exact (proj1 (negativeCycleEdge_None _ _) Hn).
  - destruct (s_defined _ _ _ (bf_final_struct nodes edges source) dest Hd) as [dx Hx].
    rewrite Hx. destruct dx as [x|]; cbn [not_Infinity]; [|done].
    destruct (bf_path_is_path nodes edges source dest fuel x p Hwf Hs Hsafe Hn Hx Hp)
      as (es & H1 & H2 & ->).
    exists es. split; [done|]. split; [done|]. split; [done|].
    by apply (NoDup_fmap_1 Id).
Qed.

Lemma bellmanFord_all_distances_witness :
  let edges := [mkEdge "A" "B" 4; mkEdge "A" "C" 1; mkEdge "C" "B" (-1)] in
  ∃ steps c,
    bellmanFord 10 ex1_nodes edges "A" "B" = Some steps ∧
    last steps = Some c ∧ type c = complete ∧
    (∀ v, v ∈ ids ex1_nodes → reports_shortest edges "A" (distances c !! v) v) ∧
    match distances c !! "B" with
    | Some (Fin x) =>
      ∃ es, is_path edges "A" es "B" ∧ total_weight es = x ∧
            path c = map Id (visited "A" es) ∧ NoDup (visited "A" es)
    | _ => path c = []
    end.
Proof.
  cbv zeta.
  apply (bellmanFord_all_distances ex1_nodes
           [mkEdge "A" "B" 4; mkEdge "A" "C" 1; mkEdge "C" "B" (-1)] "A" "B" 10%nat).
  - apply graph_wf_Forall. evaluate.
  - evaluate.
  - evaluate.
  - evaluate.
  - apply (potential_no_negative_cycle
             (fun v => if bool_decide (v = "C") then 1 else 0)).
    evaluate.
  - vm_compute. lia.
Defined.

(** ** The component: playback *)






Lemma runAlgorithm_cases fuel st st' :
  runAlgorithm fuel st = Some st' →
  st' = toast_error refusal_message st ∨
  ∃ s d steps,
    ui_sourceNode st = Some s ∧ ui_destNode st = Some d ∧
    tracer (ui_algorithm st) fuel (ui_nodes st) (ui_edges st) s d = Some steps ∧
    st' = set_isAnimating true (set_currentStep 0 (set_steps steps st)).
Proof.
  unfold runAlgorithm.
  destruct (ui_sourceNode st) as [s|], (ui_destNode st) as [d|];
    try (intros [= <-]; by left).
  destruct (_ || _); [intros [= <-]; by left|].
  destruct (match ui_algorithm st with Dijkstra => _ | BellmanFord => _ end)
    as [steps|] eqn:Ht; [|done].
  intros [= <-]. right. exists s, d, steps. repeat split; try done.
  by destruct (ui_algorithm st).
Qed.





Lemma handleCanvasMouseMove_ids px py st :
  ids (ui_nodes (handleCanvasMouseMove px py st)) = ids (ui_nodes st).
Proof.
  unfold handleCanvasMouseMove. repeat case_match; try done.
  cbn. unfold ids. rewrite map_map. apply map_ext.
  intros n. by case_bool_decide.
Qed.






(** ** The component: authoring the graph *)

Lemma find_hit_elem px py nodes c : find (hit px py) nodes = Some c → c ∈ nodes.
Proof. intros [H _]%find_some. by apply list_elem_of_In. Qed.

Lemma elem_of_ids n nodes : n ∈ nodes → id n ∈ ids nodes.
Proof. intros H. apply list_elem_of_In, in_map. by apply list_elem_of_In. Qed.

Lemma ids_elem s nodes : s ∈ ids nodes ↔ ∃ n, n ∈ nodes ∧ id n = s.
Proof.
  unfold ids. rewrite list_elem_of_In, in_map_iff. split.
  - intros (n & <- & Hn). exists n. split; [by apply list_elem_of_In|done].
  - intros (n & Hn & <-). exists n. split; [done|by apply list_elem_of_In].
Qed.

Lemma ids_filter k s nodes :
  s ∈ ids (filter (fun n => id n ≠ k) nodes) ↔ s ∈ ids nodes ∧ s ≠ k.
Proof.
  rewrite !ids_elem. split.
  - intros (n & [Hk Hn]%list_elem_of_filter & <-). split; [by exists n|done].
  - intros [(n & Hn & <-) Hk]. exists n. split; [|done]. by apply list_elem_of_filter.
Qed.

Lemma ids_snoc nodes n : ids (nodes ++ [n]) = ids nodes ++ [id n].
Proof. unfold ids. by rewrite map_app. Qed.

Lemma delete_graph_wf nodes edges k :
  graph_wf nodes edges →
  graph_wf (filter (fun n => id n ≠ k) nodes)
           (filter (fun e => from e ≠ k ∧ to e ≠ k) edges).
Proof.
  intros Hwf e [[Hf Ht] He]%list_elem_of_filter.
  destruct (Hwf e He) as [? ?]. by rewrite !ids_filter.
Qed.

Lemma handleCanvasMouseDown_endpoints px py st :
  endpoints_ok st → endpoints_ok (handleCanvasMouseDown px py st).
Proof.
  unfold endpoints_ok, handleCanvasMouseDown. intros [Hs Hd].
  destruct (ui_isAnimating st); [done|].
  destruct (find (hit px py) (ui_nodes st)) as [c|] eqn:Hc, (ui_mode st); try done.
  - repeat case_match; done.
  - repeat case_bool_decide; cbn; split; intros s Hsome; try done;
      apply ids_filter; split; auto; congruence.
  - cbn. split; [|done]. intros s [= <-]. by eapply elem_of_ids, find_hit_elem.
  - cbn. split; [done|]. intros s [= <-]. by eapply elem_of_ids, find_hit_elem.
  - cbn. split; intros s Hsome; rewrite ids_snoc; apply elem_of_app; left; auto.
Qed.

Lemma handleCanvasMouseDown_wf px py st :
  graph_wf (ui_nodes st) (ui_edges st) →
  graph_wf (ui_nodes (handleCanvasMouseDown px py st))
           (ui_edges (handleCanvasMouseDown px py st)).
Proof.
  unfold handleCanvasMouseDown. intros Hwf.
  destruct (ui_isAnimating st); [done|].
  destruct (find (hit px py) (ui_nodes st)) as [c|] eqn:Hc, (ui_mode st); try done.
  - repeat case_match; done.
  - assert (graph_wf (filter (fun n => id n ≠ id c) (ui_nodes st))
                     (filter (fun e => from e ≠ id c ∧ to e ≠ id c) (ui_edges st)))
      by (by apply delete_graph_wf).
    repeat case_bool_decide; done.
  - cbn. intros e He. destruct (Hwf e He). rewrite ids_snoc, !elem_of_app. auto.
Qed.

(** X20.  A press on the canvas keeps the graph closed: if every
    edge joins two nodes and the source and the destination, when set,
    are nodes, then this holds afterwards too.  A press on a node in
    delete mode removes every node with that id and every edge from or to
    it, unsets the source or the destination if it was that node, and
    keeps all other nodes and edges. *)
Theorem canvas_click_keeps_graph px py st :
  graph_wf (ui_nodes st) (ui_edges st) →
  (∀ s, ui_sourceNode st = Some s → s ∈ ids (ui_nodes st)) →
  (∀ d, ui_destNode st = Some d → d ∈ ids (ui_nodes st)) →
  let st' := handleCanvasMouseDown px py st in
  graph_wf (ui_nodes st') (ui_edges st') ∧
  (∀ s, ui_sourceNode st' = Some s → s ∈ ids (ui_nodes st')) ∧
  (∀ d, ui_destNode st' = Some d → d ∈ ids (ui_nodes st')) ∧
  ∀ c, ui_isAnimating st = false → ui_mode st = Delete →
       find (hit px py) (ui_nodes st) = Some c →
       (id c ∉ ids (ui_nodes st')) ∧
       ui_sourceNode st' ≠ Some (id c) ∧ ui_destNode st' ≠ Some (id c) ∧
       (∀ n, n ∈ ui_nodes st' ↔ n ∈ ui_nodes st ∧ id n ≠ id c) ∧
       (∀ e, e ∈ ui_edges st' ↔ e ∈ ui_edges st ∧ from e ≠ id c ∧ to e ≠ id c).
Proof.
  intros Hwf Hs Hd st'.
  split; [by apply handleCanvasMouseDown_wf|].
  destruct (handleCanvasMouseDown_endpoints px py st (conj Hs Hd)) as [Hs' Hd'].
  split; [done|]. split; [done|].
  intros c Ha Hm Hc. unfold st', handleCanvasMouseDown. rewrite Ha, Hc, Hm.
  split; [|split; [|split; [|split]]].
  - repeat case_bool_decide; cbn; rewrite ids_filter; by intros [_ ?].
  - repeat case_bool_decide; cbn; congruence.
  - repeat case_bool_decide; cbn; congruence.
  - intros n. repeat case_bool_decide; cbn; rewrite list_elem_of_filter; tauto.
  - intros e. repeat case_bool_decide; cbn; rewrite list_elem_of_filter; tauto.
Qed.

Lemma canvas_click_keeps_graph_witness :
  let st := mkUi ex1_nodes ex1_edges (Some "A") (Some "B") Dijkstra false 0 []
                 Delete None None (0, 0) false Uni "1" None [] in
  let st' := handleCanvasMouseDown 100 100 st in
  graph_wf (ui_nodes st') (ui_edges st') ∧ ui_sourceNode st' = None ∧
  ui_destNode st' = Some "B" ∧ ("A" ∉ ids (ui_nodes st')).
Proof.
  cbv zeta.
  set (st := mkUi ex1_nodes ex1_edges (Some "A") (Some "B") Dijkstra false 0 []
                  Delete None None (0, 0) false Uni "1" None []).
  assert (graph_wf (ui_nodes st) (ui_edges st)) as Hwf
    by (apply graph_wf_Forall; evaluate).
  assert (∀ s, ui_sourceNode st = Some s → s ∈ ids (ui_nodes st)) as Hs
    by (intros s [= <-]; evaluate).
  assert (∀ d, ui_destNode st = Some d → d ∈ ids (ui_nodes st)) as Hd
    by (intros d [= <-]; evaluate).
  destruct (canvas_click_keeps_graph 100 100 st Hwf Hs Hd) as (Hwf' & _ & _ & Hdel).
  split; [exact Hwf'|]. split; [reflexivity|]. split; [reflexivity|].
  apply (Hdel (mkNode "A" 100 100)); reflexivity.
Defined.

Lemma handleWeightSubmit_endpoints st : endpoints_ok st → endpoints_ok (handleWeightSubmit st).
Proof. unfold endpoints_ok, handleWeightSubmit. repeat case_match; done. Qed.

Lemma handleCanvasMouseMove_endpoints px py st :
  endpoints_ok st → endpoints_ok (handleCanvasMouseMove px py st).
Proof.
  unfold endpoints_ok. rewrite handleCanvasMouseMove_ids.
  unfold handleCanvasMouseMove. repeat case_match; done.
Qed.

Lemma ui_step_endpoints st ev st' : ui_step st ev st' → endpoints_ok st → endpoints_ok st'.
Proof.
  intros Hstep HE. destruct Hstep; try exact HE.
  - by apply handleCanvasMouseDown_endpoints.
  - by apply handleCanvasMouseMove_endpoints.
  - by apply handleWeightSubmit_endpoints.
  - unfold algorithmChange. by case_match.
  - by destruct m.
  - by apply runAlgorithm_cases in H0 as [->|(s & d & steps & _ & _ & _ & ->)].
  - unfold nextStep. by case_match.
  - by split.
Qed.

Lemma ui_reachable_endpoints st : ui_reachable st → endpoints_ok st.
Proof.
  induction 1 as [|st ev st' _ IH Hstep]; [by split|].
  by eapply ui_step_endpoints.
Qed.

(** X21.  In every state the component can reach, the source
    and the destination, when they are set, are ids of nodes of the
    graph. *)
Theorem endpoints_are_nodes st :
  ui_reachable st →
  (∀ s, ui_sourceNode st = Some s → s ∈ ids (ui_nodes st)) ∧
  (∀ d, ui_destNode st = Some d → d ∈ ids (ui_nodes st)).
Proof. apply ui_reachable_endpoints. Qed.

Lemma endpoints_are_nodes_witness :
  ∃ st, ui_run 10 play_events ui_initial = Some st ∧
        ui_sourceNode st = Some "N0" ∧ "N0" ∈ ids (ui_nodes st).
Proof.
  assert (∃ st, ui_run 10 play_events ui_initial = Some st ∧
                ui_sourceNode st = Some "N0") as (st & Hrun & Hs).
  { eexists. split; [vm_compute; reflexivity|reflexivity]. }
  exists st. split; [done|]. split; [done|].
  assert (ui_reachable st) as Hr
    by (eapply ui_run_reachable; [apply reach_initial|exact Hrun]).
  exact (proj1 (endpoints_are_nodes st Hr) "N0" Hs).
Defined.

(** X22.  From a state the component can reach, Run Algorithm
    returns when Dijkstra is selected, and also when Bellman-Ford is
    selected, every edge joins two nodes and every weight is at most
    [2^53 / (|V| * |E| + 1)] in absolute value, so that no sum is
    rounded: either the run is refused with the error message and
    nothing else changes, or the animation starts at step 0 of a trace
    that ends in a [complete] or a [negative-cycle] step. *)
Theorem run_returns st fuel :
  ui_reachable st →
  (ui_algorithm st = BellmanFord →
   graph_wf (ui_nodes st) (ui_edges st) ∧ safe_weights (ui_nodes st) (ui_edges st)) →
  (length (ui_nodes st) + length (ui_edges st) + 1 <= fuel)%nat →
  ∃ st', runAlgorithm fuel st = Some st' ∧
    (st' = toast_error refusal_message st ∨
     ∃ steps c,
       st' = set_isAnimating true (set_currentStep 0 (set_steps steps st)) ∧
       last steps = Some c ∧
       (type c = complete ∨ ui_algorithm st = BellmanFord ∧ type c = negative_cycle)).
Proof.
  intros [Hs Hd]%ui_reachable_endpoints Hwf Hf. unfold runAlgorithm.
  destruct (ui_sourceNode st) as [s|]; [|eexists; split; [done|by left]].
  destruct (ui_destNode st) as [d|]; [|eexists; split; [done|by left]].
  destruct (_ || _); [eexists; split; [done|by left]|].
  specialize (Hs s eq_refl). specialize (Hd d eq_refl).
  destruct (ui_algorithm st).
  - destruct (dijkstra_total fuel _ (ui_edges st) s d Hs Hd Hf)
      as (dst & p & _ & _ & _ & ->).
    eexists. split; [done|]. right. eexists _, _. split; [done|].
    split; [apply last_snoc|]. by left.
  - destruct (Hwf eq_refl) as [Hwf' Hsafe]. rewrite bellmanFord_unfold. cbv zeta.
    destruct (negativeCycleEdge _ _) as [e|] eqn:Hn.
    { eexists. split; [done|]. right. eexists _, _. split; [done|].
      split; [apply last_snoc|]. by right. }
    destruct (bf_path_terminates fuel (ui_nodes st) (ui_edges st) s d Hwf' Hs Hd
                Hsafe Hn ltac:(lia)) as (p & -> & _).
    eexists. split; [done|]. right. eexists _, _. split; [done|].
    split; [apply last_snoc|]. by left.
Qed.

Lemma run_returns_witness :
  ∃ st, ui_run 10 (removelast (removelast play_events)) ui_initial = Some st ∧
    ∃ st', runAlgorithm 10 st = Some st' ∧
      (st' = toast_error refusal_message st ∨
       ∃ steps c,
         st' = set_isAnimating true (set_currentStep 0 (set_steps steps st)) ∧
         last steps = Some c ∧
         (type c = complete ∨ ui_algorithm st = BellmanFord ∧ type c = negative_cycle)).
Proof.
  assert (∃ st, ui_run 10 (removelast (removelast play_events)) ui_initial = Some st ∧
                ui_algorithm st = Dijkstra ∧
                (length (ui_nodes st) + length (ui_edges st) + 1 <= 10)%nat)
    as (st & Hrun & Ha & Hf).
  { eexists. split; [vm_compute; reflexivity|]. split; [reflexivity|vm_compute; lia]. }
  exists st. split; [exact Hrun|].
  apply (run_returns st 10).
  - eapply ui_run_reachable; [apply reach_initial|exact Hrun].
  - intros Hb. rewrite Ha in Hb. discriminate.
  - exact Hf.
Defined.

(** ** The component: node ids and weights *)

Lemma node_name_inj i j : node_name i = node_name j → i = j.
Proof. unfold node_name. simpl. intros [= H]. by apply (inj pretty). Qed.

Lemma NoDup_node_names n : NoDup (map node_name (seq 0 n)).
Proof.
  change (NoDup (node_name <$> seq 0 n)).
  apply NoDup_fmap_2; [intros i j; apply node_name_inj|apply NoDup_seq].
Qed.

Lemma ids_in_sequence_snoc nodes px py :
  ids_in_sequence nodes →
  ids_in_sequence (nodes ++ [mkNode ("N" +:+ pretty (length nodes)) px py]).
Proof.
  unfold ids_in_sequence. intros Hseq.
  rewrite ids_snoc, length_app, Hseq. simpl length.
  rewrite Nat.add_1_r, seq_S, map_app. done.
Qed.

Lemma handleCanvasMouseMove_numbered px py st :
  numbered st → numbered (handleCanvasMouseMove px py st).
Proof.
  unfold numbered, ids_in_sequence. intros [Hm Hseq].
  rewrite handleCanvasMouseMove_ids.
  assert (length (ui_nodes (handleCanvasMouseMove px py st)) = length (ui_nodes st)) as ->.
  { rewrite <-(length_map id (ui_nodes (handleCanvasMouseMove px py st))).
    change (length (ids (ui_nodes (handleCanvasMouseMove px py st))) = length (ui_nodes st)).
    rewrite handleCanvasMouseMove_ids. unfold ids. by rewrite length_map. }
  split; [|done]. unfold handleCanvasMouseMove. repeat case_match; done.
Qed.

Lemma handleCanvasMouseDown_numbered px py st :
  numbered st → numbered (handleCanvasMouseDown px py st).
Proof.
  unfold numbered, handleCanvasMouseDown. intros [Hm Hseq].
  destruct (ui_isAnimating st); [done|].
  destruct (find (hit px py) (ui_nodes st)) as [c|] eqn:Hc, (ui_mode st) eqn:Hmode;
    cbn; rewrite ?Hmode; try done.
  - repeat case_match; cbn; rewrite ?Hmode; done.
  - split; [done|]. by apply ids_in_sequence_snoc.
Qed.

Lemma ui_handle_numbered fuel st ev st' :
  ui_handle fuel st ev = Some st' → ev ≠ ModeButton Delete → numbered st → numbered st'.
Proof.
  intros Hh Hev HN. destruct ev; simpl in Hh.
  - injection Hh as <-. by apply handleCanvasMouseDown_numbered.
  - injection Hh as <-. by apply handleCanvasMouseMove_numbered.
  - by injection Hh as <-.
  - injection Hh as <-. unfold handleWeightSubmit. repeat case_match; done.
  - injection Hh as <-. by case_match.
  - injection Hh as <-. by case_match.
  - injection Hh as <-. by case_match.
  - injection Hh as <-. unfold algorithmChange. repeat case_match; done.
  - injection Hh as <-. destruct (ui_isAnimating st); [done|].
    destruct HN as [_ Hseq]. destruct m; done.
  - destruct (ui_isAnimating st); [by injection Hh as <-|].
    by apply runAlgorithm_cases in Hh as [->|(s & d & steps & _ & _ & _ & ->)].
  - injection Hh as <-. unfold nextStep. repeat case_match; done.
  - injection Hh as <-. by case_match.
  - injection Hh as <-. destruct (ui_isAnimating st); [done|].
    destruct HN as [Hm _]. by split.
Qed.

(** X23.  As long as delete mode is never selected, the nodes of the
    graph carry the ids N0, N1, N2, ... in the order in which they were
    placed, so no two nodes share an id. *)
Theorem ids_unique_until_delete fuel evs st :
  ui_run fuel evs ui_initial = Some st → ModeButton Delete ∉ evs →
  ids (ui_nodes st) = map node_name (seq 0 (length (ui_nodes st))) ∧
  NoDup (ids (ui_nodes st)).
Proof.
  intros Hrun Hevs.
  assert (numbered st) as [_ Hseq].
  { assert (numbered ui_initial) as HN by (by split).
    revert Hrun HN. generalize ui_initial.
    induction evs as [|ev evs IH]; intros st0 Hrun HN; simpl in Hrun.
    { by injection Hrun as <-. }
    destruct (ui_handle fuel st0 ev) as [st1|] eqn:Hh; [|done].
    apply not_elem_of_cons in Hevs as [Hev Hevs].
    apply (IH Hevs st1 Hrun). eapply ui_handle_numbered; [exact Hh|congruence|done]. }
  split; [exact Hseq|]. rewrite Hseq. apply NoDup_node_names.
Qed.

Lemma ids_unique_until_delete_witness :
  ∃ st, ui_run 10 play_events ui_initial = Some st ∧
        ids (ui_nodes st) = ["N0"; "N1"] ∧ NoDup (ids (ui_nodes st)).
Proof.
  assert (∃ st, ui_run 10 play_events ui_initial = Some st ∧
                ids (ui_nodes st) = ["N0"; "N1"]) as (st & Hrun & Hids).
  { eexists. split; [vm_compute; reflexivity|reflexivity]. }
  assert (ModeButton Delete ∉ play_events) as Hev by evaluate.
  exists st. split; [exact Hrun|]. split; [exact Hids|].
  exact (proj2 (ids_unique_until_delete 10 play_events st Hrun Hev)).
Defined.

Lemma digit_of_pretty d : (d < 10)%N → digit_of (pretty_N_char d) = Some (Z.of_N d).
Proof.
  intros Hd.
  assert (d = 0 ∨ d = 1 ∨ d = 2 ∨ d = 3 ∨ d = 4 ∨ d = 5 ∨ d = 6 ∨ d = 7 ∨ d = 8 ∨ d = 9)%N
    as H by lia.
  repeat (destruct H as [->|H]; [reflexivity|]). by subst.
Qed.

Lemma digits_pretty_N_go x s :
  (0 < x)%N → digits 10 (pretty_N_go x s) None = digits 10 s (Some (Z.of_N x)).
Proof.
  revert s. induction (N.lt_wf_0 x) as [x _ IH]. intros s Hx.
  rewrite pretty_N_go_step by done.
  assert (x `mod` 10 < 10)%N as Hm by (by apply N.mod_lt).
  pose proof (N.div_mod x 10 ltac:(done)) as Hdm.
  assert (x `div` 10 < x)%N as Hlt by (apply N.div_lt; lia).
  revert Hm Hdm Hlt. generalize (x `mod` 10)%N (x `div` 10)%N. intros r q Hm Hdm Hlt.
  destruct (decide (q = 0)%N) as [Hz|Hz].
  - rewrite Hz, pretty_N_go_0. cbn [digits]. rewrite digit_of_pretty by done.
    rewrite bool_decide_eq_true_2 by lia. cbn [default]. do 2 f_equal. lia.
  - rewrite IH; [|done|lia]. cbn [digits].
    rewrite digit_of_pretty by done.
    rewrite bool_decide_eq_true_2 by lia. cbn [default]. do 2 f_equal.
    unfold Datatypes.id. lia.
Qed.

Lemma pretty_N_go_head x s :
  (0 < x)%N →
  ∃ d rest, (0 < d < 10)%N ∧ pretty_N_go x s = String (pretty_N_char d) rest.
Proof.
  revert s. induction (N.lt_wf_0 x) as [x _ IH]. intros s Hx.
  rewrite pretty_N_go_step by done.
  assert (x `mod` 10 < 10)%N as Hm by (by apply N.mod_lt).
  pose proof (N.div_mod x 10 ltac:(done)) as Hdm.
  assert (x `div` 10 < x)%N as Hlt by (apply N.div_lt; lia).
  revert Hm Hdm Hlt. generalize (x `mod` 10)%N (x `div` 10)%N. intros r q Hm Hdm Hlt.
  destruct (decide (q = 0)%N) as [Hz|Hz].
  - rewrite Hz, pretty_N_go_0. exists r, s. split; [lia|done].
  - apply IH; [done|lia].
Qed.

Lemma parseInt_head d rest :
  (0 < d < 10)%N →
  parseInt (String (pretty_N_char d) rest)
    = (match digits 10 (String (pretty_N_char d) rest) None with
       | Some n => Some (1 * double n)
       | None => None
       end) ∧
  parseInt (String "-" (String (pretty_N_char d) rest))
    = (match digits 10 (String (pretty_N_char d) rest) None with
       | Some n => Some (-1 * double n)
       | None => None
       end).
Proof.
  intros Hd.
  assert (d = 1 ∨ d = 2 ∨ d = 3 ∨ d = 4 ∨ d = 5 ∨ d = 6 ∨ d = 7 ∨ d = 8 ∨ d = 9)%N
    as H by lia.
  repeat (destruct H as [->|H]; [split; reflexivity|]). subst. split; reflexivity.
Qed.

(** [parseInt] reads back the decimal numeral of an integer, as the
    double nearest to it. *)
Lemma parseInt_pretty z : parseInt (pretty z) = Some (double z).
Proof.
  destruct z as [|p|p]; [reflexivity| |].
  - change (pretty (Z.pos p)) with (pretty_N_go (N.pos p) "").
    destruct (pretty_N_go_head (N.pos p) "") as (d & rest & Hd & Heq); [lia|].
    pose proof (digits_pretty_N_go (N.pos p) "" ltac:(lia)) as Hdig.
    rewrite Heq in Hdig |- *. rewrite (proj1 (parseInt_head d rest Hd)), Hdig.
    cbn [digits]. f_equal. change (Z.of_N (N.pos p)) with (Z.pos p). lia.
  - change (pretty (Z.neg p)) with (String "-" (pretty_N_go (N.pos p) "")).
    destruct (pretty_N_go_head (N.pos p) "") as (d & rest & Hd & Heq); [lia|].
    pose proof (digits_pretty_N_go (N.pos p) "" ltac:(lia)) as Hdig.
    rewrite Heq in Hdig |- *. rewrite (proj2 (parseInt_head d rest Hd)), Hdig.
    cbn [digits]. f_equal. change (Z.of_N (N.pos p)) with (Z.pos p).
    change (Z.neg p) with (- Z.pos p). rewrite double_opp. lia.
Qed.

(** What [handleWeightSubmit] does when the input holds the decimal
    numeral of an integer that is a double. *)
Lemma handleWeightSubmit_decimal st z a b :
  Z.abs z <= 2 ^ 53 →
  ui_weightInput st = pretty z → ui_pendingEdge st = Some (a, b) →
  let st' := handleWeightSubmit st in
  if bool_decide (ui_algorithm st = Dijkstra ∧ z < 0) then
    st' = toast_error "Dijkstra's algorithm must have positive weight edges only." st
  else
    ui_edges st' =
      ui_edges st ++
        (if bool_decide (z = 0) then []
         else match ui_direction st with
              | Uni => [mkEdge a b z]
              | Bi => [mkEdge a b z; mkEdge b a z]
              end) ∧
    ui_toasts st' = ui_toasts st ∧ ui_showWeightModal st' = false ∧
    ui_pendingEdge st' = None ∧ ui_weightInput st' = "1" ∧
    ui_direction st' = Uni ∧ ui_connectingFrom st' = None ∧
    ui_nodes st' = ui_nodes st.
Proof.
  intros Hsmall Hin Hpe st'. unfold st', handleWeightSubmit.
  rewrite Hin, parseInt_pretty, Hpe. unfold negative_num, truthy_num.
  rewrite (double_exact z Hsmall).
  destruct (decide (ui_algorithm st = Dijkstra ∧ z < 0)) as [[Hal Hneg]|Hno].
  - rewrite bool_decide_eq_true_2 by done.
    rewrite (bool_decide_eq_true_2 (ui_algorithm st = Dijkstra)) by done.
    by rewrite (bool_decide_eq_true_2 (z < 0)) by done.
  - rewrite (bool_decide_eq_false_2 (_ ∧ _)) by done.
    assert (bool_decide (ui_algorithm st = Dijkstra) && bool_decide (z < 0)
            = false) as ->.
    { apply andb_false_iff. rewrite !bool_decide_eq_false.
      destruct (decide (ui_algorithm st = Dijkstra)); [right|by left].
      intros ?. by apply Hno. }
    destruct (decide (z = 0)) as [->|Hz].
    + rewrite (bool_decide_eq_false_2 (0 ≠ 0)) by (intros H; by apply H).
      rewrite (bool_decide_eq_true_2 (0 = 0)) by done.
      cbn. by rewrite app_nil_r.
    + rewrite (bool_decide_eq_true_2 (z ≠ 0)) by done.
      rewrite (bool_decide_eq_false_2 (z = 0)) by done.
      by destruct (ui_direction st).
Qed.

(** X24.  Submitting the weight dialog with the decimal numeral of
    an integer [z] of at most 2^53 in absolute value, which [parseInt]
    reads back exactly, in the input: a negative [z] under Dijkstra is
    reported and nothing else changes, the dialog staying open;
    otherwise nothing is reported, the dialog closes with its cells
    reset, and the edge list grows by the pending edge with weight
    exactly [z], by that edge and its reverse when the direction is
    bidirectional, and by nothing when [z] is 0. *)
Theorem decimal_weight_submitted st z a b :
  Z.abs z <= 2 ^ 53 →
  ui_weightInput st = pretty z → ui_pendingEdge st = Some (a, b) →
  let st' := handleWeightSubmit st in
  if bool_decide (ui_algorithm st = Dijkstra ∧ z < 0) then
    st' = toast_error "Dijkstra's algorithm must have positive weight edges only." st
  else
    ui_edges st' =
      ui_edges st ++
        (if bool_decide (z = 0) then []
         else match ui_direction st with
              | Uni => [mkEdge a b z]
              | Bi => [mkEdge a b z; mkEdge b a z]
              end) ∧
    ui_toasts st' = ui_toasts st ∧ ui_showWeightModal st' = false ∧
    ui_pendingEdge st' = None ∧ ui_weightInput st' = "1" ∧
    ui_direction st' = Uni ∧ ui_connectingFrom st' = None ∧
    ui_nodes st' = ui_nodes st.
Proof. apply handleWeightSubmit_decimal. Qed.

Lemma decimal_weight_submitted_witness :
  ∃ st, ui_run 10 (removelast one_edge_events) ui_initial = Some st ∧
        ui_edges (handleWeightSubmit st) = [mkEdge "N0" "N1" 5] ∧
        ui_showWeightModal (handleWeightSubmit st) = false.
Proof.
  assert (∃ st, ui_run 10 (removelast one_edge_events) ui_initial = Some st ∧
                ui_weightInput st = pretty 5 ∧ ui_pendingEdge st = Some ("N0", "N1") ∧
                ui_edges st = [] ∧ ui_direction st = Uni ∧ ui_algorithm st = Dijkstra)
    as (st & Hrun & Hin & Hpe & He & Hdir & Hal).
  { eexists. split; [vm_compute; reflexivity|]. repeat split; reflexivity. }
  exists st. split; [exact Hrun|].
  pose proof (decimal_weight_submitted st 5 "N0" "N1" ltac:(vm_compute; discriminate)
                Hin Hpe) as H.
  cbv zeta in H. rewrite bool_decide_eq_false_2 in H by lia.
  destruct H as (H1 & _ & H2 & _). rewrite H1, He, Hdir. split; [reflexivity|exact H2].
Defined.

(** ** The component: connecting two nodes *)

(** X25.  In connect mode, with no node picked yet, pressing on a
    node, then on a node with another id, typing the decimal numeral of
    a weight the dialog accepts (not 0, positive under Dijkstra, and at
    most 2^53 in absolute value, so that it is a double) and
    submitting adds the edge from the first node to the second with
    that weight, and its reverse too when the direction is
    bidirectional; nodes and messages are unchanged, the dialog is
    closed, no node is picked any more, and a graph whose edges joined
    nodes is still one. *)
Theorem connect_adds_edge fuel px py qx qy st ca cb z :
  ui_isAnimating st = false → ui_mode st = Connect → ui_connectingFrom st = None →
  find (hit px py) (ui_nodes st) = Some ca →
  find (hit qx qy) (ui_nodes st) = Some cb →
  id ca ≠ "" → id ca ≠ id cb → z ≠ 0 → (ui_algorithm st = Dijkstra → 0 < z) →
  Z.abs z <= 2 ^ 53 →
  ∃ st',
    ui_run fuel [CanvasMouseDown px py; CanvasMouseDown qx qy;
                 WeightInputChange (pretty z); WeightSubmit] st = Some st' ∧
    ui_edges st' =
      ui_edges st ++
        match ui_direction st with
        | Uni => [mkEdge (id ca) (id cb) z]
        | Bi => [mkEdge (id ca) (id cb) z; mkEdge (id cb) (id ca) z]
        end ∧
    ui_nodes st' = ui_nodes st ∧ ui_toasts st' = ui_toasts st ∧
    ui_showWeightModal st' = false ∧ ui_connectingFrom st' = None ∧
    ui_direction st' = Uni ∧
    (graph_wf (ui_nodes st) (ui_edges st) → graph_wf (ui_nodes st') (ui_edges st')).
Proof.
  intros Ha Hm Hcf Hca Hcb Hne Hab Hz Hpos Hsmall.
  set (st1 := set_connectingFrom (Some (id ca)) st).
  set (st3 := set_weightInput (pretty z) (openWeightModal (id ca) (id cb) st1)).
  assert (handleCanvasMouseDown px py st = st1) as H1.
  { unfold handleCanvasMouseDown. by rewrite Ha, Hca, Hm, Hcf. }
  assert (handleCanvasMouseDown qx qy st1 = openWeightModal (id ca) (id cb) st1) as H2.
  { unfold handleCanvasMouseDown, st1. cbn. rewrite Ha, Hcb, Hm.
    by rewrite !bool_decide_eq_true_2 by done. }
  pose proof (handleWeightSubmit_decimal st3 z (id ca) (id cb) Hsmall eq_refl eq_refl)
    as H.
  cbv zeta in H. rewrite bool_decide_eq_false_2 in H.
  2:{ intros [Hal Hneg]. specialize (Hpos Hal). lia. }
  rewrite (bool_decide_eq_false_2 (z = 0)) in H by done.
  destruct H as (He & Ht & Hw & _ & _ & Hd & Hc & Hn).
  exists (handleWeightSubmit st3). split; [|split; [|split; [|split; [|split; [|split; [|split]]]]]];
    try done.
  - cbn [ui_run ui_handle]. by rewrite H1, H2.
  - intros Hwf e. rewrite He, Hn. cbn.
    assert (id ca ∈ ids (ui_nodes st)) by (by eapply elem_of_ids, find_hit_elem).
    assert (id cb ∈ ids (ui_nodes st)) by (by eapply elem_of_ids, find_hit_elem).
    intros [He'|He']%elem_of_app; [by apply Hwf|].
    destruct (ui_direction st).
    + by apply list_elem_of_singleton in He' as ->.
    + apply elem_of_cons in He' as [->|He']; [done|].
      by apply list_elem_of_singleton in He' as ->.
Qed.

Lemma connect_adds_edge_witness :
  ∃ st st',
    ui_run 10 (two_nodes_events ++ [ModeButton Connect]) ui_initial = Some st ∧
    ui_run 10 [CanvasMouseDown 100 100; CanvasMouseDown 300 100;
               WeightInputChange (pretty 5); WeightSubmit] st = Some st' ∧
    ui_edges st' = [mkEdge "N0" "N1" 5].
Proof.
  assert (∃ st, ui_run 10 (two_nodes_events ++ [ModeButton Connect]) ui_initial = Some st ∧
                ui_isAnimating st = false ∧ ui_mode st = Connect ∧
                ui_connectingFrom st = None ∧
                find (hit 100 100) (ui_nodes st) = Some (mkNode "N0" 100 100) ∧
                find (hit 300 100) (ui_nodes st) = Some (mkNode "N1" 300 100) ∧
                ui_algorithm st = Dijkstra ∧ ui_edges st = [] ∧ ui_direction st = Uni)
    as (st & Hrun & Ha & Hm & Hcf & Hca & Hcb & Hal & He & Hd).
  { eexists. split; [vm_compute; reflexivity|]. repeat split; reflexivity. }
  destruct (connect_adds_edge 10 100 100 300 100 st (mkNode "N0" 100 100)
              (mkNode "N1" 300 100) 5 Ha Hm Hcf Hca Hcb)
    as (st' & Hrun' & He' & _); [done|done|lia|lia|vm_compute; discriminate|].
  exists st, st'. split; [exact Hrun|]. split; [exact Hrun'|].
  rewrite He', He, Hd. reflexivity.
Defined.
